(** * DrQA pipeline: a shallow embedding of [drqa/pipeline/drqa.py]

    The development follows the source top to bottom: Python values
    (strings, slices, tuples), the paragraph splitter [_split_doc], the
    collaborators held by the [DrQA] object, the batch entry point
    [process_batch] with the calls it makes, and then the properties of the
    pipeline. *)

From Stdlib Require Import ZArith NArith Lia String Ascii Permutation Sorted.
From stdpp Require Import gmap list sorting.

Local Open Scope Z_scope.

(** ** Python values *)

(** A Python [str] is a sequence of code points. *)
Definition char := N.
Definition str := list char.

(** ASCII literals, for the examples. *)
Fixpoint of_string (s : string) : str :=
  match s with
  | EmptyString => []
  | String c s' => N_of_ascii c :: of_string s'
  end.

Definition NL : char := 10%N.
Definition SP : char := 32%N.

(** [str.isspace] on one code point: the characters [str.strip] removes. *)
Definition isspace (c : char) : bool :=
  ((9 <=? c) && (c <=? 13) || (28 <=? c) && (c <=? 32)
   || (c =? 133) || (c =? 160) || (c =? 5760)
   || (8192 <=? c) && (c <=? 8202)
   || (c =? 8232) || (c =? 8233) || (c =? 8239) || (c =? 8287)
   || (c =? 12288))%N.

Fixpoint lstrip (s : str) : str :=
  match s with
  | [] => []
  | c :: s' => if isspace c then lstrip s' else s
  end.

Definition rstrip (s : str) : str := rev (lstrip (rev s)).

(** [s.strip()] *)
Definition strip (s : str) : str := rstrip (lstrip s).

(** [sep.join(l)] *)
Fixpoint join (sep : str) (l : list str) : str :=
  match l with
  | [] => []
  | [x] => x
  | x :: l' => x ++ sep ++ join sep l'
  end.

(** [len(x)] as a Python int. *)
Definition len {A} (l : list A) : Z := Z.of_nat (length l).

(** [l[i]] for a Python int [i]: negative indices count from the end, and an
    index out of range is an [IndexError] ([None]). *)
Definition py_index {A} (l : list A) (i : Z) : option A :=
  if 0 <=? i then l !! Z.to_nat i
  else if 0 <=? i + len l then l !! Z.to_nat (i + len l)
  else None.

(** A slice bound, clipped the way Python clips it. *)
Definition clip {A} (l : list A) (i : Z) : nat :=
  if 0 <=? i then Nat.min (Z.to_nat i) (length l)
  else Z.to_nat (Z.max 0 (i + len l)).

(** [l[i:j]] *)
Definition py_slice {A} (l : list A) (i j : Z) : list A :=
  let a := clip l i in
  let b := clip l j in
  take (b - a) (drop a l).

(** [l[:j]] *)
Definition py_prefix {A} (l : list A) (j : Z) : list A := take (clip l j) l.

(** ** The paragraph splitter *)

(** [regex.split(r'\n+', doc)]: the pieces of [doc] between maximal runs of
    newlines; [acc] is the piece being read (reversed) and [in_run] tells
    whether the previous character belonged to a separator. *)
Fixpoint regex_split_go (doc : str) (acc : str) (in_run : bool) : list str :=
  match doc with
  | [] => [rev acc]
  | c :: doc' =>
      if (c =? NL)%N then
        if in_run then regex_split_go doc' acc true
        else rev acc :: regex_split_go doc' [] true
      else regex_split_go doc' (c :: acc) false
  end.

Definition regex_split_newlines (doc : str) : list str :=
  regex_split_go doc [] false.

(** [GROUP_LENGTH]: an integer, or infinity ("read all paragraphs
    together"). *)
Inductive group_length :=
| Chars (n : Z)
| Infty.

(** [n > G] *)
Definition exceeds (n : Z) (G : group_length) : bool :=
  match G with
  | Chars g => g <? n
  | Infty => false
  end.

(** The loop state of [_split_doc]: the buffer [curr], its length
    [curr_len], and the chunks yielded so far. *)
Record split_state := SplitState {
  curr : list str;
  curr_len : Z;
  yielded : list str
}.

(** One iteration of the [for split in ...] loop. *)
Definition split_step (G : group_length) (st : split_state) (piece : str)
  : split_state :=
  let split := strip piece in
  if len split =? 0 then st
  else
    let st' :=
      if (0 <? len (curr st)) && exceeds (curr_len st + len split) G
      then SplitState [] 0 (yielded st ++ [join [SP] (curr st)])
      else st in
    SplitState (curr st' ++ [split]) (curr_len st' + len split) (yielded st').

(** [DrQA._split_doc], with the generator's output collected in a list. *)
Definition _split_doc (G : group_length) (doc : str) : list str :=
  let st := fold_left (split_step G) (regex_split_newlines doc)
                      (SplitState [] 0 []) in
  if 0 <? len (curr st) then yielded st ++ [join [SP] (curr st)]
  else yielded st.

(** The chunks a loop state stands for: those yielded, then the buffer. *)
Definition pending (st : split_state) : list str :=
  match curr st with
  | [] => yielded st
  | _ => yielded st ++ [join [SP] (curr st)]
  end.

(** The stripped, non-empty pieces of a document, in order: what the loop
    of [_split_doc] groups. *)
Definition paragraphs (doc : str) : list str :=
  filter (fun p => p ≠ []) (strip <$> regex_split_newlines doc).


(** ** Data model *)

(** The composite key of an example: [(qidx, rel_didx, sidx)]. *)
Definition Key := (nat * nat * nat)%type.

(** Span and document scores are floats of which the pipeline only uses the
    order; they are represented by integers. *)
Definition Score := Z.

(** A queue item: the tuple [(score, ex_id, s, e)]. *)
Definition Item := (Score * Key * Z * Z)%type.

Definition item_score (it : Item) : Score := it.1.1.1.
Definition item_key (it : Item) : Key := it.1.1.2.
Definition item_start (it : Item) : Z := it.1.2.
Definition item_end (it : Item) : Z := it.2.

(** Modelled from the spec: the annotation class of [drqa/tokenizers] is
    not among the sources.  An annotation is an ordered sequence of tokens,
    each with its word, the word followed by its trailing whitespace, its
    character offsets in the text, and lemma, part-of-speech and entity
    tags.  The subword tokenizer of the transformer variant returns the
    words alone. *)
Record Token := mkToken {
  tok_text : str;
  tok_text_ws : str;
  tok_span : Z * Z;
  tok_pos : str;
  tok_lemma : str;
  tok_ner : str
}.

Definition Tokens := list Token.

Definition words (t : Tokens) : list str := tok_text <$> t.
Definition lemmas (t : Tokens) : list str := tok_lemma <$> t.
Definition pos (t : Tokens) : list str := tok_pos <$> t.
Definition entities (t : Tokens) : list str := tok_ner <$> t.
Definition offsets (t : Tokens) : list (Z * Z) := tok_span <$> t.
Definition slice (t : Tokens) (i j : Z) : Tokens := py_slice t i j.
Definition untokenize (t : Tokens) : str := strip (concat (tok_text_ws <$> t)).

(** The tag sequences of a word-tagging example:
    [qlemma], [lemma], [pos], [ner]. *)
Record Tags := mkTags {
  qlemma : list str;
  lemma : list str;
  ex_pos : list str;
  ner : list str
}.

(** A scoring unit. *)
Record Example := mkExample {
  ex_id : Key;
  question : list str;
  document : list str;
  tags : option Tags
}.

(** A candidate restriction for one batch row. *)
Record BatchCand := mkBatchCand {
  bc_input : Tokens;
  bc_cands : option (list str)
}.

(** What [reader.predict] returns for a batch: per row, the start indices,
    end indices and scores of its candidate spans, best first. *)
Record ReaderResult := mkReaderResult {
  r_s : list (list Z);
  r_e : list (list Z);
  r_score : list (list Score)
}.

Record Context := mkContext {
  ctx_text : str;
  ctx_start : Z;
  ctx_end : Z
}.

Record Prediction := mkPrediction {
  doc_id : str;
  span : str;
  doc_score : Score;
  span_score : Score;
  context : option Context
}.

Inductive ReaderModel := Transformer | WordTagging.

(** The pipeline object: its configuration and its collaborators.  The
    ranker, the document store, the tokenizer and the reader are external;
    they are functions here, and a failure inside one of them is outside
    this model. *)
Record DrQA := mkDrQA {
  reader_model : ReaderModel;
  batch_size : positive;
  fixed_candidates : bool;
  GROUP_LENGTH : group_length;
  closest_docs : str -> Z -> list str * list Score;
  get_doc_text : str -> str;
  tokenize : str -> Tokens;
  predict : list Example -> option (list BatchCand) -> ReaderResult
}.

(** ** Calls and exceptions *)

(** The calls the pipeline makes to its collaborators. *)
Inductive Event :=
| EvClosestDocs (query : str) (k : Z)
| EvBatchClosestDocs (queries : list str) (k : Z)
| EvFetchText (did : str)
| EvTokenizeText (text : str)
| EvPredict (batch : list Example) (batch_cands : option (list BatchCand)).

Inductive Exc := ValueError | IndexError | KeyError.

Inductive result (A : Type) :=
| Ok (a : A)
| Raise (e : Exc).
Arguments Ok {A} a.
Arguments Raise {A} e.

Definition rbind {A B} (r : result A) (k : A -> result B) : result B :=
  match r with
  | Ok a => k a
  | Raise e => Raise e
  end.

(** A computation that logs its calls and may raise. *)
Definition M (A : Type) := list Event -> list Event * result A.

Definition ret {A} (a : A) : M A := fun t => (t, Ok a).

Definition bind {A B} (m : M A) (k : A -> M B) : M B := fun t =>
  match m t with
  | (t', Ok a) => k a t'
  | (t', Raise e) => (t', Raise e)
  end.

Definition emit (ev : Event) : M unit := fun t => (t ++ [ev], Ok tt).

Definition lift {A} (r : result A) : M A := fun t => (t, r).

Notation "x <- m ;; k" := (bind m (fun x => k))
  (at level 100, m at next level, right associativity).
Notation "x <~ r ;; k" := (rbind r (fun x => k))
  (at level 100, r at next level, right associativity).

(** A lookup that raises [e] when it finds nothing. *)
Definition or_raise {A} (e : Exc) (o : option A) : result A :=
  match o with
  | Some a => Ok a
  | None => Raise e
  end.

Fixpoint rmap {A B} (f : A -> result B) (l : list A) : result (list B) :=
  match l with
  | [] => Ok []
  | x :: l' => y <~ f x ;; ys <~ rmap f l' ;; Ok (y :: ys)
  end.

(** A loop that runs [f] on every element in turn and collects the
    results. *)
Fixpoint mapM {A B} (f : A -> M B) (l : list A) : M (list B) :=
  match l with
  | [] => ret []
  | x :: l' => y <- f x ;; ys <- mapM f l' ;; ret (y :: ys)
  end.

(** [self.processes.map(f, xs)] and [map_async(f, xs).get()]: every job
    runs once and the results come back in the order of the inputs.  The
    jobs of the pool are logged in that order. *)
Abbreviation pool_map := mapM (only parsing).

Definition fetch_text (d : DrQA) (did : str) : M str :=
  _ <- emit (EvFetchText did) ;; ret (get_doc_text d did).

Definition tokenize_text (d : DrQA) (text : str) : M Tokens :=
  _ <- emit (EvTokenizeText text) ;; ret (tokenize d text).

Definition ranker_closest_docs (d : DrQA) (query : str) (k : Z)
  : M (list str * list Score) :=
  _ <- emit (EvClosestDocs query k) ;; ret (closest_docs d query k).

(** Modelled from the spec: the ranker's batched form, which answers every
    query of the batch as the single form does. *)
Definition ranker_batch_closest_docs (d : DrQA) (queries : list str) (k : Z)
  : M (list (list str * list Score)) :=
  _ <- emit (EvBatchClosestDocs queries k) ;;
  ret ((fun q => closest_docs d q k) <$> queries).

Definition reader_predict (d : DrQA) (batch : list Example)
    (batch_cands : option (list BatchCand)) : M ReaderResult :=
  _ <- emit (EvPredict batch batch_cands) ;; ret (predict d batch batch_cands).

Fixpoint rfold {A B} (f : B -> A -> result B) (l : list A) (b : B)
  : result B :=
  match l with
  | [] => Ok b
  | x :: l' => b' <~ f b x ;; rfold f l' b'
  end.

(** [enumerate(l)] *)
Definition enumerate {A} (l : list A) : list (nat * A) :=
  zip (seq 0 (length l)) l.

(** A value used as a condition: [None] and the empty list are false. *)
Definition truthy {A} (c : option (list A)) : bool :=
  match c with
  | Some (_ :: _) => true
  | _ => false
  end.

(** ** [heapq]

    A queue is a Python list handled only through [len], [heappush],
    [heappushpop] and [heappop].  What these return depends on the items
    the heap holds, not on how the list arranges them, so a heap is
    represented by its items in ascending order, [heap[0]] first.  Items
    are tuples and compare as tuples do: by score, then key, then start,
    then end. *)

(** Tuples compare component by component, the first difference
    deciding. *)
Definition lex (c1 c2 : comparison) : comparison :=
  match c1 with
  | Eq => c2
  | c => c
  end.

Definition pair_compare {A B} (ca : A -> A -> comparison)
    (cb : B -> B -> comparison) (x y : A * B) : comparison :=
  lex (ca x.1 y.1) (cb x.2 y.2).

Definition key_compare : Key -> Key -> comparison :=
  pair_compare (pair_compare Nat.compare Nat.compare) Nat.compare.

Definition item_compare : Item -> Item -> comparison :=
  pair_compare
    (pair_compare (pair_compare Z.compare key_compare) Z.compare)
    Z.compare.

(** [a < b] on items. *)
Definition item_lt (a b : Item) : bool :=
  match item_compare a b with
  | Lt => true
  | _ => false
  end.

Definition heap := list Item.

Fixpoint heap_insert (x : Item) (h : heap) : heap :=
  match h with
  | [] => [x]
  | y :: h' => if item_lt x y then x :: h else y :: heap_insert x h'
  end.

Definition heappush (h : heap) (item : Item) : heap := heap_insert item h.

(** [heappop]: the smallest item and the rest; [None] on an empty heap. *)
Definition heappop (h : heap) : option (Item * heap) :=
  match h with
  | [] => None
  | x :: h' => Some (x, h')
  end.

(** [heappushpop]: push [item], then pop the smallest; returns the popped
    item and the heap left. *)
Definition heappushpop (h : heap) (item : Item) : Item * heap :=
  match h with
  | m :: h' => if item_lt m item then (m, heap_insert item h') else (item, h)
  | [] => (item, [])
  end.

(** ** The stages of [process_batch] *)

(** [all_docids, all_doc_scores = zip( *ranked)]: the unpacking needs two
    tuples, and the zip of nothing yields none. *)
Definition unzip_ranked (ranked : list (list str * list Score))
  : result (list (list str) * list (list Score)) :=
  match ranked with
  | [] => Raise ValueError
  | _ => Ok (ranked.*1, ranked.*2)
  end.

(** [list({d for docids in all_docids for d in docids})] *)
Definition flatten_docids (all_docids : list (list str)) : list str :=
  elements (list_to_set (concat all_docids) : gset str).

(** [{did: didx for didx, did in enumerate(flat_docids)}] *)
Definition index_docids (flat_docids : list str) : gmap str nat :=
  fold_left (fun m p => <[p.2 := p.1]> m) (enumerate flat_docids) ∅.

(** One iteration of the loop over [doc_texts]: the splits of the document
    are appended to [flat_splits], and the range they occupy to
    [didx2sidx]. *)
Definition split_docs_step (d : DrQA)
    (st : list str * list (nat * nat)) (text : str)
  : list str * list (nat * nat) :=
  let splits := _split_doc (GROUP_LENGTH d) text in
  let start := length st.1 in
  let flat_splits := st.1 ++ splits in
  (flat_splits, st.2 ++ [(start, length flat_splits)]).

Definition split_docs (d : DrQA) (doc_texts : list str)
  : list str * list (nat * nat) :=
  fold_left (split_docs_step d) doc_texts ([], []).

(** The example of one (query, document, split), unless the question or the
    split has no token. *)
Definition make_example (d : DrQA) (id : Key) (q s : Tokens)
  : option Example :=
  match reader_model d with
  | Transformer =>
      if (0 <? len q) && (0 <? len s)
      then Some (mkExample id (words q) (words s) None)
      else None
  | WordTagging =>
      if (0 <? len (words q)) && (0 <? len (words s))
      then Some (mkExample id (words q) (words s)
                   (Some (mkTags (lemmas q) (lemmas s) (pos s) (entities s))))
      else None
  end.

Definition examples_of_doc (d : DrQA)
    (did2didx : gmap str nat) (didx2sidx : list (nat * nat))
    (q_tokens s_tokens : list Tokens) (qidx : nat) (rd : nat * str)
  : result (list Example) :=
  didx <~ or_raise KeyError (did2didx !! rd.2) ;;
  range <~ or_raise IndexError (didx2sidx !! didx) ;;
  exs <~ rmap (fun sidx =>
                 q <~ or_raise IndexError (q_tokens !! qidx) ;;
                 s <~ or_raise IndexError (s_tokens !! sidx) ;;
                 Ok (make_example d (qidx, rd.1, sidx) q s))
              (seq range.1 (range.2 - range.1)) ;;
  Ok (omap id exs).

Definition examples_of_query (d : DrQA) (all_docids : list (list str))
    (did2didx : gmap str nat) (didx2sidx : list (nat * nat))
    (q_tokens s_tokens : list Tokens) (qidx : nat)
  : result (list Example) :=
  docids <~ or_raise IndexError (all_docids !! qidx) ;;
  exs <~ rmap (examples_of_doc d did2didx didx2sidx q_tokens s_tokens qidx)
              (enumerate docids) ;;
  Ok (concat exs).

(** The three nested loops that group the tokens into examples. *)
Definition build_examples (d : DrQA) (queries : list str)
    (all_docids : list (list str))
    (did2didx : gmap str nat) (didx2sidx : list (nat * nat))
    (q_tokens s_tokens : list Tokens)
  : result (list Example) :=
  exs <~ rmap (examples_of_query d all_docids did2didx didx2sidx
                 q_tokens s_tokens)
              (seq 0 (length queries)) ;;
  Ok (concat exs).

(** Modelled from the spec: the sampler and the data loader of
    [drqa/reader] are not among the sources.  The examples are sorted by
    passage length with a stable sort and cut into consecutive batches of
    [batch_size] rows, the last one possibly shorter; the batches come in
    that order, unshuffled. *)
Fixpoint insert_by_length (ex : Example) (l : list Example) : list Example :=
  match l with
  | [] => [ex]
  | y :: l' =>
      if (length (document ex) <=? length (document y))%nat
      then ex :: l
      else y :: insert_by_length ex l'
  end.

Definition sort_by_length (l : list Example) : list Example :=
  foldr insert_by_length [] l.

Fixpoint chunks_fuel {A} (fuel n : nat) (l : list A) : list (list A) :=
  match fuel with
  | O => []
  | S fuel' =>
      match l with
      | [] => []
      | _ => take n l :: chunks_fuel fuel' n (drop n l)
      end
  end.

Definition chunks {A} (n : nat) (l : list A) : list (list A) :=
  chunks_fuel (length l) n l.

(** [DrQA._get_loader]: a batch is the list of its rows; its last component
    [batch[-1]] is the list of their ids and [batch[0].size(0)] their
    number. *)
Definition _get_loader (d : DrQA) (data : list Example)
  : list (list Example) :=
  chunks (Pos.to_nat (batch_size d)) (sort_by_length data).

(** The candidate restrictions of a batch, one per row id. *)
Definition make_batch_cands (candidates : option (list (option (list str))))
    (s_tokens : list Tokens) (ex_ids : list Key) : result (list BatchCand) :=
  rmap (fun id : Key =>
          input <~ or_raise IndexError (s_tokens !! id.2) ;;
          cands <~ (if truthy candidates
                    then or_raise IndexError (default [] candidates !! id.1.1)
                    else Ok None) ;;
          Ok (mkBatchCand input cands))
       ex_ids.

(** One iteration of the loop over the loader: the batch is given to the
    reader, and the handle is kept with the row ids and the row count. *)
Definition read_batch (d : DrQA)
    (candidates : option (list (option (list str))))
    (s_tokens : list Tokens) (batch : list Example)
  : M (ReaderResult * list Key * nat) :=
  let ex_ids := ex_id <$> batch in
  handle <-
    (if truthy candidates || fixed_candidates d then
       batch_cands <- lift (make_batch_cands candidates s_tokens ex_ids) ;;
       reader_predict d batch (Some batch_cands)
     else reader_predict d batch None) ;;
  ret (handle, ex_ids, length batch).

(** The body of the aggregation loop for a queue: push while the queue is
    below [top_n], push-then-pop afterwards. *)
Definition offer (top_n : Z) (queue : heap) (item : Item) : heap :=
  if len queue <? top_n then heappush queue item
  else (heappushpop queue item).2.

(** Row [i] of a handle: the top prediction of the split, if the reader
    scored any. *)
Definition row_item (res : ReaderResult) (ex_ids : list Key) (i : nat)
  : result (option Item) :=
  score_i <~ or_raise IndexError (r_score res !! i) ;;
  match score_i with
  | [] => Ok None
  | score0 :: _ =>
      id <~ or_raise IndexError (ex_ids !! i) ;;
      s_i <~ or_raise IndexError (r_s res !! i) ;;
      s0 <~ or_raise IndexError (head s_i) ;;
      e_i <~ or_raise IndexError (r_e res !! i) ;;
      e0 <~ or_raise IndexError (head e_i) ;;
      Ok (Some (score0, id, s0, e0))
  end.

(** The item of row [i] goes to the queue of its question. *)
Definition aggregate_row (top_n : Z) (res : ReaderResult)
    (ex_ids : list Key) (queues : list heap) (i : nat)
  : result (list heap) :=
  it <~ row_item res ex_ids i ;;
  match it with
  | None => Ok queues
  | Some item =>
      let qidx := (item_key item).1.1 in
      queue <~ or_raise IndexError (queues !! qidx) ;;
      Ok (<[qidx := offer top_n queue item]> queues)
  end.

Definition aggregate_handle (top_n : Z) (queues : list heap)
    (h : ReaderResult * list Key * nat) : result (list heap) :=
  rfold (aggregate_row top_n h.1.1 h.1.2) (seq 0 h.2) queues.

(** The priority queues after all the handles, starting from one empty
    queue per query. *)
Definition aggregate (top_n : Z) (n_queries : nat)
    (result_handles : list (ReaderResult * list Key * nat))
  : result (list heap) :=
  rfold (aggregate_handle top_n) result_handles (replicate n_queries []).

(** [while len(queue) > 0: heappop(queue)]: the items in the order they are
    popped. *)
Fixpoint drain_fuel (fuel : nat) (queue : heap) : list Item :=
  match fuel with
  | O => []
  | S fuel' =>
      match heappop queue with
      | None => []
      | Some (it, queue') => it :: drain_fuel fuel' queue'
      end
  end.

Definition drain (queue : heap) : list Item := drain_fuel (length queue) queue.

(** [sep_offset]: the question and two special positions come before the
    passage in the joint sequence. *)
Definition sep_offset (q : Tokens) : Z := len q + 2.

(** [max(0, i - sep_offset)] *)
Definition local_index (q : Tokens) (i : Z) : Z := Z.max 0 (i - sep_offset q).

(** The prediction made from one popped item. *)
Definition make_prediction (d : DrQA) (return_context : bool)
    (all_docids : list (list str)) (all_doc_scores : list (list Score))
    (q_tokens s_tokens : list Tokens) (it : Item) : result Prediction :=
  let '(score, (qidx, rel_didx, sidx), s, e) := it in
  match reader_model d with
  | WordTagging =>
      docids <~ or_raise IndexError (all_docids !! qidx) ;;
      did <~ or_raise IndexError (docids !! rel_didx) ;;
      toks <~ or_raise IndexError (s_tokens !! sidx) ;;
      let sp := untokenize (slice toks s (e + 1)) in
      dscores <~ or_raise IndexError (all_doc_scores !! qidx) ;;
      dscore <~ or_raise IndexError (dscores !! rel_didx) ;;
      if return_context then
        so <~ or_raise IndexError (py_index (offsets toks) s) ;;
        eo <~ or_raise IndexError (py_index (offsets toks) e) ;;
        Ok (mkPrediction did sp dscore score
              (Some (mkContext (untokenize toks) so.1 eo.2)))
      else Ok (mkPrediction did sp dscore score None)
  | Transformer =>
      q <~ or_raise IndexError (q_tokens !! qidx) ;;
      let s := local_index q s in
      let e := local_index q e in
      toks <~ or_raise IndexError (s_tokens !! sidx) ;;
      let sp := join [SP] (py_slice (words toks) s (e + 1)) in
      docids <~ or_raise IndexError (all_docids !! qidx) ;;
      did <~ or_raise IndexError (docids !! rel_didx) ;;
      dscores <~ or_raise IndexError (all_doc_scores !! qidx) ;;
      dscore <~ or_raise IndexError (dscores !! rel_didx) ;;
      if return_context then
        let all_tokens := words toks in
        let start_offset := len (join [SP] (py_prefix all_tokens s)) in
        let end_offset := len (join [SP] (py_prefix all_tokens (e + 1))) in
        Ok (mkPrediction did sp dscore score
              (Some (mkContext (join [SP] all_tokens)
                       start_offset end_offset)))
      else Ok (mkPrediction did sp dscore score None)
  end.

(** The predictions of one queue: popped smallest first, then reversed. *)
Definition arrange_queue (d : DrQA) (return_context : bool)
    (all_docids : list (list str)) (all_doc_scores : list (list Score))
    (q_tokens s_tokens : list Tokens) (queue : heap)
  : result (list Prediction) :=
  predictions <~ rmap (make_prediction d return_context all_docids
                         all_doc_scores q_tokens s_tokens)
                      (drain queue) ;;
  Ok (rev predictions).

(** ** The entry points *)

(** The local variables of [process_batch] when the final loop starts. *)
Record Locals := mkLocals {
  all_docids : list (list str);
  all_doc_scores : list (list Score);
  flat_docids : list str;
  did2didx : gmap str nat;
  doc_texts : list str;
  flat_splits : list str;
  didx2sidx : list (nat * nat);
  q_tokens : list Tokens;
  s_tokens : list Tokens;
  examples : list Example;
  result_handles : list (ReaderResult * list Key * nat);
  queues : list heap
}.

(** [DrQA.process_batch], up to the priority queues. *)
Definition collect (d : DrQA) (queries : list str)
    (candidates : option (list (option (list str))))
    (top_n n_docs : Z) : M Locals :=
  ranked <-
    (match queries with
     | [q] => r <- ranker_closest_docs d q n_docs ;; ret [r]
     | _ => ranker_batch_closest_docs d queries n_docs
     end) ;;
  unzipped <- lift (unzip_ranked ranked) ;;
  let all_docids := unzipped.1 in
  let all_doc_scores := unzipped.2 in
  let flat_docids := flatten_docids all_docids in
  let did2didx := index_docids flat_docids in
  doc_texts <- pool_map (fetch_text d) flat_docids ;;
  let flat_splits := (split_docs d doc_texts).1 in
  let didx2sidx := (split_docs d doc_texts).2 in
  q_tokens <- pool_map (tokenize_text d) queries ;;
  s_tokens <- pool_map (tokenize_text d) flat_splits ;;
  examples <- lift (build_examples d queries all_docids did2didx didx2sidx
                      q_tokens s_tokens) ;;
  result_handles <- mapM (read_batch d candidates s_tokens)
                      (_get_loader d examples) ;;
  queues <- lift (aggregate top_n (length queries) result_handles) ;;
  ret (mkLocals all_docids all_doc_scores flat_docids did2didx doc_texts
         flat_splits didx2sidx q_tokens s_tokens examples result_handles
         queues).

(** [DrQA.process_batch]: the final loop arranges the predictions of every
    queue. *)
Definition process_batch (d : DrQA) (queries : list str)
    (candidates : option (list (option (list str))))
    (top_n n_docs : Z) (return_context : bool)
  : M (list (list Prediction)) :=
  c <- collect d queries candidates top_n n_docs ;;
  lift (rmap (arrange_queue d return_context (all_docids c)
                (all_doc_scores c) (q_tokens c) (s_tokens c))
             (queues c)).

(** [DrQA.process]: a batch of one query. *)
Definition process (d : DrQA) (query : str) (candidates : option (list str))
    (top_n n_docs : Z) (return_context : bool) : M (list Prediction) :=
  predictions <-
    process_batch d [query]
      (if truthy candidates then Some [candidates] else None)
      top_n n_docs return_context ;;
  lift (or_raise IndexError (predictions !! 0%nat)).

(** ** Vocabulary of the statements *)

(** [a <= b] on items: not [b < a]. *)
Definition item_le (a b : Item) : Prop := item_lt b a = false.

(** [held] is a choice of the [n] greatest of [items] (all of them when
    there are fewer): it is in ascending order, it has the size, and with
    the items left out it makes up [items], none of those left out being
    greater than one that is held. *)
Definition top_of (n : nat) (items held : list Item) : Prop :=
  StronglySorted item_le held /\
  length held = Nat.min n (length items) /\
  exists dropped,
    Permutation items (held ++ dropped) /\
    forall a b, a ∈ held -> b ∈ dropped -> item_le b a.

(** The items of question [q] among [items], in order. *)
Definition query_items (q : nat) (items : list Item) : list Item :=
  filter (fun it => (item_key it).1.1 = q) items.

(** The queues of [n] questions after [items] were offered in turn. *)
Definition queues_of (top_n : Z) (n : nat) (items : list Item) : list heap :=
  (fun q => fold_left (offer top_n) (query_items q items) []) <$> seq 0 n.

(** The items a handle offers, row after row. *)
Definition handle_items (h : ReaderResult * list Key * nat)
  : result (list Item) :=
  its <~ rmap (row_item h.1.1 h.1.2) (seq 0 h.2) ;; Ok (omap id its).

(** The items all the handles offer, in the order of the loop. *)
Definition offered (handles : list (ReaderResult * list Key * nat))
  : result (list Item) :=
  its <~ rmap handle_items handles ;; Ok (concat its).

(** The calls of a trace, by collaborator. *)
Definition fetch_calls (t : list Event) : list str :=
  omap (fun ev => match ev with EvFetchText did => Some did | _ => None end) t.

Definition tokenize_calls (t : list Event) : list str :=
  omap (fun ev => match ev with EvTokenizeText x => Some x | _ => None end) t.

Definition is_predict (ev : Event) : Prop :=
  match ev with
  | EvPredict _ _ => True
  | _ => False
  end.

(** The ranker call that opens a batch. *)
Definition rank_event (queries : list str) (n_docs : Z) : Event :=
  match queries with
  | [q] => EvClosestDocs q n_docs
  | _ => EvBatchClosestDocs queries n_docs
  end.

(** The rankings of a batch. *)
Definition ranked_of (d : DrQA) (queries : list str) (n_docs : Z)
  : list (list str * list Score) :=
  (fun q => closest_docs d q n_docs) <$> queries.

(** Range [r] owns the global passage index [i]. *)
Definition owns (r : nat * nat) (i : nat) : Prop := (r.1 <= i < r.2)%nat.

(** The ranges follow one another from [start] to [stop]. *)
Fixpoint consecutive (start : nat) (ranges : list (nat * nat)) (stop : nat)
  : Prop :=
  match ranges with
  | [] => start = stop
  | r :: ranges' =>
      r.1 = start /\ (r.1 <= r.2)%nat /\ consecutive r.2 ranges' stop
  end.

(** The contract of the reader: one row per example of the batch; a row
    with a score has a start and an end, which in the word-tagging variant
    index the tokens of the row's passage. *)
Definition row_ok (d : DrQA) (res : ReaderResult) (i : nat) (ex : Example)
  : Prop :=
  exists score_i,
    r_score res !! i = Some score_i /\
    (score_i <> [] ->
     exists s0 s_i e0 e_i,
       r_s res !! i = Some (s0 :: s_i) /\
       r_e res !! i = Some (e0 :: e_i) /\
       (reader_model d = WordTagging ->
        0 <= s0 < len (document ex) /\ 0 <= e0 < len (document ex))).

Definition reader_contract (d : DrQA) : Prop :=
  forall batch cands i ex,
    batch !! i = Some ex -> row_ok d (predict d batch cands) i ex.

(** The contract of the ranker: as many scores as identifiers. *)
Definition ranker_contract (d : DrQA) : Prop :=
  forall q k, length (closest_docs d q k).1 = length (closest_docs d q k).2.

(** Candidate lists, when given, cover the queries. *)
Definition candidates_ok (queries : list str)
    (candidates : option (list (option (list str)))) : Prop :=
  truthy candidates = true ->
  (length queries <= length (default [] candidates))%nat.

(** The paragraphs of a text as the specification words them: the text is
    cut at its blank lines, the pieces are trimmed, and the empty ones are
    dropped. *)
Fixpoint split_lines (doc : str) (acc : str) : list str :=
  match doc with
  | [] => [rev acc]
  | c :: doc' =>
      if (c =? NL)%N then rev acc :: split_lines doc' []
      else split_lines doc' (c :: acc)
  end.

Fixpoint group_lines (lines : list str) (cur : list str) : list str :=
  match lines with
  | [] => [join [NL] (rev cur)]
  | l :: lines' =>
      if decide (strip l = [])
      then join [NL] (rev cur) :: group_lines lines' []
      else group_lines lines' (l :: cur)
  end.

Definition spec_paragraphs (doc : str) : list str :=
  filter (fun p => p ≠ []) (strip <$> group_lines (split_lines doc []) []).

(** The local variables of [process_batch] before the reader runs, as
    functions of the inputs. *)
Definition docids_of (d : DrQA) (queries : list str) (n_docs : Z)
  : list (list str) :=
  (ranked_of d queries n_docs).*1.

Definition doc_scores_of (d : DrQA) (queries : list str) (n_docs : Z)
  : list (list Score) :=
  (ranked_of d queries n_docs).*2.

Definition flat_docids_of (d : DrQA) (queries : list str) (n_docs : Z)
  : list str :=
  flatten_docids (docids_of d queries n_docs).

Definition doc_texts_of (d : DrQA) (queries : list str) (n_docs : Z)
  : list str :=
  get_doc_text d <$> flat_docids_of d queries n_docs.

Definition flat_splits_of (d : DrQA) (queries : list str) (n_docs : Z)
  : list str :=
  (split_docs d (doc_texts_of d queries n_docs)).1.

Definition didx2sidx_of (d : DrQA) (queries : list str) (n_docs : Z)
  : list (nat * nat) :=
  (split_docs d (doc_texts_of d queries n_docs)).2.

Definition q_tokens_of (d : DrQA) (queries : list str) : list Tokens :=
  tokenize d <$> queries.

Definition s_tokens_of (d : DrQA) (queries : list str) (n_docs : Z)
  : list Tokens :=
  tokenize d <$> flat_splits_of d queries n_docs.

Definition examples_of (d : DrQA) (queries : list str) (n_docs : Z)
  : result (list Example) :=
  build_examples d queries (docids_of d queries n_docs)
    (index_docids (flat_docids_of d queries n_docs))
    (didx2sidx_of d queries n_docs)
    (q_tokens_of d queries) (s_tokens_of d queries n_docs).

(** The calls made before the reader runs. *)
Definition front_trace (d : DrQA) (queries : list str) (n_docs : Z)
  : list Event :=
  rank_event queries n_docs
  :: (EvFetchText <$> flat_docids_of d queries n_docs)
  ++ (EvTokenizeText <$> queries)
  ++ (EvTokenizeText <$> flat_splits_of d queries n_docs).

(** The candidate restrictions handed to the reader with a batch. *)
Definition batch_cands_of (d : DrQA)
    (candidates : option (list (option (list str))))
    (s_tokens : list Tokens) (batch : list Example)
  : result (option (list BatchCand)) :=
  if truthy candidates || fixed_candidates d then
    cs <~ make_batch_cands candidates s_tokens (ex_id <$> batch) ;;
    Ok (Some cs)
  else Ok None.

(** The handle of a batch read with the restrictions [cands]. *)
Definition handle_of (d : DrQA) (batch : list Example)
    (cands : option (list BatchCand)) : ReaderResult * list Key * nat :=
  (predict d batch cands, ex_id <$> batch, length batch).

(** The part of [collect] that follows the tokenizers. *)
Definition collect_back (d : DrQA) (queries : list str)
    (candidates : option (list (option (list str))))
    (top_n n_docs : Z) : M Locals :=
  examples <- lift (examples_of d queries n_docs) ;;
  result_handles <- mapM (read_batch d candidates (s_tokens_of d queries n_docs))
                      (_get_loader d examples) ;;
  queues <- lift (aggregate top_n (length queries) result_handles) ;;
  ret (mkLocals (docids_of d queries n_docs) (doc_scores_of d queries n_docs)
         (flat_docids_of d queries n_docs)
         (index_docids (flat_docids_of d queries n_docs))
         (doc_texts_of d queries n_docs) (flat_splits_of d queries n_docs)
         (didx2sidx_of d queries n_docs) (q_tokens_of d queries)
         (s_tokens_of d queries n_docs) examples result_handles queues).

(** What the example builder guarantees of an example: its key points at
    the tokens it was made from, and at a ranked document of its query. *)
Definition example_ok (all_docids : list (list str))
    (q_tokens s_tokens : list Tokens) (ex : Example) : Prop :=
  exists q toks docids,
    q_tokens !! (ex_id ex).1.1 = Some q /\
    s_tokens !! (ex_id ex).2 = Some toks /\
    all_docids !! (ex_id ex).1.1 = Some docids /\
    ((ex_id ex).1.2 < length docids)%nat /\
    question ex = words q /\ document ex = words toks.

(** Whether the question of every item has a queue. *)
Definition in_range (n : nat) (items : list Item) : bool :=
  forallb (fun it => (item_key it).1.1 <? n)%nat items.

(** Where an offered item comes from: a row of a batch, read with the
    restrictions of that batch. *)
Definition item_origin (d : DrQA)
    (candidates : option (list (option (list str))))
    (s_tokens : list Tokens) (batches : list (list Example)) (it : Item)
  : Prop :=
  exists b c i ex,
    b ∈ batches /\ batch_cands_of d candidates s_tokens b = Ok c /\
    b !! i = Some ex /\ ex_id ex = item_key it /\
    row_item (predict d b c) (ex_id <$> b) i = Ok (Some it).

(** The locals at the end of [collect], from what the reader stage
    produced. *)
Definition locals_of (d : DrQA) (queries : list str) (top_n n_docs : Z)
    (exs : list Example) (hs : list (ReaderResult * list Key * nat))
    (items : list Item) : Locals :=
  mkLocals (docids_of d queries n_docs) (doc_scores_of d queries n_docs)
    (flat_docids_of d queries n_docs)
    (index_docids (flat_docids_of d queries n_docs))
    (doc_texts_of d queries n_docs) (flat_splits_of d queries n_docs)
    (didx2sidx_of d queries n_docs) (q_tokens_of d queries)
    (s_tokens_of d queries n_docs) exs hs
    (queues_of top_n (length queries) items).

(** What a run of [collect] that returns went through: the examples were
    built, every batch got its restrictions [cs] and its handle, and every
    item offered found the queue of its question. *)
Definition collected (d : DrQA) (queries : list str)
    (candidates : option (list (option (list str))))
    (top_n n_docs : Z) (t : list Event) (c : Locals) : Prop :=
  exists exs cs items,
    examples_of d queries n_docs = Ok exs /\
    rmap (batch_cands_of d candidates (s_tokens_of d queries n_docs))
         (_get_loader d exs) = Ok cs /\
    offered (zip_with (handle_of d) (_get_loader d exs) cs) = Ok items /\
    in_range (length queries) items = true /\
    t = front_trace d queries n_docs
        ++ zip_with EvPredict (_get_loader d exs) cs /\
    c = locals_of d queries top_n n_docs exs
          (zip_with (handle_of d) (_get_loader d exs) cs) items.

(** The vocabulary of the further properties. *)

(** The number of characters of a group of paragraphs, as [curr_len]
    counts them: the joining spaces are not counted. *)
Definition total (g : list str) : Z := foldr (fun p n => len p + n) 0 g.

(** A group of paragraphs that [_split_doc] may yield as one chunk: it is
    not empty, none of its paragraphs is, and unless it is a single
    paragraph it stays within the threshold. *)
Definition group_ok (G : group_length) (g : list str) : Prop :=
  g <> [] /\ Forall (fun p => p <> []) g /\
  (length g = 1%nat \/ exceeds (total g) G = false).

(** A group is closed only when the next paragraph would take it over the
    threshold. *)
Definition greedy (G : group_length) (groups : list (list str)) : Prop :=
  forall i g g',
    groups !! i = Some g -> groups !! S i = Some g' ->
    exceeds (total g + len (hd [] g')) G = true.

(** The loop invariant of [_split_doc] after the paragraphs [ps]: the
    chunks yielded are the closed groups [gs], and the buffer is the group
    being filled. *)
Definition split_inv (G : group_length) (st : split_state) (ps : list str)
  : Prop :=
  exists gs,
    yielded st = join [SP] <$> gs /\
    concat gs ++ curr st = ps /\
    curr_len st = total (curr st) /\
    Forall (group_ok G) gs /\
    Forall (fun p => p <> []) (curr st) /\
    ((length (curr st) <= 1)%nat \/ exceeds (total (curr st)) G = false) /\
    (curr st = [] -> gs = []) /\
    greedy G (gs ++ [curr st]).

(** A string without leading or trailing whitespace. *)
Definition stripped (s : str) : Prop := lstrip s = s /\ lstrip (rev s) = rev s.

(** The characters of a text that are not whitespace, in order. *)
Definition nonspace (s : str) : str := filter (fun c => isspace c = false) s.

(** The example of query [q], of its document of rank [r] and of the
    passage [s] of the batch: the document has a position [didx] in the
    flat list, the range of that position owns [s], and the example is made
    of the tokens of the query and of the passage, which is the chunk
    [s - range.1] of the document. *)
Definition example_at (d : DrQA) (queries : list str) (n_docs : Z)
    (q r s : nat) (ex : Example) : Prop :=
  exists query did didx range passage,
    queries !! q = Some query /\
    (closest_docs d query n_docs).1 !! r = Some did /\
    flat_docids_of d queries n_docs !! didx = Some did /\
    didx2sidx_of d queries n_docs !! didx = Some range /\
    owns range s /\
    flat_splits_of d queries n_docs !! s = Some passage /\
    _split_doc (GROUP_LENGTH d) (get_doc_text d did) !! (s - range.1)%nat
    = Some passage /\
    make_example d (q, r, s) (tokenize d query) (tokenize d passage) = Some ex.


(** What the reader is given with a batch: no restriction without
    candidates and without fixed candidates; otherwise one restriction per
    row, made of the tokens of the row's passage and of the candidates of
    the row's question. *)
Definition cands_ok (d : DrQA)
    (candidates : option (list (option (list str))))
    (s_tokens : list Tokens) (batch : list Example)
    (c : option (list BatchCand)) : Prop :=
  if truthy candidates || fixed_candidates d then
    exists bcs,
      c = Some bcs /\
      Forall2 (fun ex bc =>
                 s_tokens !! (ex_id ex).2 = Some (bc_input bc) /\
                 if truthy candidates
                 then default [] candidates !! (ex_id ex).1.1
                      = Some (bc_cands bc)
                 else bc_cands bc = None) batch bcs
  else c = None.

(** ** A small pipeline, for the examples *)

(** A tokenizer that cuts at spaces. *)
Fixpoint split_on (c : char) (s : str) (acc : str) : list str :=
  match s with
  | [] => [rev acc]
  | x :: s' =>
      if (x =? c)%N then rev acc :: split_on c s' []
      else split_on c s' (x :: acc)
  end.

Fixpoint tokens_at (off : Z) (ws : list str) : Tokens :=
  match ws with
  | [] => []
  | w :: ws' =>
      mkToken w (w ++ [SP]) (off, off + len w) [] [] []
      :: tokens_at (off + len w + 1) ws'
  end.

Definition demo_tokenize (text : str) : Tokens :=
  tokens_at 0 (filter (fun w => w ≠ []) (split_on SP text [])).

Definition demo_question : str := of_string "Who wrote Hamlet?".

Definition demo_docs (did : str) : str :=
  if decide (did = of_string "d1")
  then of_string "William Shakespeare wrote Hamlet." ++ [NL; NL]
       ++ of_string "It was first performed around 1600."
  else of_string "a b" ++ [NL] ++ of_string "c".

(** A ranker that knows two documents for the first question and one for
    any other question, and returns the [k] best of them. *)
Definition demo_rank (q : str) (k : Z) : list str * list Score :=
  let n := Z.to_nat k in
  if decide (q = demo_question)
  then (take n [of_string "d1"; of_string "d2"], take n [9; 8])
  else (take n [of_string "d2"], take n [7]).

(** A reader that scores a passage by its length and answers with its
    first token; it finds nothing for the questions [mute] selects. *)
Definition demo_row {A} (mute : nat -> bool) (x : A) (ex : Example) : list A :=
  if mute (ex_id ex).1.1 then []
  else match document ex with
       | [] => []
       | _ => [x]
       end.

Definition demo_predict (mute : nat -> bool) (batch : list Example)
    (cands : option (list BatchCand)) : ReaderResult :=
  mkReaderResult (demo_row mute 0 <$> batch) (demo_row mute 0 <$> batch)
    ((fun ex => demo_row mute (len (document ex)) ex) <$> batch).

Definition demo (model : ReaderModel) (mute : nat -> bool) : DrQA :=
  mkDrQA model 2 false (Chars 0) demo_rank demo_docs demo_tokenize
    (demo_predict mute).

Definition demo_queries : list str := [demo_question; of_string "x"].

(** * Properties *)

(** ** The paragraph splitter *)

Lemma len_nil_iff {A} (l : list A) : (len l =? 0) = true <-> l = [].
Proof.
  unfold len. rewrite Z.eqb_eq. destruct l; simpl; split; intros; try done; lia.
Qed.

Lemma join_singleton (sep x : str) : join sep [x] = x.
Proof. reflexivity. Qed.

(** With a threshold of zero the buffer never holds more than one
    paragraph: it is flushed as soon as the next one arrives. *)
Lemma split_step_zero (st : split_state) (piece : str) :
  (length (curr st) <= 1)%nat -> 0 <= curr_len st ->
  let st' := split_step (Chars 0) st piece in
  (length (curr st') <= 1)%nat /\ 0 <= curr_len st' /\
  pending st' = pending st ++ filter (fun p => p ≠ []) [strip piece].
Proof.
  intros Hc Hl. unfold split_step.
  destruct (len (strip piece) =? 0) eqn:E.
  - apply len_nil_iff in E. rewrite E. simpl.
    rewrite filter_cons_False by (intros H; by apply H).
    rewrite filter_nil, app_nil_r. done.
  - assert (strip piece <> []) as Hne
        by (intros H; apply len_nil_iff in H; congruence).
    assert (0 < len (strip piece)) as Hpos.
    { unfold len. destruct (strip piece); [done | simpl; lia]. }
    rewrite filter_cons_True by done. rewrite filter_nil.
    destruct (curr st) as [|c [|c' cs]] eqn:Ecurr; simpl in Hc; [| |lia].
    + simpl. unfold pending. rewrite Ecurr. simpl.
      split; [lia|]. split; [lia|]. done.
    + replace (exceeds (curr_len st + len (strip piece)) (Chars 0)) with true
        by (symmetry; apply Z.ltb_lt; lia).
      simpl. unfold pending. rewrite Ecurr. simpl.
      split; [lia|]. split; [lia|]. done.
Qed.

Lemma split_fold_zero (pieces : list str) (st : split_state) :
  (length (curr st) <= 1)%nat -> 0 <= curr_len st ->
  pending (fold_left (split_step (Chars 0)) pieces st)
  = pending st ++ filter (fun p => p ≠ []) (strip <$> pieces).
Proof.
  revert st. induction pieces as [|p pieces IH]; intros st Hc Hl;
    cbn [fold_left].
  - by rewrite fmap_nil, filter_nil, app_nil_r.
  - destruct (split_step_zero st p Hc Hl) as (Hc' & Hl' & Hp).
    rewrite IH by done. rewrite Hp.
    rewrite <- app_assoc. f_equal. rewrite fmap_cons.
    symmetry. apply (filter_app _ [strip p] (strip <$> pieces)).
Qed.

Lemma split_doc_pending (G : group_length) (doc : str) :
  _split_doc G doc
  = pending (fold_left (split_step G) (regex_split_newlines doc)
               (SplitState [] 0 [])).
Proof.
  unfold _split_doc, pending.
  destruct (curr _) eqn:E; reflexivity.
Qed.

(** ** Span decoding in the transformer variant *)

Lemma local_index_nonneg (q : Tokens) (i : Z) : 0 <= local_index q i.
Proof. unfold local_index. lia. Qed.

(** ** Passage ranges *)

Lemma consecutive_snoc (a : nat) (ranges : list (nat * nat)) (b c : nat) :
  consecutive a ranges b -> (b <= c)%nat ->
  consecutive a (ranges ++ [(b, c)]) c.
Proof.
  revert a. induction ranges as [|r ranges IH]; intros a; simpl.
  - intros ->. done.
  - intros (? & ? & ?) ?. auto.
Qed.

Lemma consecutive_le (a : nat) (ranges : list (nat * nat)) (b : nat) :
  consecutive a ranges b -> (a <= b)%nat.
Proof.
  revert a. induction ranges as [|r ranges IH]; intros a; simpl.
  - lia.
  - intros (<- & ? & H). apply IH in H. lia.
Qed.

(** In consecutive ranges every index between the ends has one owner. *)
Lemma consecutive_owner (a : nat) (ranges : list (nat * nat)) (b i : nat) :
  consecutive a ranges b -> (a <= i < b)%nat ->
  exists didx r,
    ranges !! didx = Some r /\ owns r i /\
    forall didx' r', ranges !! didx' = Some r' -> owns r' i -> didx' = didx.
Proof.
  revert a. induction ranges as [|r ranges IH]; intros a; simpl.
  - lia.
  - intros (Ha & Hr & Hc) Hi.
    destruct (decide (i < r.2)%nat) as [Hlt|Hge].
    + exists 0%nat, r. split; [done|]. split; [unfold owns; lia|].
      intros [|didx'] r' Hl Ho; [done|]. simpl in Hl.
      exfalso. clear IH Hi Ha.
      revert didx' r' Hl Ho Hc Hlt. generalize (r.2). clear.
      induction ranges as [|r0 ranges IH]; intros n didx' r' Hl Ho Hc Hlt;
        [done|].
      destruct Hc as (? & ? & Hc). destruct didx' as [|didx']; simpl in Hl.
      * injection Hl as <-. unfold owns in Ho. lia.
      * eapply (IH (r0.2)); eauto. lia.
    + destruct (IH (r.2) Hc) as (didx & r1 & Hl & Ho & Hu); [lia|].
      exists (S didx), r1. split; [done|]. split; [done|].
      intros [|didx'] r' Hl' Ho'; simpl in Hl'.
      * injection Hl' as <-. unfold owns in Ho'. lia.
      * f_equal. eauto.
Qed.

Lemma split_docs_step_length (d : DrQA) st text :
  length (split_docs_step d st text).2 = S (length st.2).
Proof. unfold split_docs_step. simpl. rewrite length_app. simpl. lia. Qed.

(** The invariant of the loop over [doc_texts]. *)
Lemma split_docs_fold (d : DrQA) (texts : list str) st :
  consecutive 0 st.2 (length st.1) ->
  let st' := fold_left (split_docs_step d) texts st in
  consecutive 0 st'.2 (length st'.1) /\
  length st'.2 = (length st.2 + length texts)%nat /\
  st'.1 = st.1 ++ concat (_split_doc (GROUP_LENGTH d) <$> texts) /\
  (forall didx r, st.2 !! didx = Some r -> st'.2 !! didx = Some r) /\
  (forall i text r,
      texts !! i = Some text -> st'.2 !! (length st.2 + i)%nat = Some r ->
      take (r.2 - r.1) (drop r.1 st'.1) = _split_doc (GROUP_LENGTH d) text).
Proof.
  revert st. induction texts as [|text texts IH]; intros st Hc; cbn [fold_left].
  - simpl. rewrite app_nil_r. repeat split; try done; try lia.
  - set (st1 := split_docs_step d st text).
    assert (consecutive 0 st1.2 (length st1.1)) as Hc1.
    { unfold st1, split_docs_step. simpl.
      apply consecutive_snoc; [done|]. rewrite length_app. lia. }
    destruct (IH st1 Hc1) as (H1 & H2 & H3 & H4 & H5).
    assert (length st1.2 = S (length st.2)) as Hlen
        by apply split_docs_step_length.
    split; [done|]. split; [simpl; lia|]. split.
    { rewrite H3. unfold st1, split_docs_step. simpl.
      by rewrite <- app_assoc. }
    split.
    { intros didx r Hl. apply H4. unfold st1, split_docs_step. simpl.
      by apply lookup_app_l_Some. }
    intros [|i] text' r Ht Hl; simpl in Ht.
    + injection Ht as <-.
      assert (st1.2 !! length st.2 = Some (length st.1, length st1.1)) as Hl1.
      { unfold st1, split_docs_step. simpl.
        rewrite lookup_app_r by lia. by rewrite Nat.sub_diag. }
      apply H4 in Hl1. rewrite Nat.add_0_r in Hl. rewrite Hl in Hl1.
      injection Hl1 as ->. simpl. rewrite H3.
      unfold st1, split_docs_step. simpl.
      rewrite <- app_assoc, drop_app_length.
      rewrite length_app, Nat.add_comm, Nat.add_sub.
      by rewrite take_app_length.
    + apply (H5 i text' r Ht). rewrite Hlen.
      by replace (S (length st.2) + i)%nat with (length st.2 + S i)%nat by lia.
Qed.

Lemma split_docs_consecutive (d : DrQA) (doc_texts : list str) :
  length (split_docs d doc_texts).2 = length doc_texts /\
  consecutive 0 (split_docs d doc_texts).2 (length (split_docs d doc_texts).1).
Proof.
  destruct (split_docs_fold d doc_texts ([], [])) as (H1 & H2 & _); [done|].
  by split.
Qed.

(** ** The order on items *)

Section Lexicographic.
Context {A B : Type}.
Variable ca : A -> A -> comparison.
Variable cb : B -> B -> comparison.
Hypothesis ca_eq : forall x y, ca x y = Eq <-> x = y.
Hypothesis cb_eq : forall x y, cb x y = Eq <-> x = y.
Hypothesis ca_opp : forall x y, ca y x = CompOpp (ca x y).
Hypothesis cb_opp : forall x y, cb y x = CompOpp (cb x y).
Hypothesis ca_trans : forall x y z, ca x y = Lt -> ca y z = Lt -> ca x z = Lt.
Hypothesis cb_trans : forall x y z, cb x y = Lt -> cb y z = Lt -> cb x z = Lt.

Lemma pair_compare_eq (x y : A * B) :
  pair_compare ca cb x y = Eq <-> x = y.
Proof.
  unfold pair_compare, lex. destruct x as [a b], y as [a' b']; simpl.
  destruct (ca a a') eqn:E.
  - apply ca_eq in E as ->. rewrite cb_eq. split; congruence.
  - split; [done|]. intros [= -> ->].
    assert (ca a' a' = Eq) by by apply ca_eq. congruence.
  - split; [done|]. intros [= -> ->].
    assert (ca a' a' = Eq) by by apply ca_eq. congruence.
Qed.

Lemma pair_compare_opp (x y : A * B) :
  pair_compare ca cb y x = CompOpp (pair_compare ca cb x y).
Proof.
  unfold pair_compare, lex. rewrite (ca_opp x.1 y.1), (cb_opp x.2 y.2).
  by destruct (ca x.1 y.1).
Qed.

Lemma pair_compare_trans (x y z : A * B) :
  pair_compare ca cb x y = Lt -> pair_compare ca cb y z = Lt ->
  pair_compare ca cb x z = Lt.
Proof.
  unfold pair_compare, lex. intros H1 H2.
  destruct (ca x.1 y.1) eqn:E1; [| |done];
    (destruct (ca y.1 z.1) eqn:E2; [| |done]).
  - apply ca_eq in E1, E2. rewrite E1, E2.
    assert (ca z.1 z.1 = Eq) as -> by by apply ca_eq. eauto.
  - apply ca_eq in E1. by rewrite E1, E2.
  - apply ca_eq in E2. by rewrite <- E2, E1.
  - by rewrite (ca_trans _ _ _ E1 E2).
Qed.
End Lexicographic.

Lemma Z_compare_opp (x y : Z) : (y ?= x) = CompOpp (x ?= y).
Proof. apply Z.compare_antisym. Qed.

Lemma Z_compare_trans (x y z : Z) :
  (x ?= y) = Lt -> (y ?= z) = Lt -> (x ?= z) = Lt.
Proof. rewrite !Z.compare_lt_iff. lia. Qed.

Lemma nat_compare_opp (x y : nat) : (y ?= x)%nat = CompOpp (x ?= y)%nat.
Proof. apply Nat.compare_antisym. Qed.

Lemma nat_compare_trans (x y z : nat) :
  (x ?= y)%nat = Lt -> (y ?= z)%nat = Lt -> (x ?= z)%nat = Lt.
Proof. rewrite !Nat.compare_lt_iff. lia. Qed.

Lemma key_compare_eq (a b : Key) : key_compare a b = Eq <-> a = b.
Proof.
  apply pair_compare_eq; [|apply Nat.compare_eq_iff].
  apply pair_compare_eq; apply Nat.compare_eq_iff.
Qed.

Lemma key_compare_opp (a b : Key) : key_compare b a = CompOpp (key_compare a b).
Proof.
  apply pair_compare_opp; [|apply nat_compare_opp].
  apply pair_compare_opp; apply nat_compare_opp.
Qed.

Lemma key_compare_trans (a b c : Key) :
  key_compare a b = Lt -> key_compare b c = Lt -> key_compare a c = Lt.
Proof.
  apply pair_compare_trans.
  - apply pair_compare_eq; apply Nat.compare_eq_iff.
  - apply pair_compare_trans;
      [apply Nat.compare_eq_iff|apply nat_compare_trans..].
  - apply nat_compare_trans.
Qed.

Lemma score_key_compare_eq (a b : Score * Key) :
  pair_compare Z.compare key_compare a b = Eq <-> a = b.
Proof. apply pair_compare_eq; [apply Z.compare_eq_iff|apply key_compare_eq]. Qed.

Lemma score_key_compare_trans (a b c : Score * Key) :
  pair_compare Z.compare key_compare a b = Lt ->
  pair_compare Z.compare key_compare b c = Lt ->
  pair_compare Z.compare key_compare a c = Lt.
Proof.
  apply pair_compare_trans;
    [apply Z.compare_eq_iff|apply Z_compare_trans|apply key_compare_trans].
Qed.

Lemma item_compare_eq (a b : Item) : item_compare a b = Eq <-> a = b.
Proof.
  apply pair_compare_eq; [|apply Z.compare_eq_iff].
  apply pair_compare_eq; [|apply Z.compare_eq_iff].
  apply score_key_compare_eq.
Qed.

Lemma item_compare_opp (a b : Item) :
  item_compare b a = CompOpp (item_compare a b).
Proof.
  apply pair_compare_opp; [|apply Z_compare_opp].
  apply pair_compare_opp; [|apply Z_compare_opp].
  apply pair_compare_opp; [apply Z_compare_opp|apply key_compare_opp].
Qed.

Lemma item_compare_trans (a b c : Item) :
  item_compare a b = Lt -> item_compare b c = Lt -> item_compare a c = Lt.
Proof.
  apply pair_compare_trans; [| |apply Z_compare_trans].
  - apply pair_compare_eq;
      [apply score_key_compare_eq|apply Z.compare_eq_iff].
  - apply pair_compare_trans;
      [apply score_key_compare_eq|apply score_key_compare_trans
      |apply Z_compare_trans].
Qed.

(** The order is strict, total and transitive; [item_le] is its reflexive
    closure. *)
Lemma item_lt_irrefl (a : Item) : item_lt a a = false.
Proof.
  unfold item_lt. by assert (item_compare a a = Eq) as -> by by apply item_compare_eq.
Qed.

Lemma item_lt_trans (a b c : Item) :
  item_lt a b = true -> item_lt b c = true -> item_lt a c = true.
Proof.
  unfold item_lt.
  destruct (item_compare a b) eqn:E1; try done.
  destruct (item_compare b c) eqn:E2; try done.
  by rewrite (item_compare_trans _ _ _ E1 E2).
Qed.

Lemma item_lt_asym (a b : Item) : item_lt a b = true -> item_lt b a = false.
Proof.
  unfold item_lt. rewrite (item_compare_opp a b).
  by destruct (item_compare a b).
Qed.

Lemma item_le_antisym (a b : Item) : item_le a b -> item_le b a -> a = b.
Proof.
  unfold item_le, item_lt. rewrite (item_compare_opp a b).
  destruct (item_compare a b) eqn:E; try done.
  by apply item_compare_eq in E.
Qed.

Lemma item_le_refl (a : Item) : item_le a a.
Proof. apply item_lt_irrefl. Qed.

Lemma item_lt_le (a b : Item) : item_lt a b = true -> item_le a b.
Proof. apply item_lt_asym. Qed.

Lemma item_le_total (a b : Item) : item_le a b \/ item_lt b a = true.
Proof. unfold item_le. destruct (item_lt b a); auto. Qed.

Lemma item_le_cases (a b : Item) : item_le a b -> a = b \/ item_lt a b = true.
Proof.
  unfold item_le, item_lt. rewrite (item_compare_opp a b).
  destruct (item_compare a b) eqn:E; try done; auto.
  left. by apply item_compare_eq.
Qed.

Lemma item_le_trans (a b c : Item) : item_le a b -> item_le b c -> item_le a c.
Proof.
  intros H1 H2. destruct (item_le_cases _ _ H1) as [->|H1']; [done|].
  destruct (item_le_cases _ _ H2) as [<-|H2']; [done|].
  apply item_lt_le. by eapply item_lt_trans.
Qed.

Lemma item_le_lt_trans (a b c : Item) :
  item_le a b -> item_lt b c = true -> item_lt a c = true.
Proof.
  intros H1 H2. destruct (item_lt a c) eqn:E; [done|].
  assert (item_le c b) as H3 by (eapply item_le_trans; [apply E|done]).
  apply item_lt_asym in H2 as H4. unfold item_le in H3. congruence.
Qed.

(** The score comes first in the comparison. *)
Lemma item_lt_score (a b : Item) :
  item_score a < item_score b -> item_lt a b = true.
Proof.
  destruct a as [[[sa ka] s1] e1], b as [[[sb kb] s2] e2].
  unfold item_lt, item_compare, pair_compare, item_score. simpl.
  intros H. apply Z.compare_lt_iff in H. by rewrite H.
Qed.

Lemma item_le_score (a b : Item) : item_le a b -> item_score a <= item_score b.
Proof.
  intros H. destruct (Z_lt_le_dec (item_score b) (item_score a)) as [Hlt|]; [|done].
  apply item_lt_score in Hlt. unfold item_le in H. congruence.
Qed.

(** ** The heap *)

Lemma heap_insert_perm (x : Item) (h : heap) : heap_insert x h ≡ₚ x :: h.
Proof.
  induction h as [|y h IH]; simpl; [done|].
  destruct (item_lt x y); [done|].
  rewrite IH. apply perm_swap.
Qed.

Lemma heap_insert_length (x : Item) (h : heap) :
  length (heap_insert x h) = S (length h).
Proof. by rewrite heap_insert_perm. Qed.

Lemma heap_insert_elem_of (x y : Item) (h : heap) :
  y ∈ heap_insert x h <-> y = x \/ y ∈ h.
Proof. rewrite heap_insert_perm. apply elem_of_cons. Qed.

Lemma heap_insert_sorted (x : Item) (h : heap) :
  StronglySorted item_le h -> StronglySorted item_le (heap_insert x h).
Proof.
  induction h as [|y h IH]; simpl; intros Hs.
  - repeat constructor.
  - apply StronglySorted_cons in Hs as [Hy Hs].
    destruct (item_lt x y) eqn:E.
    + apply StronglySorted_cons. split; [|by apply StronglySorted_cons].
      constructor; [by apply item_lt_le|].
      eapply Forall_impl; [exact Hy|]. intros z Hz.
      eapply item_le_trans; [|exact Hz]. by apply item_lt_le.
    + apply StronglySorted_cons. split; [|by apply IH].
      apply Forall_forall. intros z Hz.
      apply heap_insert_elem_of in Hz as [->|Hz]; [exact E|].
      rewrite Forall_forall in Hy. by apply Hy.
Qed.

(** Popping all of a heap gives its items, smallest first. *)
Lemma drain_fuel_all (fuel : nat) (queue : heap) :
  (length queue <= fuel)%nat -> drain_fuel fuel queue = queue.
Proof.
  revert queue. induction fuel as [|fuel IH]; intros [|x queue]; simpl;
    try done; try lia.
  intros H. f_equal. apply IH. lia.
Qed.

Lemma drain_all (queue : heap) : drain queue = queue.
Proof. by apply drain_fuel_all. Qed.

(** ** One offer *)

(** A queue that is not full takes the item. *)
Lemma offer_below (top_n : Z) (queue : heap) (x : Item) :
  len queue < top_n -> offer top_n queue x = heap_insert x queue.
Proof. unfold offer. intros H. apply Z.ltb_lt in H. by rewrite H. Qed.

(** A full queue gives up its smallest item for a greater one. *)
Lemma offer_replace (top_n : Z) (m : Item) (rest : heap) (x : Item) :
  top_n <= len (m :: rest) -> item_lt m x = true ->
  offer top_n (m :: rest) x = heap_insert x rest.
Proof.
  unfold offer. intros H E. apply Z.ltb_ge in H. rewrite H. simpl.
  by rewrite E.
Qed.

(** A full queue discards an item that is not greater than its smallest. *)
Lemma offer_discard (top_n : Z) (m : Item) (rest : heap) (x : Item) :
  top_n <= len (m :: rest) -> item_lt m x = false ->
  offer top_n (m :: rest) x = m :: rest.
Proof.
  unfold offer. intros H E. apply Z.ltb_ge in H. rewrite H. simpl.
  by rewrite E.
Qed.

Lemma offer_no_room (top_n : Z) (x : Item) :
  top_n <= 0 -> offer top_n [] x = [].
Proof.
  unfold offer. intros H. change (len (@nil Item)) with 0.
  apply Z.ltb_ge in H. by rewrite H.
Qed.

(** ** The queue holds the greatest items offered *)

Lemma top_of_nil (n : nat) : top_of n [] [].
Proof.
  split; [constructor|]. split; [by rewrite Nat.min_0_r|].
  exists []. split; [done|]. intros a b Ha. by apply elem_of_nil in Ha.
Qed.

Lemma top_of_offer (top_n : Z) (items held : list Item) (x : Item) :
  top_of (Z.to_nat top_n) items held ->
  top_of (Z.to_nat top_n) (items ++ [x]) (offer top_n held x).
Proof.
  intros (Hs & Hlen & dropped & Hp & Hord).
  assert (length items = (length held + length dropped)%nat) as Hcount
      by by rewrite Hp, length_app.
  destruct (Z_lt_le_dec (len held) top_n) as [Hlt|Hge].
  - (* room left: nothing was dropped so far *)
    rewrite offer_below by done. unfold len in Hlt.
    assert (dropped = []) as -> by (apply length_zero_iff_nil; lia).
    split; [by apply heap_insert_sorted|].
    split; [rewrite heap_insert_length, length_app; simpl; lia|].
    exists []. split.
    + rewrite heap_insert_perm, Hp. solve_Permutation.
    + intros a b _ Hb. by apply elem_of_nil in Hb.
  - unfold len in Hge.
    assert (length held = Z.to_nat top_n) as Hfull by lia.
    destruct held as [|m rest].
    + (* no room at all *)
      rewrite offer_no_room by (simpl in *; lia).
      split; [constructor|]. split; [simpl in *; lia|].
      exists (items ++ [x]). split; [done|].
      intros a b Ha. by apply elem_of_nil in Ha.
    + apply StronglySorted_cons in Hs as Hm. destruct Hm as [Hm Hrest].
      rewrite Forall_forall in Hm.
      destruct (item_lt m x) eqn:E.
      * (* the smallest item leaves *)
        rewrite offer_replace by (done || unfold len; lia).
        split; [by apply heap_insert_sorted|].
        split; [rewrite heap_insert_length, length_app; simpl in *; lia|].
        exists (m :: dropped). split.
        { rewrite heap_insert_perm, Hp. solve_Permutation. }
        intros a b Ha Hb.
        assert (item_le m a) as Hma.
        { apply heap_insert_elem_of in Ha as [->|Ha];
            [by apply item_lt_le|by apply Hm]. }
        apply elem_of_cons in Hb as [->|Hb]; [done|].
        eapply item_le_trans; [|exact Hma].
        apply Hord; [by left|done].
      * (* the item is discarded *)
        rewrite offer_discard by (done || unfold len; lia).
        split; [done|]. split; [rewrite length_app; simpl in *; lia|].
        exists (x :: dropped). split.
        { rewrite Hp. solve_Permutation. }
        intros a b Ha Hb.
        apply elem_of_cons in Hb as [->|Hb]; [|by apply Hord].
        apply elem_of_cons in Ha as [->|Ha]; [exact E|].
        eapply item_le_trans; [exact E|by apply Hm].
Qed.

Lemma top_of_fold (top_n : Z) (items : list Item) :
  top_of (Z.to_nat top_n) items (fold_left (offer top_n) items []).
Proof.
  induction items as [|x items IH] using rev_ind.
  - apply top_of_nil.
  - rewrite fold_left_app. simpl. by apply top_of_offer.
Qed.

(** The greatest items of a collection are determined by the collection:
    two sorted choices of the same size agree. *)
Lemma top_unique (k : nat) (h1 h2 d1 d2 : list Item) :
  length h1 = k -> length h2 = k ->
  StronglySorted item_le h1 -> StronglySorted item_le h2 ->
  h1 ++ d1 ≡ₚ h2 ++ d2 ->
  (forall a b, a ∈ h1 -> b ∈ d1 -> item_le b a) ->
  (forall a b, a ∈ h2 -> b ∈ d2 -> item_le b a) ->
  h1 = h2.
Proof.
  revert h1 h2 d1 d2.
  induction k as [|k IH]; intros h1 h2 d1 d2 L1 L2 S1 S2 Hp O1 O2.
  { apply length_zero_iff_nil in L1, L2. congruence. }
  destruct h1 as [|? ?] using rev_ind; [done|]. clear IHh1.
  destruct h2 as [|? ?] using rev_ind; [done|]. clear IHh2.
  rename x into M1, x0 into M2, h1 into p1, h2 into p2.
  rewrite length_app in L1, L2. simpl in L1, L2.
  apply StronglySorted_app in S1 as (B1 & S1 & _).
  apply StronglySorted_app in S2 as (B2 & S2 & _).
  (* every item of the first collection is at most [M1] *)
  assert (forall z, z ∈ (p1 ++ [M1]) ++ d1 -> item_le z M1) as Max1.
  { intros z Hz. rewrite !elem_of_app in Hz. destruct Hz as [[Hz|Hz]|Hz].
    - apply B1; [done|by left].
    - apply list_elem_of_singleton in Hz as ->. apply item_le_refl.
    - apply O1; [|done]. apply elem_of_app. right. by left. }
  assert (forall z, z ∈ (p2 ++ [M2]) ++ d2 -> item_le z M2) as Max2.
  { intros z Hz. rewrite !elem_of_app in Hz. destruct Hz as [[Hz|Hz]|Hz].
    - apply B2; [done|by left].
    - apply list_elem_of_singleton in Hz as ->. apply item_le_refl.
    - apply O2; [|done]. apply elem_of_app. right. by left. }
  assert (M1 = M2) as <-.
  { apply item_le_antisym.
    - apply Max2. rewrite <- Hp. set_solver.
    - apply Max1. rewrite Hp. set_solver. }
  f_equal. apply (IH p1 p2 d1 d2); try done; try lia.
  - rewrite <- !app_assoc in Hp. simpl in Hp.
    by apply Permutation_app_inv in Hp.
  - intros a b Ha Hb. apply O1; [|done]. apply elem_of_app. by left.
  - intros a b Ha Hb. apply O2; [|done]. apply elem_of_app. by left.
Qed.

Lemma top_of_unique (n : nat) (xs ys h1 h2 : list Item) :
  xs ≡ₚ ys -> top_of n xs h1 -> top_of n ys h2 -> h1 = h2.
Proof.
  intros Hp (S1 & L1 & d1 & P1 & O1) (S2 & L2 & d2 & P2 & O2).
  apply (top_unique (length h1) h1 h2 d1 d2); try done.
  - rewrite L1, L2. by rewrite Hp.
  - by rewrite <- P1, <- P2.
Qed.

(** Offering the same items in another order leaves the same queue. *)
Lemma fold_offer_perm (top_n : Z) (xs ys : list Item) :
  xs ≡ₚ ys ->
  fold_left (offer top_n) xs [] = fold_left (offer top_n) ys [].
Proof.
  intros Hp. eapply top_of_unique; [exact Hp|apply top_of_fold..].
Qed.

(** ** Running the calls *)

Lemma bind_ok {A B} (m : M A) (k : A -> M B) t t' a :
  m t = (t', Ok a) -> bind m k t = k a t'.
Proof. unfold bind. by intros ->. Qed.

Lemma bind_raise {A B} (m : M A) (k : A -> M B) t t' e :
  m t = (t', Raise e) -> bind m k t = (t', Raise e).
Proof. unfold bind. by intros ->. Qed.

(** A loop of calls that cannot fail logs one event per element. *)
Lemma mapM_emit {A B} (ev : A -> Event) (f : A -> B) (l : list A) t :
  mapM (fun x => _ <- emit (ev x) ;; ret (f x)) l t
  = (t ++ (ev <$> l), Ok (f <$> l)).
Proof.
  revert t. induction l as [|x l IH]; intros t; simpl.
  - by rewrite app_nil_r.
  - unfold bind at 1. unfold bind at 1. simpl. unfold bind at 1.
    rewrite IH. unfold ret. by rewrite <- app_assoc.
Qed.

Lemma mapM_fetch_text (d : DrQA) (l : list str) t :
  mapM (fetch_text d) l t = (t ++ (EvFetchText <$> l), Ok (get_doc_text d <$> l)).
Proof. apply (mapM_emit EvFetchText (get_doc_text d)). Qed.

Lemma mapM_tokenize_text (d : DrQA) (l : list str) t :
  mapM (tokenize_text d) l t
  = (t ++ (EvTokenizeText <$> l), Ok (tokenize d <$> l)).
Proof. apply (mapM_emit EvTokenizeText (tokenize d)). Qed.

(** The ranker is called first, whatever the batch. *)
Lemma rank_run (d : DrQA) (queries : list str) (n_docs : Z) t :
  (match queries with
   | [q] => r <- ranker_closest_docs d q n_docs ;; ret [r]
   | _ => ranker_batch_closest_docs d queries n_docs
   end) t
  = (t ++ [rank_event queries n_docs], Ok (ranked_of d queries n_docs)).
Proof. by destruct queries as [|q [|q' queries]]. Qed.

Lemma unzip_ranked_of (d : DrQA) (queries : list str) (n_docs : Z) :
  queries <> [] ->
  unzip_ranked (ranked_of d queries n_docs)
  = Ok (docids_of d queries n_docs, doc_scores_of d queries n_docs).
Proof. by destruct queries. Qed.

(** An empty batch stops at the unpacking of the rankings. *)
Lemma collect_empty (d : DrQA) candidates (top_n n_docs : Z) :
  collect d [] candidates top_n n_docs []
  = ([EvBatchClosestDocs [] n_docs], Raise ValueError).
Proof. reflexivity. Qed.

(** A batch with a query runs the ranker, the store and the tokenizers, and
    goes on with the examples. *)
Lemma collect_front (d : DrQA) (queries : list str) candidates
    (top_n n_docs : Z) :
  queries <> [] ->
  collect d queries candidates top_n n_docs []
  = collect_back d queries candidates top_n n_docs
      (front_trace d queries n_docs).
Proof.
  intros Hq. unfold collect.
  rewrite (bind_ok _ _ _ _ _ (rank_run d queries n_docs [])).
  unfold lift at 1. unfold bind at 1. rewrite unzip_ranked_of by done.
  cbn [fst snd].
  erewrite bind_ok by apply mapM_fetch_text.
  erewrite bind_ok by apply mapM_tokenize_text.
  erewrite bind_ok by apply mapM_tokenize_text.
  unfold collect_back, front_trace. simpl. by rewrite <- !app_assoc.
Qed.

(** ** Loops that may raise *)

Lemma rmap_Forall2 {A B} (f : A -> result B) (l : list A) (ys : list B) :
  rmap f l = Ok ys <-> Forall2 (fun x y => f x = Ok y) l ys.
Proof.
  revert ys. induction l as [|x l IH]; intros ys; simpl.
  - split; [intros [= <-]; constructor|by inversion 1].
  - destruct (f x) as [y|e] eqn:E; simpl.
    + destruct (rmap f l) as [ys'|e] eqn:E'; simpl.
      * split.
        -- intros [= <-]. constructor; [done|]. by apply IH.
        -- inversion 1 as [|? y' ? ys'' Hy Hys]; subst.
           apply IH in Hys. congruence.
      * split; [done|]. inversion 1 as [|? y' ? ys'' Hy Hys]; subst.
        apply IH in Hys. congruence.
    + split; [done|]. intros H. inversion H; subst. congruence.
Qed.

Lemma rmap_total {A B} (f : A -> result B) (l : list A) :
  Forall (fun x => exists y, f x = Ok y) l -> exists ys, rmap f l = Ok ys.
Proof.
  induction 1 as [|x l [y Hy] _ [ys Hys]]; simpl.
  - by exists [].
  - exists (y :: ys). by rewrite Hy, Hys.
Qed.

Lemma rmap_length {A B} (f : A -> result B) (l : list A) (ys : list B) :
  rmap f l = Ok ys -> length ys = length l.
Proof. intros H. apply rmap_Forall2 in H. symmetry. by eapply Forall2_length. Qed.

Lemma rmap_ext {A B} (f g : A -> result B) (l : list A) :
  Forall (fun x => f x = g x) l -> rmap f l = rmap g l.
Proof. induction 1 as [|x l Hx _ IH]; simpl; [done|]. by rewrite Hx, IH. Qed.

Lemma rmap_app {A B} (f : A -> result B) (l1 l2 : list A) :
  rmap f (l1 ++ l2)
  = (ys1 <~ rmap f l1 ;; ys2 <~ rmap f l2 ;; Ok (ys1 ++ ys2)).
Proof.
  induction l1 as [|x l1 IH]; simpl.
  - by destruct (rmap f l2).
  - destruct (f x); simpl; [|done]. rewrite IH.
    destruct (rmap f l1); simpl; [|done]. by destruct (rmap f l2).
Qed.

Lemma concat_mjoin {A} (ls : list (list A)) : concat ls = mjoin ls.
Proof. induction ls as [|l ls IH]; simpl; [done|]. by rewrite IH. Qed.

Lemma elem_of_concat {A} (x : A) (ls : list (list A)) :
  x ∈ concat ls <-> exists l, l ∈ ls /\ x ∈ l.
Proof.
  rewrite concat_mjoin, list_elem_of_join.
  split; intros (l & ? & ?); by exists l.
Qed.

Lemma fmap_concat {A B} (f : A -> B) (ls : list (list A)) :
  f <$> concat ls = concat ((fun l : list A => f <$> l) <$> ls).
Proof.
  induction ls as [|l ls IH]; simpl; [done|]. by rewrite fmap_app, IH.
Qed.

(** ** Indexing the documents *)

Lemma enumerate_snoc {A} (l : list A) (x : A) :
  enumerate (l ++ [x]) = enumerate l ++ [(length l, x)].
Proof.
  unfold enumerate. rewrite length_app. simpl.
  rewrite seq_app. simpl. rewrite zip_with_app by by rewrite length_seq.
  done.
Qed.

Lemma enumerate_lookup {A} (l : list A) (i : nat) (p : nat * A) :
  enumerate l !! i = Some p <-> p.1 = i /\ l !! i = Some p.2.
Proof.
  unfold enumerate. destruct p as [j x]. simpl.
  rewrite lookup_zip_with_Some. split.
  - intros (j' & x' & [= <- <-] & Hj & Hx).
    apply lookup_seq in Hj as [-> _]. done.
  - intros [-> Hx]. exists i, x. split; [done|]. split; [|done].
    apply lookup_seq. split; [done|]. by eapply lookup_lt_Some.
Qed.

Lemma index_docids_snoc (l : list str) (did : str) :
  index_docids (l ++ [did]) = <[did := length l]> (index_docids l).
Proof. unfold index_docids. by rewrite enumerate_snoc, fold_left_app. Qed.

(** Every identifier of the list has a position in the list. *)
Lemma index_docids_lookup (l : list str) (did : str) :
  did ∈ l ->
  exists didx, index_docids l !! did = Some didx /\ (didx < length l)%nat.
Proof.
  induction l as [|x l IH] using rev_ind; [by intros ?%elem_of_nil|].
  rewrite index_docids_snoc, length_app. simpl.
  destruct (decide (x = did)) as [->|Hne].
  - intros _. exists (length l). rewrite lookup_insert_eq. split; [done|lia].
  - intros Hin. apply elem_of_app in Hin as [Hin|Hin];
      [|apply list_elem_of_singleton in Hin; congruence].
    destruct (IH Hin) as (didx & Hl & Hlt). exists didx.
    rewrite lookup_insert_ne by done. split; [done|lia].
Qed.

Lemma flatten_docids_elem_of (all_docids : list (list str)) (did : str) :
  did ∈ flatten_docids all_docids <-> exists docids, docids ∈ all_docids /\ did ∈ docids.
Proof.
  unfold flatten_docids. rewrite elem_of_elements, elem_of_list_to_set.
  apply elem_of_concat.
Qed.

Lemma flatten_docids_NoDup (all_docids : list (list str)) :
  NoDup (flatten_docids all_docids).
Proof. unfold flatten_docids. apply NoDup_elements. Qed.

Lemma consecutive_lookup (a : nat) (ranges : list (nat * nat)) (b i : nat) r :
  consecutive a ranges b -> ranges !! i = Some r ->
  (a <= r.1 /\ r.1 <= r.2 /\ r.2 <= b)%nat.
Proof.
  revert a i. induction ranges as [|r0 ranges IH]; intros a i; simpl; [done|].
  intros (H1 & H2 & H3) Hl. destruct i as [|i]; simpl in Hl.
  - injection Hl as <-. apply consecutive_le in H3. lia.
  - destruct (IH _ _ H3 Hl) as (? & ? & ?). lia.
Qed.

(** ** The examples *)

Lemma make_example_Some (d : DrQA) (id : Key) (q s : Tokens) (ex : Example) :
  make_example d id q s = Some ex ->
  ex_id ex = id /\ question ex = words q /\ document ex = words s.
Proof.
  unfold make_example.
  destruct (reader_model d); destruct (_ && _); intros [= <-]; done.
Qed.

(** Keeping the successes of a loop over distinct values, each success
    remembering its value, gives distinct results. *)
Lemma omap_NoDup {A B} (R : A -> option B -> Prop) (g : B -> A)
    (l : list A) (os : list (option B)) :
  Forall2 R l os -> NoDup l ->
  (forall x y, R x (Some y) -> g y = x) ->
  NoDup (g <$> omap id os) /\ forall y, y ∈ omap id os -> g y ∈ l.
Proof.
  intros HF Hnd Hg. induction HF as [|x o l os Hxo HF IH]; simpl.
  - split; [constructor|]. by intros y ?%elem_of_nil.
  - apply NoDup_cons in Hnd as [Hx Hnd]. destruct (IH Hnd) as [IH1 IH2].
    destruct o as [y|]; simpl.
    + split.
      * apply NoDup_cons. split; [|done].
        intros Hin. apply list_elem_of_fmap in Hin as (y' & Hy' & Hin).
        apply IH2 in Hin. rewrite <- Hy', (Hg x y Hxo) in Hin. done.
      * intros y' Hin. apply elem_of_cons in Hin as [->|Hin].
        -- rewrite (Hg x y Hxo). by left.
        -- right. by apply IH2.
    + split; [done|]. intros y Hin. right. by apply IH2.
Qed.

Lemma NoDup_fmap_compose {A B C} (f : A -> B) (g : B -> C) (l : list A) :
  NoDup ((fun x => g (f x)) <$> l) -> NoDup (f <$> l).
Proof.
  intros H. apply (NoDup_fmap_1 g). by rewrite <- list_fmap_compose.
Qed.

(** Lists tagged by their position join into a list without repetition. *)
Lemma NoDup_concat_tagged {A} (g : A -> nat) (ls : list (list A)) (off : nat) :
  (forall i l x, ls !! i = Some l -> x ∈ l -> g x = (off + i)%nat) ->
  Forall NoDup ls -> NoDup (concat ls).
Proof.
  revert off. induction ls as [|l ls IH]; intros off Hg Hnd; simpl.
  - constructor.
  - apply Forall_cons in Hnd as [Hl Hnd]. apply NoDup_app.
    split; [done|]. split.
    + intros x Hx Hin. apply elem_of_concat in Hin as (l' & Hl' & Hx').
      apply list_elem_of_lookup in Hl' as [i Hi].
      pose proof (Hg 0%nat l x eq_refl Hx).
      pose proof (Hg (S i) l' x Hi Hx'). lia.
    + apply (IH (S off)); [|done]. intros i l' x Hi Hx.
      rewrite (Hg (S i) l' x Hi Hx). lia.
Qed.

Lemma examples_of_doc_Ok (d : DrQA) did2didx didx2sidx q_tokens s_tokens
    (qidx : nat) (rd : nat * str) (exs : list Example) :
  examples_of_doc d did2didx didx2sidx q_tokens s_tokens qidx rd = Ok exs ->
  NoDup (ex_id <$> exs) /\
  Forall (fun ex =>
            (ex_id ex).1 = (qidx, rd.1) /\
            exists q toks,
              q_tokens !! qidx = Some q /\
              s_tokens !! (ex_id ex).2 = Some toks /\
              question ex = words q /\ document ex = words toks) exs.
Proof.
  unfold examples_of_doc.
  destruct (did2didx !! rd.2) as [didx|]; simpl; [|done].
  destruct (didx2sidx !! didx) as [range|]; simpl; [|done].
  destruct (rmap _ _) as [os|] eqn:E; simpl; [|done]. intros [= <-].
  apply rmap_Forall2 in E.
  assert (forall sidx ex,
             (q <~ or_raise IndexError (q_tokens !! qidx) ;;
              s <~ or_raise IndexError (s_tokens !! sidx) ;;
              Ok (make_example d (qidx, rd.1, sidx) q s)) = Ok (Some ex) ->
             ex_id ex = (qidx, rd.1, sidx) /\
             exists q toks,
               q_tokens !! qidx = Some q /\
               s_tokens !! sidx = Some toks /\
               question ex = words q /\ document ex = words toks) as Hrow.
  { intros sidx ex.
    destruct (q_tokens !! qidx) as [q|]; simpl; [|done].
    destruct (s_tokens !! sidx) as [toks|]; simpl; [|done].
    intros [= Hm]. apply make_example_Some in Hm as (? & ? & ?).
    split; [done|]. by exists q, toks. }
  split.
  - apply (NoDup_fmap_compose _ (fun k : Key => k.2)).
    eapply (omap_NoDup _ (fun ex => (ex_id ex).2)); [exact E|apply NoDup_seq|].
    intros sidx ex Hex. apply Hrow in Hex as [-> _]. done.
  - apply Forall_forall. intros ex Hin.
    apply list_elem_of_lookup in Hin as [i Hi].
    assert (Some ex ∈ os) as Hos.
    { apply list_elem_of_lookup_2 in Hi. apply list_elem_of_omap in Hi.
      destruct Hi as (o & Ho & Hid). simpl in Hid. by subst. }
    apply list_elem_of_lookup in Hos as [j Hj].
    destruct (Forall2_lookup_r _ _ _ _ _ E Hj) as (sidx & _ & Hs).
    apply Hrow in Hs as (Hid & q & toks & ? & ? & ? & ?).
    rewrite Hid. split; [done|]. by exists q, toks.
Qed.

(** The keys of a list of examples share their query and document rank. *)
Lemma examples_of_query_Ok (d : DrQA) all_docids did2didx didx2sidx
    q_tokens s_tokens (qidx : nat) (exs : list Example) :
  examples_of_query d all_docids did2didx didx2sidx q_tokens s_tokens qidx
  = Ok exs ->
  NoDup (ex_id <$> exs) /\
  Forall (fun ex => (ex_id ex).1.1 = qidx /\
                    example_ok all_docids q_tokens s_tokens ex) exs.
Proof.
  unfold examples_of_query.
  destruct (all_docids !! qidx) as [docids|] eqn:Hd; simpl; [|done].
  destruct (rmap _ _) as [ls|] eqn:E; simpl; [|done]. intros [= <-].
  apply rmap_Forall2 in E.
  assert (forall i l, ls !! i = Some l ->
            NoDup (ex_id <$> l) /\
            Forall (fun ex =>
                      (ex_id ex).1 = (qidx, i) /\ (i < length docids)%nat /\
                      exists q toks,
                        q_tokens !! qidx = Some q /\
                        s_tokens !! (ex_id ex).2 = Some toks /\
                        question ex = words q /\ document ex = words toks) l)
    as Hl.
  { intros i l Hi.
    destruct (Forall2_lookup_r _ _ _ _ _ E Hi) as (rd & Hrd & Hex).
    apply enumerate_lookup in Hrd as [Hrd1 Hrd2].
    apply examples_of_doc_Ok in Hex as [Hnd Hall]. split; [done|].
    eapply Forall_impl; [exact Hall|]. intros ex (Hid & Hrest).
    rewrite Hrd1 in Hid. split; [done|]. split; [|done].
    by eapply lookup_lt_Some. }
  split.
  - rewrite fmap_concat.
    apply (NoDup_concat_tagged (fun k : Key => k.1.2) _ 0%nat).
    + intros i ks k Hi Hk. rewrite list_lookup_fmap in Hi.
      destruct (ls !! i) as [l|] eqn:El; [|done]. injection Hi as <-.
      apply list_elem_of_fmap in Hk as (ex & -> & Hex).
      destruct (Hl i l El) as [_ Hall]. rewrite Forall_forall in Hall.
      destruct (Hall ex Hex) as (Hid & _). by rewrite Hid.
    + apply Forall_forall. intros ks Hks.
      apply list_elem_of_fmap in Hks as (l & -> & Hin).
      apply list_elem_of_lookup in Hin as [i Hi]. by apply (Hl i l Hi).
  - apply Forall_forall. intros ex Hin.
    apply elem_of_concat in Hin as (l & Hlin & Hex).
    apply list_elem_of_lookup in Hlin as [i Hi].
    destruct (Hl i l Hi) as [_ Hall]. rewrite Forall_forall in Hall.
    destruct (Hall ex Hex) as (Hid & Hlt & q & toks & ? & ? & ? & ?).
    rewrite Hid. simpl. split; [done|].
    exists q, toks, docids. rewrite Hid. done.
Qed.

Lemma build_examples_Ok (d : DrQA) queries all_docids did2didx didx2sidx
    q_tokens s_tokens (exs : list Example) :
  build_examples d queries all_docids did2didx didx2sidx q_tokens s_tokens
  = Ok exs ->
  NoDup (ex_id <$> exs) /\
  Forall (fun ex => ((ex_id ex).1.1 < length queries)%nat /\
                    example_ok all_docids q_tokens s_tokens ex) exs.
Proof.
  unfold build_examples.
  destruct (rmap _ _) as [ls|] eqn:E; simpl; [|done]. intros [= <-].
  apply rmap_Forall2 in E.
  assert (forall i l, ls !! i = Some l ->
            (i < length queries)%nat /\
            NoDup (ex_id <$> l) /\
            Forall (fun ex => (ex_id ex).1.1 = i /\
                      example_ok all_docids q_tokens s_tokens ex) l) as Hl.
  { intros i l Hi.
    destruct (Forall2_lookup_r _ _ _ _ _ E Hi) as (q & Hq & Hex).
    apply lookup_seq in Hq as [-> Hlt]. simpl. split; [done|].
    by apply examples_of_query_Ok in Hex. }
  split.
  - rewrite fmap_concat.
    apply (NoDup_concat_tagged (fun k : Key => k.1.1) _ 0%nat).
    + intros i ks k Hi Hk. rewrite list_lookup_fmap in Hi.
      destruct (ls !! i) as [l|] eqn:El; [|done]. injection Hi as <-.
      apply list_elem_of_fmap in Hk as (ex & -> & Hex).
      destruct (Hl i l El) as (_ & _ & Hall). rewrite Forall_forall in Hall.
      by destruct (Hall ex Hex) as (Hid & _).
    + apply Forall_forall. intros ks Hks.
      apply list_elem_of_fmap in Hks as (l & -> & Hin).
      apply list_elem_of_lookup in Hin as [i Hi]. by apply (Hl i l Hi).
  - apply Forall_forall. intros ex Hin.
    apply elem_of_concat in Hin as (l & Hlin & Hex).
    apply list_elem_of_lookup in Hlin as [i Hi].
    destruct (Hl i l Hi) as (Hlt & _ & Hall). rewrite Forall_forall in Hall.
    destruct (Hall ex Hex) as (Hid & Hok). by rewrite Hid.
Qed.

(** The lookups of the example builder never fail on the tables that
    [collect] builds. *)
Lemma examples_of_total (d : DrQA) (queries : list str) (n_docs : Z) :
  exists exs, examples_of d queries n_docs = Ok exs.
Proof.
  unfold examples_of, build_examples.
  destruct (split_docs_consecutive d (doc_texts_of d queries n_docs))
    as (Hlen & Hcons).
  fold (didx2sidx_of d queries n_docs) in Hlen, Hcons.
  fold (flat_splits_of d queries n_docs) in Hcons.
  match goal with
  | |- context [rmap ?f ?l] =>
      destruct (rmap_total f l) as [ls Hls]; [|rewrite Hls; simpl; eauto]
  end.
  apply Forall_forall. intros qidx Hq.
  apply elem_of_seq in Hq as [_ Hq]. simpl in Hq.
  unfold examples_of_query.
  assert (exists docids, docids_of d queries n_docs !! qidx = Some docids)
    as [docids Hd].
  { apply lookup_lt_is_Some.
    unfold docids_of, ranked_of. by rewrite !length_fmap. }
  rewrite Hd. simpl.
  match goal with
  | |- context [rmap ?f ?l] =>
      destruct (rmap_total f l) as [es Hes]; [|rewrite Hes; simpl; eauto]
  end.
  apply Forall_forall. intros rd Hrd.
  apply list_elem_of_lookup in Hrd as [i Hi].
  apply enumerate_lookup in Hi as [_ Hi].
  unfold examples_of_doc.
  destruct (index_docids_lookup (flat_docids_of d queries n_docs) rd.2)
    as (didx & Hdidx & Hlt).
  { apply flatten_docids_elem_of. exists docids.
    split; by eapply list_elem_of_lookup_2. }
  rewrite Hdidx. simpl.
  assert (exists range, didx2sidx_of d queries n_docs !! didx = Some range)
    as [range Hr].
  { apply lookup_lt_is_Some. rewrite Hlen.
    unfold doc_texts_of. by rewrite length_fmap. }
  rewrite Hr. simpl.
  destruct (consecutive_lookup _ _ _ _ _ Hcons Hr) as (_ & Hle & Hend).
  match goal with
  | |- context [rmap ?f ?l] =>
      destruct (rmap_total f l) as [os Hos]; [|rewrite Hos; simpl; eauto]
  end.
  apply Forall_forall. intros sidx Hs.
  apply elem_of_seq in Hs as [_ Hs].
  assert (exists q, q_tokens_of d queries !! qidx = Some q) as [q ->].
  { apply lookup_lt_is_Some. unfold q_tokens_of. by rewrite length_fmap. }
  assert (exists s, s_tokens_of d queries n_docs !! sidx = Some s) as [s ->].
  { apply lookup_lt_is_Some. unfold s_tokens_of. rewrite length_fmap. lia. }
  simpl. eauto.
Qed.

(** ** The loader *)

Lemma insert_by_length_perm (ex : Example) (l : list Example) :
  insert_by_length ex l ≡ₚ ex :: l.
Proof.
  induction l as [|y l IH]; simpl; [done|].
  destruct (_ <=? _)%nat; [done|]. rewrite IH. apply perm_swap.
Qed.

Lemma sort_by_length_perm (l : list Example) : sort_by_length l ≡ₚ l.
Proof.
  induction l as [|x l IH]; simpl; [done|].
  by rewrite insert_by_length_perm, IH.
Qed.

Lemma chunks_fuel_concat {A} (fuel n : nat) (l : list A) :
  (0 < n)%nat -> (length l <= fuel)%nat ->
  concat (chunks_fuel fuel n l) = l.
Proof.
  intros Hn. revert l. induction fuel as [|fuel IH]; intros l Hl; simpl.
  - destruct l; [done|simpl in Hl; lia].
  - destruct l as [|x l]; [done|].
    cbn [concat]. rewrite IH; [apply take_drop|].
    rewrite length_drop. simpl in *. lia.
Qed.

(** Batching changes neither the examples nor their number. *)
Lemma get_loader_perm (d : DrQA) (data : list Example) :
  concat (_get_loader d data) ≡ₚ data.
Proof.
  unfold _get_loader, chunks.
  rewrite chunks_fuel_concat by lia. apply sort_by_length_perm.
Qed.

(** ** Reading the batches *)

Lemma read_batch_run (d : DrQA) candidates s_tokens (batch : list Example) t :
  read_batch d candidates s_tokens batch t
  = match batch_cands_of d candidates s_tokens batch with
    | Ok c => (t ++ [EvPredict batch c], Ok (handle_of d batch c))
    | Raise e => (t, Raise e)
    end.
Proof.
  unfold read_batch, batch_cands_of, handle_of.
  destruct (truthy candidates || fixed_candidates d); [|done].
  unfold bind at 1. unfold bind at 1. unfold lift.
  by destruct (make_batch_cands _ _ _).
Qed.

(** The loop over the loader only calls the reader; when it ends, every
    batch has its handle. *)
Lemma mapM_read_batch (d : DrQA) candidates s_tokens
    (batches : list (list Example)) t :
  exists evs r,
    mapM (read_batch d candidates s_tokens) batches t = (t ++ evs, r) /\
    Forall is_predict evs /\
    match r with
    | Ok hs =>
        Forall2 (fun b h =>
                   exists c, batch_cands_of d candidates s_tokens b = Ok c /\
                             h = handle_of d b c) batches hs
    | Raise e =>
        exists b, b ∈ batches /\
                  batch_cands_of d candidates s_tokens b = Raise e
    end.
Proof.
  revert t. induction batches as [|b batches IH]; intros t; simpl.
  - exists [], (Ok []). rewrite app_nil_r. repeat split; constructor.
  - unfold bind at 1. rewrite read_batch_run.
    destruct (batch_cands_of d candidates s_tokens b) as [c|e] eqn:E.
    + destruct (IH (t ++ [EvPredict b c])) as (evs & r & Hrun & Hev & Hr).
      unfold bind at 1. rewrite Hrun. destruct r as [hs|e].
      * exists (EvPredict b c :: evs), (Ok (handle_of d b c :: hs)).
        split; [by rewrite <- app_assoc|]. split; [by constructor|].
        constructor; [by exists c|done].
      * exists (EvPredict b c :: evs), (Raise e).
        split; [by rewrite <- app_assoc|]. split; [by constructor|].
        destruct Hr as (b' & ? & ?). exists b'. split; [by right|done].
    + exists [], (Raise e). rewrite app_nil_r. split; [done|].
      split; [constructor|]. exists b. split; [by left|done].
Qed.

(** ** The queues after the handles *)

Lemma rfold_app {A B} (f : B -> A -> result B) (l1 l2 : list A) (b : B) :
  rfold f (l1 ++ l2) b = (b' <~ rfold f l1 b ;; rfold f l2 b').
Proof.
  revert b. induction l1 as [|x l1 IH]; intros b; simpl; [done|].
  destruct (f b x); simpl; [apply IH|done].
Qed.

Lemma query_items_app (q : nat) (l1 l2 : list Item) :
  query_items q (l1 ++ l2) = query_items q l1 ++ query_items q l2.
Proof. apply filter_app. Qed.

Lemma query_items_own (it : Item) :
  query_items (item_key it).1.1 [it] = [it].
Proof. unfold query_items. by rewrite filter_cons_True, filter_nil. Qed.

Lemma query_items_other (q : nat) (it : Item) :
  (item_key it).1.1 <> q -> query_items q [it] = [].
Proof.
  intros H. unfold query_items. by rewrite filter_cons_False, filter_nil.
Qed.

Lemma queues_of_length (top_n : Z) (n : nat) (items : list Item) :
  length (queues_of top_n n items) = n.
Proof. unfold queues_of. by rewrite length_fmap, length_seq. Qed.

Lemma queues_of_lookup (top_n : Z) (n : nat) (items : list Item) (q : nat) :
  (q < n)%nat ->
  queues_of top_n n items !! q
  = Some (fold_left (offer top_n) (query_items q items) []).
Proof.
  intros Hq. unfold queues_of. rewrite list_lookup_fmap.
  by rewrite lookup_seq_lt.
Qed.

(** Offering one more item changes the queue of its question alone. *)
Lemma queues_of_snoc (top_n : Z) (n : nat) (items : list Item) (it : Item) :
  let qidx := (item_key it).1.1 in
  (qidx < n)%nat ->
  <[qidx := offer top_n (fold_left (offer top_n) (query_items qidx items) [])
              it]> (queues_of top_n n items)
  = queues_of top_n n (items ++ [it]).
Proof.
  intros qidx Hq. apply list_eq. intros q.
  destruct (decide (q < n)%nat) as [Hlt|Hge].
  - rewrite (queues_of_lookup _ _ (items ++ [it])) by done.
    rewrite query_items_app, fold_left_app.
    destruct (decide (qidx = q)) as [<-|Hne].
    + rewrite list_lookup_insert_eq by by rewrite queues_of_length.
      unfold qidx. by rewrite query_items_own.
    + rewrite list_lookup_insert_ne by done.
      rewrite queues_of_lookup by done.
      by rewrite query_items_other.
  - rewrite !lookup_ge_None_2;
      [done|rewrite queues_of_length; lia
      |rewrite length_insert, queues_of_length; lia].
Qed.

Lemma row_item_raise (res : ReaderResult) (ex_ids : list Key) (i : nat) e :
  row_item res ex_ids i = Raise e -> e = IndexError.
Proof.
  unfold row_item.
  destruct (r_score res !! i) as [[|? ?]|]; simpl; try congruence.
  destruct (ex_ids !! i); simpl; try congruence.
  destruct (r_s res !! i) as [[|? ?]|]; simpl; try congruence.
  destruct (r_e res !! i) as [[|? ?]|]; simpl; congruence.
Qed.

Lemma rmap_raise {A B} (f : A -> result B) (l : list A) e :
  rmap f l = Raise e -> exists x, x ∈ l /\ f x = Raise e.
Proof.
  induction l as [|x l IH]; simpl; [done|].
  destruct (f x) as [y|e'] eqn:E; simpl.
  - destruct (rmap f l) as [ys|e'] eqn:E'; simpl; [done|].
    intros [= ->]. destruct (IH eq_refl) as (x' & ? & ?).
    exists x'. split; [by right|done].
  - intros [= ->]. exists x. split; [by left|done].
Qed.

Lemma handle_items_raise h e : handle_items h = Raise e -> e = IndexError.
Proof.
  unfold handle_items. destruct (rmap _ _) as [|e'] eqn:E; simpl; [done|].
  intros [= ->]. apply rmap_raise in E as (i & _ & Hi).
  by apply row_item_raise in Hi.
Qed.

Lemma offered_raise hs e : offered hs = Raise e -> e = IndexError.
Proof.
  unfold offered. destruct (rmap _ _) as [|e'] eqn:E; simpl; [done|].
  intros [= ->]. apply rmap_raise in E as (h & _ & Hh).
  by apply handle_items_raise in Hh.
Qed.

(** The rows of a handle, one after the other. *)
Lemma aggregate_rows (top_n : Z) (n : nat) (res : ReaderResult)
    (ex_ids : list Key) (rows : list nat) (acc : list Item) :
  rfold (aggregate_row top_n res ex_ids) rows (queues_of top_n n acc)
  = (its <~ rmap (row_item res ex_ids) rows ;;
     if in_range n (omap id its)
     then Ok (queues_of top_n n (acc ++ omap id its))
     else Raise IndexError).
Proof.
  revert acc. induction rows as [|i rows IH]; intros acc; simpl.
  - by rewrite app_nil_r.
  - unfold aggregate_row at 1.
    destruct (row_item res ex_ids i) as [[it|]|e] eqn:E; simpl.
    + destruct (decide ((item_key it).1.1 < n)%nat) as [Hlt|Hge].
      * rewrite queues_of_lookup by done. simpl.
        rewrite queues_of_snoc by done. rewrite IH.
        destruct (rmap _ rows) as [its|]; simpl; [|done].
        replace ((item_key it).1.1 <? n)%nat with true
          by (symmetry; by apply Nat.ltb_lt).
        simpl. by rewrite <- app_assoc.
      * rewrite lookup_ge_None_2 by (rewrite queues_of_length; lia). simpl.
        destruct (rmap _ rows) as [its|e] eqn:E'; simpl.
        -- replace ((item_key it).1.1 <? n)%nat with false
             by (symmetry; apply Nat.ltb_ge; lia).
           done.
        -- apply rmap_raise in E' as (j & _ & Hj).
           apply row_item_raise in Hj. by subst.
    + rewrite IH. by destruct (rmap _ rows).
    + apply row_item_raise in E. by subst.
Qed.

Lemma in_range_app (n : nat) (l1 l2 : list Item) :
  in_range n (l1 ++ l2) = in_range n l1 && in_range n l2.
Proof. apply forallb_app. Qed.

(** The queues are those of the items offered, question by question; the
    loop raises when a row cannot be read or a question has no queue. *)
Lemma aggregate_handles (top_n : Z) (n : nat)
    (hs : list (ReaderResult * list Key * nat)) (acc : list Item) :
  rfold (aggregate_handle top_n) hs (queues_of top_n n acc)
  = (items <~ offered hs ;;
     if in_range n items then Ok (queues_of top_n n (acc ++ items))
     else Raise IndexError).
Proof.
  revert acc. induction hs as [|h hs IH]; intros acc.
  - simpl. by rewrite app_nil_r.
  - cbn [rfold]. unfold aggregate_handle at 1. rewrite aggregate_rows.
    unfold offered. cbn [rmap]. unfold handle_items at 1.
    destruct (rmap (row_item h.1.1 h.1.2) (seq 0 h.2)) as [its|e] eqn:E;
      simpl; [|done].
    destruct (in_range n (omap id its)) eqn:Hr; simpl.
    + rewrite IH. unfold offered.
      destruct (rmap handle_items hs) as [ls|]; simpl; [|done].
      rewrite in_range_app, Hr. simpl. by rewrite <- app_assoc.
    + destruct (rmap handle_items hs) as [ls|e] eqn:E'; simpl.
      * by rewrite in_range_app, Hr.
      * apply rmap_raise in E' as (h' & _ & Hh').
        apply handle_items_raise in Hh'. by subst.
Qed.

Lemma aggregate_offered (top_n : Z) (n : nat)
    (hs : list (ReaderResult * list Key * nat)) :
  aggregate top_n n hs
  = (items <~ offered hs ;;
     if in_range n items then Ok (queues_of top_n n items)
     else Raise IndexError).
Proof.
  unfold aggregate.
  replace (replicate n []) with (queues_of top_n n []).
  - apply aggregate_handles.
  - unfold queues_of. induction n as [|n IH]; [done|].
    rewrite seq_S, fmap_app, replicate_S_end. by rewrite <- IH.
Qed.

(** ** The items offered *)

(** A row offers at most one item, made of its first score, start and
    end. *)
Lemma row_item_Some (res : ReaderResult) (ex_ids : list Key) (i : nat)
    (it : Item) :
  row_item res ex_ids i = Ok (Some it) <->
  exists scores starts ends,
    r_score res !! i = Some (item_score it :: scores) /\
    ex_ids !! i = Some (item_key it) /\
    r_s res !! i = Some (item_start it :: starts) /\
    r_e res !! i = Some (item_end it :: ends).
Proof.
  unfold row_item. destruct it as [[[sc k] s] e].
  unfold item_score, item_key, item_start, item_end. simpl. split.
  - destruct (r_score res !! i) as [[|sc0 scores]|]; simpl; try done.
    destruct (ex_ids !! i) as [k0|]; simpl; try done.
    destruct (r_s res !! i) as [[|s0 starts]|]; simpl; try done.
    destruct (r_e res !! i) as [[|e0 ends]|]; simpl; try done.
    intros [= -> -> -> ->]. by exists scores, starts, ends.
  - intros (scores & starts & ends & -> & -> & -> & ->). done.
Qed.

(** A row without a score offers nothing. *)
Lemma row_item_None (res : ReaderResult) (ex_ids : list Key) (i : nat) :
  r_score res !! i = Some [] -> row_item res ex_ids i = Ok None.
Proof. unfold row_item. by intros ->. Qed.

Lemma row_item_None_inv (res : ReaderResult) (ex_ids : list Key) (i : nat) :
  row_item res ex_ids i = Ok None -> r_score res !! i = Some [].
Proof.
  unfold row_item.
  destruct (r_score res !! i) as [[|sc0 scores]|]; simpl; try done.
  destruct (ex_ids !! i) as [k0|]; simpl; try done.
  destruct (r_s res !! i) as [[|s0 starts]|]; simpl; try done.
  destruct (r_e res !! i) as [[|e0 ends]|]; simpl; done.
Qed.

(** The keys of the items of a handle follow the row ids. *)
Lemma rows_keys_sublist (res : ReaderResult) (ex_ids : list Key)
    (a n : nat) (os : list (option Item)) :
  rmap (row_item res ex_ids) (seq a n) = Ok os ->
  (item_key <$> omap id os) `sublist_of` (drop a ex_ids).
Proof.
  revert a os. induction n as [|n IH]; intros a os; simpl.
  - intros [= <-]. apply sublist_nil_l.
  - destruct (row_item res ex_ids a) as [o|] eqn:E; simpl; [|done].
    destruct (rmap _ _) as [os'|] eqn:E'; simpl; [|done]. intros [= <-].
    apply IH in E'. destruct o as [it|]; simpl.
    + apply row_item_Some in E as (_ & _ & _ & _ & Hk & _).
      rewrite (drop_S _ _ _ Hk). by apply sublist_skip.
    + etrans; [exact E'|].
      destruct (ex_ids !! a) as [k|] eqn:Hk.
      * rewrite (drop_S _ _ _ Hk). by apply sublist_cons.
      * rewrite !drop_ge; [done|apply lookup_ge_None in Hk; lia..].
Qed.

Lemma handle_items_keys h (items : list Item) :
  handle_items h = Ok items -> (item_key <$> items) `sublist_of` h.1.2.
Proof.
  unfold handle_items. destruct (rmap _ _) as [os|] eqn:E; simpl; [|done].
  intros [= <-]. by apply rows_keys_sublist in E.
Qed.

Lemma offered_origin (d : DrQA) candidates s_tokens
    (batches : list (list Example)) hs (items : list Item) :
  Forall2 (fun b h =>
             exists c, batch_cands_of d candidates s_tokens b = Ok c /\
                       h = handle_of d b c) batches hs ->
  offered hs = Ok items ->
  (item_key <$> items) `sublist_of` (ex_id <$> concat batches) /\
  Forall (item_origin d candidates s_tokens batches) items.
Proof.
  intros HF. revert items.
  induction HF as [|b h batches hs (c & Hc & ->) HF IH]; intros items.
  - intros [= <-]. split; [apply sublist_nil_l|constructor].
  - unfold offered. cbn [rmap].
    destruct (handle_items (handle_of d b c)) as [its|] eqn:E; simpl; [|done].
    destruct (rmap handle_items hs) as [ls|] eqn:E'; simpl; [|done].
    intros [= <-].
    destruct (IH (concat ls)) as [IH1 IH2];
      [unfold offered; by rewrite E'|].
    split.
    + rewrite !fmap_app. apply sublist_app; [|done].
      by apply handle_items_keys in E.
    + apply Forall_app. split.
      * apply Forall_forall. intros it Hit.
        unfold handle_items in E.
        destruct (rmap _ _) as [os|] eqn:Eos; simpl in E; [|done].
        injection E as <-. apply list_elem_of_omap in Hit as (o & Ho & Hid).
        simpl in Hid. subst o.
        apply rmap_Forall2 in Eos.
        apply list_elem_of_lookup in Ho as [j Hj].
        destruct (Forall2_lookup_r _ _ _ _ _ Eos Hj) as (i & Hi & Hrow).
        apply lookup_seq in Hi as [-> Hlt]. simpl in Hrow.
        apply row_item_Some in Hrow as Hrow'.
        destruct Hrow' as (_ & _ & _ & _ & Hk & _).
        rewrite list_lookup_fmap in Hk.
        destruct (b !! j) as [ex|] eqn:Hex; [|done]. injection Hk as Hk.
        exists b, c, j, ex. split; [by left|]. done.
      * eapply Forall_impl; [exact IH2|].
        intros it (b' & c' & i & ex & ? & ? & ? & ? & ?).
        exists b', c', i, ex. split; [by right|done].
Qed.

(** ** The runs of [collect] *)

(** The loop over the loader, when every batch gets its restrictions. *)
Lemma mapM_read_batch_Ok (d : DrQA) candidates s_tokens
    (batches : list (list Example)) (cs : list (option (list BatchCand))) t :
  rmap (batch_cands_of d candidates s_tokens) batches = Ok cs ->
  mapM (read_batch d candidates s_tokens) batches t
  = (t ++ zip_with EvPredict batches cs,
     Ok (zip_with (handle_of d) batches cs)).
Proof.
  revert cs t. induction batches as [|b batches IH]; intros cs t; simpl.
  - intros [= <-]. by rewrite app_nil_r.
  - destruct (batch_cands_of d candidates s_tokens b) as [c|] eqn:E;
      simpl; [|done].
    destruct (rmap _ batches) as [cs'|] eqn:E'; simpl; [|done].
    intros [= <-]. unfold bind at 1. rewrite read_batch_run, E.
    unfold bind at 1. rewrite (IH cs') by done. simpl.
    by rewrite <- app_assoc.
Qed.

Lemma mapM_read_batch_inv (d : DrQA) candidates s_tokens
    (batches : list (list Example)) t t' hs :
  mapM (read_batch d candidates s_tokens) batches t = (t', Ok hs) ->
  exists cs, rmap (batch_cands_of d candidates s_tokens) batches = Ok cs.
Proof.
  destruct (rmap (batch_cands_of d candidates s_tokens) batches)
    as [cs|e] eqn:E; [by exists cs|].
  intros Hrun.
  destruct (mapM_read_batch d candidates s_tokens batches t)
    as (evs & r & Hr & _ & Hcase).
  rewrite Hrun in Hr. injection Hr as -> <-.
  exfalso. apply rmap_raise in E as (b & Hb & Hraise).
  apply list_elem_of_lookup in Hb as [i Hi].
  destruct (Forall2_lookup_l _ _ _ _ _ Hcase Hi) as (h & _ & c & Hc & _).
  congruence.
Qed.

(** [collect] returns exactly on the runs described by [collected]. *)
Lemma collect_back_Ok (d : DrQA) queries candidates (top_n n_docs : Z) t0 t c :
  collect_back d queries candidates top_n n_docs t0 = (t, Ok c) <->
  exists exs cs items,
    examples_of d queries n_docs = Ok exs /\
    rmap (batch_cands_of d candidates (s_tokens_of d queries n_docs))
         (_get_loader d exs) = Ok cs /\
    offered (zip_with (handle_of d) (_get_loader d exs) cs) = Ok items /\
    in_range (length queries) items = true /\
    t = t0 ++ zip_with EvPredict (_get_loader d exs) cs /\
    c = locals_of d queries top_n n_docs exs
          (zip_with (handle_of d) (_get_loader d exs) cs) items.
Proof.
  unfold collect_back. split.
  - unfold bind at 1. unfold lift at 1.
    destruct (examples_of d queries n_docs) as [exs|] eqn:Eex; [|done].
    unfold bind at 1.
    destruct (mapM _ _ _) as [t1 [hs|]] eqn:Erun; [|done].
    destruct (mapM_read_batch_inv _ _ _ _ _ _ _ Erun) as [cs Hcs].
    rewrite (mapM_read_batch_Ok _ _ _ _ _ _ Hcs) in Erun.
    injection Erun as <- <-.
    unfold bind at 1. unfold lift at 1. rewrite aggregate_offered.
    destruct (offered _) as [items|] eqn:Eoff; simpl; [|done].
    destruct (in_range _ _) eqn:Er; [|done].
    unfold ret. intros [= <- <-]. by exists exs, cs, items.
  - intros (exs & cs & items & Hex & Hcs & Hoff & Hr & -> & ->).
    unfold bind at 1. unfold lift at 1. rewrite Hex.
    unfold bind at 1. rewrite (mapM_read_batch_Ok _ _ _ _ _ _ Hcs).
    unfold bind at 1. unfold lift at 1. rewrite aggregate_offered, Hoff.
    simpl. by rewrite Hr.
Qed.

Lemma collect_Ok (d : DrQA) queries candidates (top_n n_docs : Z) t c :
  collect d queries candidates top_n n_docs [] = (t, Ok c) <->
  queries <> [] /\ collected d queries candidates top_n n_docs t c.
Proof.
  destruct queries as [|q queries].
  - rewrite collect_empty. split; [done|]. by intros [? _].
  - rewrite collect_front by done. rewrite collect_back_Ok.
    unfold collected. split; [by intros H|by intros [_ H]].
Qed.

(** ** The collaborators honour their contracts *)

(** The examples of the batches are those that were built. *)
Lemma get_loader_elem_of (d : DrQA) (exs b : list Example) (ex : Example) :
  b ∈ _get_loader d exs -> ex ∈ b -> ex ∈ exs.
Proof.
  intros Hb Hex. rewrite <- (get_loader_perm d exs).
  apply elem_of_concat. by exists b.
Qed.

Lemma examples_of_ok (d : DrQA) (queries : list str) (n_docs : Z) exs :
  examples_of d queries n_docs = Ok exs ->
  NoDup (ex_id <$> exs) /\
  Forall (fun ex =>
            ((ex_id ex).1.1 < length queries)%nat /\
            example_ok (docids_of d queries n_docs) (q_tokens_of d queries)
              (s_tokens_of d queries n_docs) ex) exs.
Proof. apply build_examples_Ok. Qed.

Lemma batch_cands_total (d : DrQA) (queries : list str) candidates
    (n_docs : Z) (exs : list Example) :
  examples_of d queries n_docs = Ok exs ->
  candidates_ok queries candidates ->
  exists cs,
    rmap (batch_cands_of d candidates (s_tokens_of d queries n_docs))
         (_get_loader d exs) = Ok cs.
Proof.
  intros Hex Hc. apply examples_of_ok in Hex as [_ Hall].
  rewrite Forall_forall in Hall.
  apply rmap_total, Forall_forall. intros b Hb.
  unfold batch_cands_of.
  destruct (truthy candidates || fixed_candidates d); [|eauto].
  unfold make_batch_cands.
  match goal with
  | |- context [rmap ?f ?l] =>
      destruct (rmap_total f l) as [bs Hbs]; [|rewrite Hbs; simpl; eauto]
  end.
  apply Forall_forall. intros id Hid.
  apply list_elem_of_fmap in Hid as (ex & -> & Hin).
  destruct (Hall ex (get_loader_elem_of _ _ _ _ Hb Hin))
    as (Hlt & q & toks & docids & _ & Htoks & _).
  rewrite Htoks. simpl.
  destruct (truthy candidates) eqn:Ht; simpl; [|eauto].
  specialize (Hc Ht).
  destruct (lookup_lt_is_Some_2 (default [] candidates) (ex_id ex).1.1)
    as [cand ->]; [lia|]. simpl. eauto.
Qed.

(** A reader that honours its contract lets every row be read. *)
Lemma handle_items_total (d : DrQA) (b : list Example) c :
  reader_contract d -> exists items, handle_items (handle_of d b c) = Ok items.
Proof.
  intros Hr. unfold handle_items, handle_of. cbn [fst snd].
  match goal with
  | |- context [rmap ?f ?l] =>
      destruct (rmap_total f l) as [os Hos]; [|rewrite Hos; simpl; eauto]
  end.
  apply Forall_forall. intros i Hi. apply elem_of_seq in Hi as [_ Hi].
  simpl in Hi. destruct (lookup_lt_is_Some_2 b i Hi) as [ex Hex].
  destruct (Hr b c i ex Hex) as (score_i & Hsc & Hrest).
  unfold row_item. rewrite Hsc. simpl.
  destruct score_i as [|score0 scores]; [eauto|].
  destruct Hrest as (s0 & s_i & e0 & e_i & -> & -> & _); [done|].
  rewrite list_lookup_fmap, Hex. simpl. eauto.
Qed.

Lemma offered_total (d : DrQA) (batches : list (list Example)) cs :
  reader_contract d ->
  exists items, offered (zip_with (handle_of d) batches cs) = Ok items.
Proof.
  intros Hr. unfold offered.
  match goal with
  | |- context [rmap ?f ?l] =>
      destruct (rmap_total f l) as [ls Hls]; [|rewrite Hls; simpl; eauto]
  end.
  apply Forall_forall. intros h Hh.
  apply elem_of_zip_with in Hh as (b & c & -> & _ & _).
  by apply handle_items_total.
Qed.

Lemma zip_with_handles (d : DrQA) candidates s_tokens
    (batches : list (list Example)) cs :
  rmap (batch_cands_of d candidates s_tokens) batches = Ok cs ->
  Forall2 (fun b h =>
             exists c, batch_cands_of d candidates s_tokens b = Ok c /\
                       h = handle_of d b c)
          batches (zip_with (handle_of d) batches cs).
Proof.
  intros H. apply rmap_Forall2 in H.
  induction H as [|b c batches cs Hc _ IH]; simpl; constructor; eauto.
Qed.

(** The items offered in a run and the examples they come from. *)
Lemma collected_items (d : DrQA) (queries : list str) candidates
    (n_docs : Z) exs cs items :
  examples_of d queries n_docs = Ok exs ->
  rmap (batch_cands_of d candidates (s_tokens_of d queries n_docs))
       (_get_loader d exs) = Ok cs ->
  offered (zip_with (handle_of d) (_get_loader d exs) cs) = Ok items ->
  NoDup (item_key <$> items) /\
  Forall (fun it =>
            exists b c i ex,
              ex ∈ exs /\ b !! i = Some ex /\ ex_id ex = item_key it /\
              row_item (predict d b c) (ex_id <$> b) i = Ok (Some it)) items.
Proof.
  intros Hex Hcs Hoff.
  destruct (offered_origin d candidates _ _ _ _ (zip_with_handles _ _ _ _ _ Hcs)
              Hoff) as [Hsub Horig].
  apply examples_of_ok in Hex as [Hnd _]. split.
  - eapply sublist_NoDup; [|exact Hsub].
    by rewrite (get_loader_perm d exs).
  - eapply Forall_impl; [exact Horig|].
    intros it (b & c & i & ex & Hb & _ & Hi & Hid & Hrow).
    exists b, c, i, ex. split; [|done].
    eapply get_loader_elem_of; [exact Hb|].
    by eapply list_elem_of_lookup_2.
Qed.

Lemma in_range_Forall (n : nat) (items : list Item) :
  in_range n items = true <-> Forall (fun it => ((item_key it).1.1 < n)%nat) items.
Proof.
  unfold in_range. rewrite forallb_forall, Forall_forall.
  split; intros H it Hit.
  - apply Nat.ltb_lt, H. by apply list_elem_of_In.
  - apply Nat.ltb_lt, H. by apply list_elem_of_In.
Qed.

(** With a batch that has a query and a reader that honours its contract,
    [collect] returns. *)
Lemma collect_total (d : DrQA) (queries : list str) candidates
    (top_n n_docs : Z) :
  queries <> [] -> reader_contract d -> candidates_ok queries candidates ->
  exists t c, collect d queries candidates top_n n_docs [] = (t, Ok c).
Proof.
  intros Hq Hr Hc.
  destruct (examples_of_total d queries n_docs) as [exs Hex].
  destruct (batch_cands_total d queries candidates n_docs exs Hex Hc)
    as [cs Hcs].
  destruct (offered_total d (_get_loader d exs) cs Hr) as [items Hoff].
  eexists _, _. apply collect_Ok. split; [done|].
  exists exs, cs, items. repeat split; try done.
  apply in_range_Forall.
  destruct (collected_items _ _ _ _ _ _ _ Hex Hcs Hoff) as [_ Hall].
  apply examples_of_ok in Hex as [_ Hexs]. rewrite Forall_forall in Hexs.
  eapply Forall_impl; [exact Hall|].
  intros it (b & c & i & ex & Hin & _ & Hid & _).
  rewrite <- Hid. by apply Hexs.
Qed.

(** ** What a queue holds *)

Lemma queue_sorted (top_n : Z) (items : list Item) :
  StronglySorted item_le (fold_left (offer top_n) items []).
Proof. by destruct (top_of_fold top_n items) as [H _]. Qed.

Lemma queue_length (top_n : Z) (items : list Item) :
  length (fold_left (offer top_n) items [])
  = Nat.min (Z.to_nat top_n) (length items).
Proof. by destruct (top_of_fold top_n items) as (_ & H & _). Qed.

Lemma queue_submseteq (top_n : Z) (items : list Item) :
  fold_left (offer top_n) items [] ⊆+ items.
Proof.
  destruct (top_of_fold top_n items) as (_ & _ & dropped & Hp & _).
  etrans; [apply (submseteq_inserts_r dropped); reflexivity|].
  apply Permutation_submseteq. by symmetry.
Qed.

Lemma queue_elem_of (top_n : Z) (items : list Item) (it : Item) :
  it ∈ fold_left (offer top_n) items [] -> it ∈ items.
Proof. intros H. by eapply elem_of_submseteq; [|apply queue_submseteq]. Qed.

Lemma queue_keys_NoDup (top_n : Z) (items : list Item) :
  NoDup (item_key <$> items) ->
  NoDup (item_key <$> fold_left (offer top_n) items []).
Proof.
  destruct (top_of_fold top_n items) as (_ & _ & dropped & Hp & _).
  rewrite Hp at 1. rewrite fmap_app. by intros (H & _)%NoDup_app.
Qed.

Lemma query_items_elem_of (q : nat) (items : list Item) (it : Item) :
  it ∈ query_items q items <-> (item_key it).1.1 = q /\ it ∈ items.
Proof. unfold query_items. by rewrite list_elem_of_filter. Qed.

Lemma query_items_keys_NoDup (q : nat) (items : list Item) :
  NoDup (item_key <$> items) -> NoDup (item_key <$> query_items q items).
Proof.
  intros H. eapply sublist_NoDup; [exact H|].
  apply fmap_sublist, sublist_filter.
Qed.

(** ** Arranging the predictions *)

Lemma rev_reverse {A} (l : list A) : rev l = reverse l.
Proof. apply rev_alt. Qed.

Lemma StronglySorted_rev {A} (R : relation A) (l : list A) :
  StronglySorted R l -> StronglySorted (flip R) (rev l).
Proof.
  induction 1 as [|x l Hl IH Hx]; simpl; [constructor|].
  apply StronglySorted_app_2; [|done|repeat constructor].
  intros a b Ha Hb. apply list_elem_of_singleton in Hb as ->.
  rewrite Forall_forall in Hx. apply Hx.
  by apply list_elem_of_In, in_rev, list_elem_of_In.
Qed.

Lemma StronglySorted_Forall2 {A B} (R : relation A) (R' : relation B)
    (Q : A -> B -> Prop) (l : list A) (k : list B) :
  (forall a b a' b', R a b -> Q a a' -> Q b b' -> R' a' b') ->
  Forall2 Q l k -> StronglySorted R l -> StronglySorted R' k.
Proof.
  intros HR HF. induction HF as [|a a' l k Ha HF IH]; intros Hs;
    [constructor|].
  apply StronglySorted_cons in Hs as [Hx Hs]. apply StronglySorted_cons.
  split; [|by apply IH].
  rewrite Forall_forall in Hx. apply Forall_forall. intros b' Hb'.
  apply list_elem_of_lookup in Hb' as [i Hi].
  destruct (Forall2_lookup_r _ _ _ _ _ HF Hi) as (b & Hb & Hq).
  eapply HR; [|exact Ha|exact Hq]. apply Hx. by eapply list_elem_of_lookup_2.
Qed.

(** A prediction carries the score of the item it is made from. *)
Lemma make_prediction_score (d : DrQA) rc all_docids all_doc_scores
    q_tokens s_tokens (it : Item) (p : Prediction) :
  make_prediction d rc all_docids all_doc_scores q_tokens s_tokens it = Ok p ->
  span_score p = item_score it.
Proof.
  destruct it as [[[score [[qidx rel_didx] sidx]] s] e].
  unfold make_prediction, item_score. simpl.
  destruct (reader_model d);
    repeat match goal with
      | |- context [or_raise _ ?o] => destruct o; simpl; [|done]
      end;
    destruct rc;
    repeat match goal with
      | |- context [or_raise _ ?o] => destruct o; simpl; [|done]
      end;
    by intros [= <-].
Qed.

(** The predictions of a queue: its items from the greatest to the
    smallest, each turned into a prediction. *)
Lemma arrange_queue_Ok (d : DrQA) rc all_docids all_doc_scores
    q_tokens s_tokens (queue : heap) (ps : list Prediction) :
  arrange_queue d rc all_docids all_doc_scores q_tokens s_tokens queue = Ok ps
  <-> Forall2 (fun it p =>
                 make_prediction d rc all_docids all_doc_scores q_tokens
                   s_tokens it = Ok p) (rev (drain queue)) ps.
Proof.
  unfold arrange_queue. split.
  - destruct (rmap _ _) as [ps'|] eqn:E; simpl; [|done]. intros [= <-].
    apply rmap_Forall2 in E. rewrite !rev_reverse. by apply Forall2_reverse.
  - intros H. rewrite !rev_reverse in H. apply Forall2_reverse in H.
    rewrite reverse_involutive in H. apply rmap_Forall2 in H.
    rewrite H. simpl. by rewrite rev_reverse, reverse_involutive.
Qed.

Lemma arrange_queue_sorted (d : DrQA) rc all_docids all_doc_scores
    q_tokens s_tokens (queue : heap) (ps : list Prediction) :
  StronglySorted item_le queue ->
  arrange_queue d rc all_docids all_doc_scores q_tokens s_tokens queue = Ok ps
  -> StronglySorted (fun p1 p2 => span_score p2 <= span_score p1) ps.
Proof.
  intros Hs H. apply arrange_queue_Ok in H. rewrite drain_all in H.
  eapply (StronglySorted_Forall2 (flip item_le)); [|exact H|].
  - intros a b p1 p2 Hab H1 H2.
    rewrite (make_prediction_score _ _ _ _ _ _ _ _ H1).
    rewrite (make_prediction_score _ _ _ _ _ _ _ _ H2).
    by apply item_le_score.
  - by apply StronglySorted_rev.
Qed.

(** ** The final loop *)

Lemma process_batch_run (d : DrQA) queries candidates (top_n n_docs : Z)
    (rc : bool) t c :
  collect d queries candidates top_n n_docs [] = (t, Ok c) ->
  process_batch d queries candidates top_n n_docs rc []
  = (t, rmap (arrange_queue d rc (all_docids c) (all_doc_scores c)
                (q_tokens c) (s_tokens c)) (queues c)).
Proof. intros H. unfold process_batch. by rewrite (bind_ok _ _ _ _ _ H). Qed.

Lemma process_batch_raise (d : DrQA) queries candidates (top_n n_docs : Z)
    (rc : bool) t e :
  collect d queries candidates top_n n_docs [] = (t, Raise e) ->
  process_batch d queries candidates top_n n_docs rc [] = (t, Raise e).
Proof. intros H. unfold process_batch. by rewrite (bind_raise _ _ _ _ _ H). Qed.

Lemma docids_of_lookup (d : DrQA) (queries : list str) (n_docs : Z)
    (q : nat) (docids : list str) :
  docids_of d queries n_docs !! q = Some docids ->
  exists query,
    queries !! q = Some query /\
    docids = (closest_docs d query n_docs).1 /\
    doc_scores_of d queries n_docs !! q = Some (closest_docs d query n_docs).2.
Proof.
  unfold docids_of, doc_scores_of, ranked_of. rewrite !list_lookup_fmap.
  destruct (queries !! q) as [query|]; simpl; [|done].
  intros [= <-]. by exists query.
Qed.

Lemma py_index_in_range {A} (l : list A) (i : Z) :
  0 <= i < len l -> exists x, py_index l i = Some x.
Proof.
  unfold py_index, len. intros [H1 H2].
  replace (0 <=? i) with true by (symmetry; by apply Z.leb_le).
  apply lookup_lt_is_Some. lia.
Qed.

(** An item offered in a run becomes a prediction when the ranker and the
    reader honour their contracts. *)
Lemma make_prediction_total (d : DrQA) (rc : bool) (queries : list str)
    (n_docs : Z) (b : list Example) c (i : nat) (ex : Example) (it : Item) :
  reader_contract d -> ranker_contract d ->
  example_ok (docids_of d queries n_docs) (q_tokens_of d queries)
    (s_tokens_of d queries n_docs) ex ->
  b !! i = Some ex -> ex_id ex = item_key it ->
  row_item (predict d b c) (ex_id <$> b) i = Ok (Some it) ->
  exists p,
    make_prediction d rc (docids_of d queries n_docs)
      (doc_scores_of d queries n_docs) (q_tokens_of d queries)
      (s_tokens_of d queries n_docs) it = Ok p.
Proof.
  intros Hreader Hranker (q & toks & docids & Hq & Htoks & Hdocids & Hrel
                          & Hquestion & Hdocument) Hex Hid Hrow.
  apply row_item_Some in Hrow as (scores & starts & ends & Hsc & _ & Hs & He).
  destruct (Hreader b c i ex Hex) as (score_i & Hsc' & Hspans).
  rewrite Hsc in Hsc'. injection Hsc' as <-.
  destruct Hspans as (s0 & s_i & e0 & e_i & Hs' & He' & Hbounds); [done|].
  rewrite Hs in Hs'. injection Hs' as <- <-.
  rewrite He in He'. injection He' as <- <-.
  destruct (docids_of_lookup _ _ _ _ _ Hdocids) as (query & _ & -> & Hscores).
  destruct (lookup_lt_is_Some_2 _ _ Hrel) as [did Hdid].
  destruct (lookup_lt_is_Some_2 (closest_docs d query n_docs).2 (ex_id ex).1.2)
    as [dscore Hdscore]; [by rewrite <- Hranker|].
  rewrite Hid in *. clear Hid.
  destruct it as [[[score [[qidx rel_didx] sidx]] s] e].
  unfold item_key, item_start, item_end in *. simpl in *.
  unfold make_prediction.
  destruct (reader_model d) eqn:Emodel.
  - rewrite Hq, Htoks, Hdocids, Hscores. simpl. rewrite Hdid, Hdscore. simpl.
    destruct rc; eauto.
  - rewrite Hdocids, Htoks, Hscores. simpl. rewrite Hdid, Hdscore. simpl.
    destruct rc; [|eauto].
    destruct (Hbounds eq_refl) as [Hsb Heb].
    assert (len (document ex) = len (offsets toks)) as Hlen.
    { rewrite Hdocument. unfold len, words, offsets.
      by rewrite !length_fmap. }
    rewrite Hlen in Hsb, Heb.
    destruct (py_index_in_range _ _ Hsb) as [so ->].
    destruct (py_index_in_range _ _ Heb) as [eo ->]. simpl. eauto.
Qed.

Lemma arrange_queue_total (d : DrQA) rc all_docids all_doc_scores
    q_tokens s_tokens (queue : heap) :
  Forall (fun it =>
            exists p, make_prediction d rc all_docids all_doc_scores
                        q_tokens s_tokens it = Ok p) queue ->
  exists ps,
    arrange_queue d rc all_docids all_doc_scores q_tokens s_tokens queue
    = Ok ps.
Proof.
  intros H. unfold arrange_queue. rewrite drain_all.
  destruct (rmap_total _ _ H) as [ps ->]. simpl. eauto.
Qed.

Lemma queues_of_elem_of (top_n : Z) (n : nat) (items : list Item)
    (queue : heap) :
  queue ∈ queues_of top_n n items <->
  exists q, (q < n)%nat /\
            queue = fold_left (offer top_n) (query_items q items) [].
Proof.
  unfold queues_of. rewrite list_elem_of_fmap.
  split; intros (q & H1 & H2); exists q.
  - apply elem_of_seq in H2. split; [lia|done].
  - split; [done|]. apply elem_of_seq. lia.
Qed.

(** The items of the queues were offered. *)
Lemma queues_of_items (top_n : Z) (n : nat) (items : list Item)
    (queue : heap) (it : Item) :
  queue ∈ queues_of top_n n items -> it ∈ queue -> it ∈ items.
Proof.
  intros (q & _ & ->)%queues_of_elem_of Hit.
  apply queue_elem_of, query_items_elem_of in Hit. by destruct Hit.
Qed.

(** With a batch that has a query and collaborators that honour their
    contracts, [process_batch] returns the arranged queues. *)
Lemma process_batch_total (d : DrQA) (queries : list str) candidates
    (top_n n_docs : Z) (rc : bool) :
  queries <> [] -> reader_contract d -> ranker_contract d ->
  candidates_ok queries candidates ->
  exists t c preds,
    collect d queries candidates top_n n_docs [] = (t, Ok c) /\
    process_batch d queries candidates top_n n_docs rc [] = (t, Ok preds) /\
    Forall2 (fun queue ps =>
               arrange_queue d rc (all_docids c) (all_doc_scores c)
                 (q_tokens c) (s_tokens c) queue = Ok ps)
            (queues c) preds.
Proof.
  intros Hq Hreader Hranker Hcands.
  destruct (collect_total d queries candidates top_n n_docs Hq Hreader Hcands)
    as (t & c & Hrun).
  exists t, c.
  assert (exists preds,
             rmap (arrange_queue d rc (all_docids c) (all_doc_scores c)
                     (q_tokens c) (s_tokens c)) (queues c) = Ok preds)
    as [preds Hpreds].
  { apply collect_Ok in Hrun as [_ (exs & cs & items & Hex & Hcs & Hoff & Hr
                                    & -> & ->)].
    unfold locals_of. cbn [all_docids all_doc_scores q_tokens s_tokens queues].
    destruct (collected_items _ _ _ _ _ _ _ Hex Hcs Hoff) as [_ Horig].
    rewrite Forall_forall in Horig.
    apply examples_of_ok in Hex as [_ Hexs]. rewrite Forall_forall in Hexs.
    apply rmap_total, Forall_forall. intros queue Hqueue.
    apply arrange_queue_total, Forall_forall. intros it Hit.
    destruct (Horig it (queues_of_items _ _ _ _ _ Hqueue Hit))
      as (b & c & i & ex & Hin & Hi & Hid & Hrow).
    destruct (Hexs ex Hin) as [_ Hok].
    by eapply make_prediction_total. }
  exists preds. split; [done|].
  rewrite (process_batch_run _ _ _ _ _ rc _ _ Hrun), Hpreds.
  split; [done|]. by apply rmap_Forall2.
Qed.

(** ** The small pipeline honours the contracts *)

Lemma demo_reader_contract (model : ReaderModel) (mute : nat -> bool) :
  reader_contract (demo model mute).
Proof.
  intros batch cands i ex Hex. unfold row_ok. simpl.
  rewrite !list_lookup_fmap, Hex. simpl.
  eexists. split; [reflexivity|]. unfold demo_row.
  destruct (mute (ex_id ex).1.1); [done|].
  destruct (document ex) as [|w ws] eqn:E; [done|]. intros _.
  exists 0, [], 0, []. repeat split; try done; unfold len; simpl; lia.
Qed.

Lemma demo_ranker_contract (model : ReaderModel) (mute : nat -> bool) :
  ranker_contract (demo model mute).
Proof.
  intros q k. simpl. unfold demo_rank.
  destruct (decide (q = demo_question)); simpl; by rewrite !length_take.
Qed.

Lemma candidates_ok_None (queries : list str) : candidates_ok queries None.
Proof. by intros H. Qed.

(** ** The calls of a batch *)

Lemma fetch_calls_app (t1 t2 : list Event) :
  fetch_calls (t1 ++ t2) = fetch_calls t1 ++ fetch_calls t2.
Proof. apply omap_app. Qed.

Lemma tokenize_calls_app (t1 t2 : list Event) :
  tokenize_calls (t1 ++ t2) = tokenize_calls t1 ++ tokenize_calls t2.
Proof. apply omap_app. Qed.

Lemma fetch_calls_fetch (l : list str) : fetch_calls (EvFetchText <$> l) = l.
Proof. induction l as [|x l IH]; [done|]. simpl. by f_equal. Qed.

Lemma fetch_calls_tokenize (l : list str) :
  fetch_calls (EvTokenizeText <$> l) = [].
Proof. by induction l. Qed.

Lemma tokenize_calls_tokenize (l : list str) :
  tokenize_calls (EvTokenizeText <$> l) = l.
Proof. induction l as [|x l IH]; [done|]. simpl. by f_equal. Qed.

Lemma tokenize_calls_fetch (l : list str) :
  tokenize_calls (EvFetchText <$> l) = [].
Proof. by induction l. Qed.

Lemma fetch_calls_predict (evs : list Event) :
  Forall is_predict evs -> fetch_calls evs = [].
Proof. induction 1 as [|[] evs Hev _ IH]; done. Qed.

Lemma tokenize_calls_predict (evs : list Event) :
  Forall is_predict evs -> tokenize_calls evs = [].
Proof. induction 1 as [|[] evs Hev _ IH]; done. Qed.

Lemma fetch_calls_rank (queries : list str) (n_docs : Z) (t : list Event) :
  fetch_calls (rank_event queries n_docs :: t) = fetch_calls t.
Proof. by destruct queries as [|q [|q' qs]]. Qed.

Lemma tokenize_calls_rank (queries : list str) (n_docs : Z) (t : list Event) :
  tokenize_calls (rank_event queries n_docs :: t) = tokenize_calls t.
Proof. by destruct queries as [|q [|q' qs]]. Qed.

Lemma fetch_calls_front (d : DrQA) (queries : list str) (n_docs : Z) :
  fetch_calls (front_trace d queries n_docs) = flat_docids_of d queries n_docs.
Proof.
  unfold front_trace. rewrite fetch_calls_rank.
  rewrite !fetch_calls_app, fetch_calls_fetch, !fetch_calls_tokenize.
  by rewrite !app_nil_r.
Qed.

Lemma tokenize_calls_front (d : DrQA) (queries : list str) (n_docs : Z) :
  tokenize_calls (front_trace d queries n_docs)
  = queries ++ flat_splits_of d queries n_docs.
Proof.
  unfold front_trace. rewrite tokenize_calls_rank.
  by rewrite !tokenize_calls_app, tokenize_calls_fetch,
    !tokenize_calls_tokenize.
Qed.

Lemma filter_eq_absent {A} `{EqDecision A} (x : A) (l : list A) :
  x ∉ l -> filter (fun y => y = x) l = [].
Proof.
  induction l as [|y l IH]; [done|]. intros Hx.
  apply not_elem_of_cons in Hx as [Hne Hx].
  rewrite filter_cons_False by congruence. by apply IH.
Qed.

(** A list without repetition holds each of its elements once. *)
Lemma NoDup_count_one {A} `{EqDecision A} (x : A) (l : list A) :
  NoDup l -> x ∈ l -> length (filter (fun y => y = x) l) = 1%nat.
Proof.
  induction 1 as [|y l Hy Hnd IH]; [by intros ?%elem_of_nil|].
  intros Hin. destruct (decide (y = x)) as [->|Hne].
  - rewrite filter_cons_True by done. simpl.
    by rewrite filter_eq_absent.
  - rewrite filter_cons_False by done.
    apply elem_of_cons in Hin as [->|Hin]; [done|]. by apply IH.
Qed.

(** After the tokenizers only the reader is called, whether the run
    returns or raises. *)
Lemma collect_back_trace (d : DrQA) queries candidates (top_n n_docs : Z) t0 :
  exists evs r,
    collect_back d queries candidates top_n n_docs t0 = (t0 ++ evs, r) /\
    Forall is_predict evs.
Proof.
  unfold collect_back. unfold bind at 1. unfold lift at 1.
  destruct (examples_of d queries n_docs) as [exs|e].
  - unfold bind at 1.
    destruct (mapM_read_batch d candidates (s_tokens_of d queries n_docs)
                (_get_loader d exs) t0) as (evs & r & -> & Hev & _).
    destruct r as [hs|e]; [|by exists evs, (Raise e)].
    unfold bind at 1. unfold lift at 1.
    destruct (aggregate _ _ _); eauto.
  - exists [], (Raise e). by rewrite app_nil_r.
Qed.

Lemma process_batch_trace (d : DrQA) queries candidates (top_n n_docs : Z)
    (rc : bool) :
  (process_batch d queries candidates top_n n_docs rc []).1
  = (collect d queries candidates top_n n_docs []).1.
Proof.
  unfold process_batch, bind.
  by destruct (collect _ _ _ _ _ _) as [t [c|e]].
Qed.

Lemma flat_splits_of_concat (d : DrQA) (queries : list str) (n_docs : Z) :
  flat_splits_of d queries n_docs
  = concat ((fun did => _split_doc (GROUP_LENGTH d) (get_doc_text d did))
            <$> flat_docids_of d queries n_docs).
Proof.
  unfold flat_splits_of, doc_texts_of.
  destruct (split_docs_fold d (get_doc_text d <$> flat_docids_of d queries n_docs)
              ([], [])) as (_ & _ & H & _); [done|].
  unfold split_docs. rewrite H. simpl. by rewrite <- list_fmap_compose.
Qed.

(** ** The lists of a batch *)

Lemma arrange_queue_nil (d : DrQA) rc all_docids all_doc_scores
    q_tokens s_tokens :
  arrange_queue d rc all_docids all_doc_scores q_tokens s_tokens [] = Ok [].
Proof. reflexivity. Qed.

Lemma arrange_queue_length (d : DrQA) rc all_docids all_doc_scores
    q_tokens s_tokens (queue : heap) (ps : list Prediction) :
  arrange_queue d rc all_docids all_doc_scores q_tokens s_tokens queue = Ok ps
  -> length ps = length queue.
Proof.
  intros H. apply arrange_queue_Ok in H. apply Forall2_length in H.
  by rewrite <- H, length_rev, drain_all.
Qed.

(** The queue of a question holds items of that question only. *)
Lemma queue_question (top_n : Z) (q : nat) (items : list Item) :
  Forall (fun it => (item_key it).1.1 = q)
         (fold_left (offer top_n) (query_items q items) []).
Proof.
  apply Forall_forall. intros it Hit.
  apply queue_elem_of, query_items_elem_of in Hit. by destruct Hit.
Qed.

(** With [top_n] below one every queue stays empty. *)
Lemma queues_of_no_room (top_n : Z) (n : nat) (items : list Item) :
  top_n < 1 -> queues_of top_n n items = replicate n [].
Proof.
  intros Hn. apply list_eq_same_length with n;
    [apply length_replicate|apply queues_of_length|].
  intros q x y Hq Hx Hy. rewrite queues_of_lookup in Hx by done.
  apply lookup_replicate in Hy as [-> _]. injection Hx as <-.
  apply length_zero_iff_nil. rewrite queue_length. lia.
Qed.

Lemma arrange_all_nil (d : DrQA) rc all_docids all_doc_scores
    q_tokens s_tokens (n : nat) :
  rmap (arrange_queue d rc all_docids all_doc_scores q_tokens s_tokens)
       (replicate n [])
  = Ok (replicate n []).
Proof. induction n as [|n IH]; [done|]. simpl. by rewrite IH. Qed.

(** [process] is [process_batch] on a batch of one. *)
Lemma process_run (d : DrQA) (query : str) (cands : option (list str))
    (top_n n_docs : Z) (rc : bool) t ps preds :
  process_batch d [query] (if truthy cands then Some [cands] else None)
    top_n n_docs rc [] = (t, Ok (ps :: preds)) ->
  process d query cands top_n n_docs rc [] = (t, Ok ps).
Proof. intros H. unfold process. by rewrite (bind_ok _ _ _ _ _ H). Qed.

Lemma candidates_ok_single (query : str) (cands : option (list str)) :
  candidates_ok [query] (if truthy cands then Some [cands] else None).
Proof. destruct (truthy cands); [simpl; by intros _|by intros ?]. Qed.

Lemma queues_of_nil (top_n : Z) (n : nat) :
  queues_of top_n n [] = replicate n [].
Proof.
  apply list_eq_same_length with n;
    [apply length_replicate|apply queues_of_length|].
  intros q x y Hq Hx Hy. rewrite queues_of_lookup in Hx by done.
  apply lookup_replicate in Hy as [-> _]. by injection Hx as <-.
Qed.

(** A batch whose queries have no ranked document has no document, no
    passage and no example. *)
Lemma no_ranked_documents (d : DrQA) (queries : list str) (n_docs : Z)
    (exs : list Example) :
  (forall query, query ∈ queries -> (closest_docs d query n_docs).1 = []) ->
  examples_of d queries n_docs = Ok exs ->
  flat_docids_of d queries n_docs = [] /\
  flat_splits_of d queries n_docs = [] /\
  exs = [].
Proof.
  intros Hnone Hexs.
  assert (forall q docids,
             docids_of d queries n_docs !! q = Some docids -> docids = [])
    as Hdocs.
  { intros q docids Hd.
    destruct (docids_of_lookup _ _ _ _ _ Hd) as (query & Hquery & -> & _).
    apply Hnone. by eapply list_elem_of_lookup_2. }
  assert (flat_docids_of d queries n_docs = []) as Hflat.
  { destruct (flat_docids_of d queries n_docs) as [|did l] eqn:E; [done|].
    assert (did ∈ flat_docids_of d queries n_docs) as Hin
        by (rewrite E; by left).
    apply flatten_docids_elem_of in Hin as (docids & Hd & Hdid).
    apply list_elem_of_lookup in Hd as [q Hq].
    rewrite (Hdocs q docids Hq) in Hdid. by apply elem_of_nil in Hdid. }
  split; [done|]. split; [by rewrite flat_splits_of_concat, Hflat|].
  destruct exs as [|ex exs]; [done|].
  apply examples_of_ok in Hexs as [_ Hall].
  apply Forall_cons in Hall as [[_ Hok] _].
  destruct Hok as (q & toks & docids & _ & _ & Hd & Hlt & _).
  rewrite (Hdocs _ _ Hd) in Hlt. simpl in Hlt. lia.
Qed.

(** The reader calls of a run that returns: one per batch, each with the
    restrictions made for the batch. *)
Lemma item_call (d : DrQA) (queries : list str) candidates (n_docs : Z)
    (exs : list Example) cs (items : list Item) (it : Item) :
  rmap (batch_cands_of d candidates (s_tokens_of d queries n_docs))
       (_get_loader d exs) = Ok cs ->
  offered (zip_with (handle_of d) (_get_loader d exs) cs) = Ok items ->
  it ∈ items ->
  exists b c i ex,
    EvPredict b c ∈ zip_with EvPredict (_get_loader d exs) cs /\
    b !! i = Some ex /\ ex_id ex = item_key it /\
    row_item (predict d b c) (ex_id <$> b) i = Ok (Some it).
Proof.
  intros Hcs Hoff Hit.
  destruct (offered_origin d candidates _ _ _ _ (zip_with_handles _ _ _ _ _ Hcs)
              Hoff) as [_ Horig].
  rewrite Forall_forall in Horig.
  destruct (Horig it Hit) as (b & c & i & ex & Hb & Hc & Hi & Hid & Hrow).
  exists b, c, i, ex. split; [|done].
  apply rmap_Forall2 in Hcs. apply list_elem_of_lookup in Hb as [j Hj].
  destruct (Forall2_lookup_l _ _ _ _ _ Hcs Hj) as (c' & Hc' & Hbc).
  rewrite Hc in Hbc. injection Hbc as <-.
  apply list_elem_of_lookup. exists j.
  by rewrite lookup_zip_with, Hj; simpl; rewrite Hc'.
Qed.

(** * The claims *)

(** C1 (as amended): after any prefix of the items offered to a queue, the
    queue holds at most [top_n] items (none when [top_n] is not positive),
    and they are the [top_n] greatest items offered so far in the order of
    the tuples (score, key, start, end), all of them when fewer were
    offered; no item held has a lower score than an item left out.  The
    next item is inserted when the queue is below [top_n]; on a full queue
    it replaces the smallest item [m] when [m < x] as tuples, which is the
    case whenever its score is higher, and it is discarded otherwise, in
    particular when its score is lower. *)
Theorem aggregation_keeps_top_n (top_n : Z) (items : list Item) (k : nat) :
  let seen := take k items in
  let queue := fold_left (offer top_n) seen [] in
  len queue <= Z.max 0 top_n /\
  top_of (Z.to_nat top_n) seen queue /\
  (exists dropped,
      seen ≡ₚ queue ++ dropped /\
      forall a b, a ∈ queue -> b ∈ dropped -> item_score b <= item_score a) /\
  forall x : Item,
    (len queue < top_n -> offer top_n queue x ≡ₚ x :: queue) /\
    (top_n <= len queue -> queue = [] -> offer top_n queue x = []) /\
    forall m rest,
      top_n <= len queue -> queue = m :: rest ->
      (forall y, y ∈ queue -> item_le m y) /\
      (item_lt m x = true -> offer top_n queue x ≡ₚ x :: rest) /\
      (item_lt m x = false -> offer top_n queue x = queue) /\
      (item_score m < item_score x -> item_lt m x = true) /\
      (item_score x < item_score m -> item_lt m x = false).
Proof.
  intros seen queue.
  pose proof (top_of_fold top_n seen) as Htop. fold queue in Htop.
  split.
  { destruct Htop as (_ & Hlen & _). unfold len. lia. }
  split; [exact Htop|]. split.
  { destruct Htop as (_ & _ & dropped & Hp & Hord). exists dropped.
    split; [done|]. intros a b Ha Hb. by apply item_le_score, Hord. }
  intros x. split.
  { intros Hlt. rewrite offer_below by done. apply heap_insert_perm. }
  split.
  { intros Hge ->. apply offer_no_room. by unfold len in Hge. }
  intros m rest Hge Hq. rewrite Hq in *. split.
  { destruct Htop as (Hs & _). apply StronglySorted_cons in Hs as [Hm _].
    rewrite Forall_forall in Hm. intros y Hy.
    apply elem_of_cons in Hy as [->|Hy]; [apply item_le_refl|by apply Hm]. }
  split.
  { intros E. rewrite offer_replace by done. apply heap_insert_perm. }
  split; [intros E; by apply offer_discard|].
  split; [apply item_lt_score|].
  intros Hlt. apply item_lt_asym. by apply item_lt_score.
Qed.

(** C1, as stated, fails on a tie: with [top_n = 1] and a queue holding a
    span of score 5, an incoming span of the same score, hence not
    exceeding the minimum, whose key is greater is not discarded; it
    replaces the span held. *)
Lemma offer_tie_counterexample :
  fold_left (offer 1) [(5, (0, 0, 0)%nat, 0, 0)] [] = [(5, (0, 0, 0)%nat, 0, 0)]
  /\ item_score (5, (0, 0, 1)%nat, 0, 0) <= item_score (5, (0, 0, 0)%nat, 0, 0)
  /\ offer 1 [(5, (0, 0, 0)%nat, 0, 0)] (5, (0, 0, 1)%nat, 0, 0)
     = [(5, (0, 0, 1)%nat, 0, 0)].
Proof. split; [reflexivity|]. split; [|reflexivity]. unfold item_score. simpl. lia. Qed.

(** C4: the same items offered in two orders leave the same queue, so the
    final ranked lists are identical (ties included: items of equal score
    are ordered by the rest of the tuple, whatever the order of arrival). *)
Theorem aggregation_order_insensitive (d : DrQA) (rc : bool)
    (all_docids : list (list str)) (all_doc_scores : list (list Score))
    (q_tokens s_tokens : list Tokens) (top_n : Z) (xs ys : list Item) :
  xs ≡ₚ ys ->
  fold_left (offer top_n) xs [] = fold_left (offer top_n) ys [] /\
  rev (drain (fold_left (offer top_n) xs []))
  = rev (drain (fold_left (offer top_n) ys [])) /\
  arrange_queue d rc all_docids all_doc_scores q_tokens s_tokens
    (fold_left (offer top_n) xs [])
  = arrange_queue d rc all_docids all_doc_scores q_tokens s_tokens
      (fold_left (offer top_n) ys []).
Proof.
  intros Hp. pose proof (fold_offer_perm top_n xs ys Hp) as Heq.
  split; [exact Heq|]. by rewrite Heq.
Qed.

(** C5 (as amended): with a threshold of zero [_split_doc] yields one
    passage per paragraph, in order, none merged and none cut, where the
    paragraphs are the pieces of the text between runs of newlines,
    stripped, the empty ones dropped. *)
Theorem split_doc_zero_paragraphs (doc : str) :
  _split_doc (Chars 0) doc = paragraphs doc /\
  length (_split_doc (Chars 0) doc) = length (paragraphs doc) /\
  forall i p, paragraphs doc !! i = Some p ->
              _split_doc (Chars 0) doc !! i = Some p /\ p <> [].
Proof.
  assert (_split_doc (Chars 0) doc = paragraphs doc) as Heq.
  { rewrite split_doc_pending, split_fold_zero by (simpl; lia).
    reflexivity. }
  rewrite Heq. split; [done|]. split; [done|].
  intros i p Hp. split; [done|].
  apply list_elem_of_lookup_2 in Hp. unfold paragraphs in Hp.
  by apply list_elem_of_filter in Hp as [Hne _].
Qed.

(** C5, as stated, fails: the text [a], newline, [b] has no blank line, so
    it is one paragraph in the words of the specification, and
    [_split_doc] cuts it into two passages. *)
Lemma split_doc_blank_line_counterexample :
  spec_paragraphs [97; 10; 98]%N = [[97; 10; 98]%N] /\
  _split_doc (Chars 0) [97; 10; 98]%N = [[97]%N; [98]%N].
Proof. split; vm_compute; reflexivity. Qed.

(** C4, on three spans offered in two orders to a queue of two. *)
Lemma aggregation_order_insensitive_witness :
  fold_left (offer 2)
    [(3, (0, 0, 0)%nat, 0, 1); (7, (0, 0, 1)%nat, 2, 2); (7, (0, 1, 2)%nat, 0, 0)]
    []
  = fold_left (offer 2)
      [(7, (0, 1, 2)%nat, 0, 0); (3, (0, 0, 0)%nat, 0, 1); (7, (0, 0, 1)%nat, 2, 2)]
      [].
Proof.
  apply (aggregation_order_insensitive (demo Transformer (fun _ => false))
           false [] [] [] [] 2).
  symmetry.
  exact (Permutation_cons_append
           [(3, (0, 0, 0)%nat, 0, 1); (7, (0, 0, 1)%nat, 2, 2)]
           (7, (0, 1, 2)%nat, 0, 0)).
Defined.

(** C6: in the transformer variant a start or end index is moved back by
    the length of the question plus two and clamped at zero: an index below
    that offset decodes to the first token of the passage, never to a
    negative index, and the span is cut out of the passage at the decoded
    indices. *)
Theorem transformer_span_clamped (d : DrQA) (rc : bool)
    (all_docids : list (list str)) (all_doc_scores : list (list Score))
    (q_tokens s_tokens : list Tokens) (score : Score) (qidx rel_didx sidx : nat)
    (s e : Z) (q toks : Tokens) (p : Prediction) :
  reader_model d = Transformer ->
  q_tokens !! qidx = Some q -> s_tokens !! sidx = Some toks ->
  make_prediction d rc all_docids all_doc_scores q_tokens s_tokens
    (score, (qidx, rel_didx, sidx), s, e) = Ok p ->
  local_index q s = Z.max 0 (s - (len q + 2)) /\
  local_index q e = Z.max 0 (e - (len q + 2)) /\
  0 <= local_index q s /\ 0 <= local_index q e /\
  (s < len q + 2 -> local_index q s = 0) /\
  (e < len q + 2 -> local_index q e = 0) /\
  span p
  = join [SP] (py_slice (words toks) (local_index q s) (local_index q e + 1)).
Proof.
  intros Hmodel Hq Htoks Hp.
  split; [reflexivity|]. split; [reflexivity|].
  split; [apply local_index_nonneg|]. split; [apply local_index_nonneg|].
  split; [unfold local_index, sep_offset; lia|].
  split; [unfold local_index, sep_offset; lia|].
  unfold make_prediction in Hp. rewrite Hmodel, Hq, Htoks in Hp.
  simpl in Hp.
  destruct (all_docids !! qidx) as [docids|]; simpl in Hp; [|done].
  destruct (docids !! rel_didx) as [did|]; simpl in Hp; [|done].
  destruct (all_doc_scores !! qidx) as [dscores|]; simpl in Hp; [|done].
  destruct (dscores !! rel_didx) as [dscore|]; simpl in Hp; [|done].
  destruct rc; by injection Hp as <-.
Qed.

(** C6, on a question of three tokens: the raw indices 2 and 6 decode to
    the tokens 0 and 1 of the passage. *)
Lemma transformer_span_clamped_witness :
  local_index (demo_tokenize demo_question) 2 = 0 /\
  span (mkPrediction (of_string "d1")
          (of_string "William Shakespeare") 9 4 None)
  = join [SP]
      (py_slice (words (demo_tokenize (of_string "William Shakespeare wrote")))
         (local_index (demo_tokenize demo_question) 2)
         (local_index (demo_tokenize demo_question) 6 + 1)).
Proof.
  pose proof (transformer_span_clamped (demo Transformer (fun _ => false))
                false [[of_string "d1"]] [[9]]
                [demo_tokenize demo_question]
                [demo_tokenize (of_string "William Shakespeare wrote")]
                4 0 0 0 2 6 (demo_tokenize demo_question)
                (demo_tokenize (of_string "William Shakespeare wrote"))
                (mkPrediction (of_string "d1")
                   (of_string "William Shakespeare") 9 4 None)
                eq_refl eq_refl eq_refl eq_refl)
    as (_ & _ & _ & _ & Hs & _ & Hspan).
  split; [apply Hs; vm_compute; reflexivity|exact Hspan].
Defined.

(** C9: the ranges recorded while the documents are split are half-open
    intervals that follow one another: the first starts at 0, each starts
    where the one before ends, the last ends at the number of passages, the
    range of a document holds its passages, and every passage index has
    exactly one owner. *)
Theorem passage_ranges_contiguous (d : DrQA) (doc_texts : list str) :
  let flat_splits := (split_docs d doc_texts).1 in
  let didx2sidx := (split_docs d doc_texts).2 in
  length didx2sidx = length doc_texts /\
  consecutive 0 didx2sidx (length flat_splits) /\
  (forall didx text r,
      doc_texts !! didx = Some text -> didx2sidx !! didx = Some r ->
      take (r.2 - r.1) (drop r.1 flat_splits)
      = _split_doc (GROUP_LENGTH d) text) /\
  (forall i, (i < length flat_splits)%nat ->
      exists didx r,
        didx2sidx !! didx = Some r /\ owns r i /\
        forall didx' r',
          didx2sidx !! didx' = Some r' -> owns r' i -> didx' = didx).
Proof.
  destruct (split_docs_fold d doc_texts ([], [])) as (H1 & H2 & H3 & H4 & H5);
    [done|].
  fold (split_docs d doc_texts) in H1, H2, H3, H4, H5.
  split; [done|]. split; [done|]. split.
  - intros didx text r Ht Hl. by apply (H5 didx text r).
  - intros i Hi. eapply consecutive_owner; [done|lia].
Qed.

(** C3: in a batch call the document store is asked once for each
    identifier that some query ranks, and for no other; the tokenizer is
    run on the queries and then once on each passage of each fetched
    document, however many queries rank the document. *)
Theorem documents_fetched_once (d : DrQA) (queries : list str)
    (candidates : option (list (option (list str)))) (top_n n_docs : Z)
    (rc : bool) :
  let t := (process_batch d queries candidates top_n n_docs rc []).1 in
  NoDup (fetch_calls t) /\
  (forall did,
      did ∈ fetch_calls t <->
      exists docids, docids ∈ docids_of d queries n_docs /\ did ∈ docids) /\
  (forall did docids,
      docids ∈ docids_of d queries n_docs -> did ∈ docids ->
      length (filter (fun x => x = did) (fetch_calls t)) = 1%nat) /\
  tokenize_calls t
  = queries
    ++ concat ((fun did => _split_doc (GROUP_LENGTH d) (get_doc_text d did))
               <$> fetch_calls t).
Proof.
  intros t.
  assert (fetch_calls t = flat_docids_of d queries n_docs /\
          tokenize_calls t = queries ++ flat_splits_of d queries n_docs)
    as [Hf Ht].
  { unfold t. rewrite process_batch_trace.
    destruct queries as [|q queries]; [by rewrite collect_empty|].
    rewrite collect_front by done.
    destruct (collect_back_trace d (q :: queries) candidates top_n n_docs
                (front_trace d (q :: queries) n_docs))
      as (evs & r & -> & Hev).
    cbn [fst].
    rewrite fetch_calls_app, tokenize_calls_app.
    rewrite fetch_calls_front, tokenize_calls_front.
    rewrite (fetch_calls_predict _ Hev), (tokenize_calls_predict _ Hev).
    by rewrite !app_nil_r. }
  rewrite Hf, Ht.
  assert (NoDup (flat_docids_of d queries n_docs)) as Hnd
      by apply flatten_docids_NoDup.
  split; [done|]. split; [intros did; apply flatten_docids_elem_of|].
  split; [|by rewrite flat_splits_of_concat].
  intros did docids Hdocids Hdid.
  assert (did ∈ flat_docids_of d queries n_docs) as Hin
      by (apply flatten_docids_elem_of; eauto).
  by apply NoDup_count_one.
Qed.

(** C2 fails on the empty batch: the ranker answers no ranking, the
    unpacking [all_docids, all_doc_scores = zip( *ranked)] finds nothing to
    unpack and raises [ValueError], where the claim promises the empty list
    of lists. *)
Theorem process_batch_empty_batch (d : DrQA)
    (candidates : option (list (option (list str)))) (top_n n_docs : Z)
    (rc : bool) :
  process_batch d [] candidates top_n n_docs rc []
  = ([EvBatchClosestDocs [] n_docs], Raise ValueError).
Proof.
  apply process_batch_raise. apply collect_empty.
Qed.

(** For a batch with at least one query, and collaborators that honour
    their contracts, [process_batch] returns one list per query, in the
    order of the queries: the list of query [q] is made from the queue of
    [q], popped from its smallest item and then reversed; it has at most
    [top_n] predictions, in descending order of span score. *)
Theorem process_batch_lists (d : DrQA) (queries : list str)
    (candidates : option (list (option (list str)))) (top_n n_docs : Z)
    (rc : bool) :
  queries <> [] -> reader_contract d -> ranker_contract d ->
  candidates_ok queries candidates ->
  exists t c preds,
    collect d queries candidates top_n n_docs [] = (t, Ok c) /\
    process_batch d queries candidates top_n n_docs rc [] = (t, Ok preds) /\
    length preds = length queries /\
    forall q ps,
      preds !! q = Some ps ->
      (exists queue,
          queues c !! q = Some queue /\
          Forall (fun it => (item_key it).1.1 = q) queue /\
          Forall2 (fun it p =>
                     make_prediction d rc (all_docids c) (all_doc_scores c)
                       (q_tokens c) (s_tokens c) it = Ok p)
                  (rev (drain queue)) ps) /\
      len ps <= Z.max 0 top_n /\
      StronglySorted (fun p1 p2 => span_score p2 <= span_score p1) ps.
Proof.
  intros Hq Hreader Hranker Hcands.
  destruct (process_batch_total d queries candidates top_n n_docs rc
              Hq Hreader Hranker Hcands) as (t & c & preds & Hrun & Hpb & HF).
  exists t, c, preds. split; [done|]. split; [done|].
  apply collect_Ok in Hrun as [_ (exs & cs & items & _ & _ & _ & _ & _ & ->)].
  unfold locals_of in *.
  cbn [all_docids all_doc_scores q_tokens s_tokens queues] in *.
  split.
  { apply Forall2_length in HF. by rewrite <- HF, queues_of_length. }
  intros q ps Hps.
  destruct (Forall2_lookup_r _ _ _ _ _ HF Hps) as (queue & Hqueue & Harr).
  assert (q < length queries)%nat as Hlt.
  { apply lookup_lt_Some in Hqueue. by rewrite queues_of_length in Hqueue. }
  rewrite queues_of_lookup in Hqueue by done. injection Hqueue as <-.
  split.
  { eexists. split; [by apply queues_of_lookup|].
    split; [apply queue_question|]. by apply arrange_queue_Ok. }
  split.
  { unfold len. rewrite (arrange_queue_length _ _ _ _ _ _ _ _ Harr).
    rewrite queue_length. lia. }
  eapply arrange_queue_sorted; [apply queue_sorted|exact Harr].
Qed.

(** The small pipeline on its two queries returns two lists. *)
Lemma process_batch_lists_witness :
  exists t c preds,
    collect (demo WordTagging (fun _ => false)) demo_queries None 2 5 []
    = (t, Ok c) /\
    process_batch (demo WordTagging (fun _ => false)) demo_queries None 2 5
      true [] = (t, Ok preds) /\
    length preds = length demo_queries.
Proof.
  destruct (process_batch_lists (demo WordTagging (fun _ => false))
              demo_queries None 2 5 true)
    as (t & c & preds & H1 & H2 & H3 & _).
  - discriminate.
  - apply demo_reader_contract.
  - apply demo_ranker_contract.
  - apply candidates_ok_None.
  - exists t, c, preds. auto.
Defined.

(** C7 (as amended): [top_n] and [n_docs] are not validated and no error
    is raised for them.  On a batch with a query, with collaborators that
    honour their contracts, a call with [top_n < 1] or [n_docs < 1] calls
    the ranker once with [k = n_docs] as given, fetches every distinct
    document the ranker returned, tokenizes the queries and the passages
    of these documents, calls the reader once for every batch of examples,
    and returns one list per query; with [top_n < 1] every list is empty.
    When the ranker returns no document for any query, as it would for
    [k < 1], the calls are the ranker call and the tokenization of the
    queries, neither the document store nor the reader is called, and
    every list is empty.  [process] does the same on its query. *)
Theorem sizes_not_validated (d : DrQA) (queries : list str)
    (candidates : option (list (option (list str)))) (top_n n_docs : Z)
    (rc : bool) :
  top_n < 1 \/ n_docs < 1 ->
  queries <> [] -> reader_contract d -> ranker_contract d ->
  candidates_ok queries candidates ->
  (exists exs cs preds,
      examples_of d queries n_docs = Ok exs /\
      length cs = length (_get_loader d exs) /\
      process_batch d queries candidates top_n n_docs rc []
      = (rank_event queries n_docs
         :: (EvFetchText <$> flat_docids_of d queries n_docs)
         ++ (EvTokenizeText <$> queries)
         ++ (EvTokenizeText <$> flat_splits_of d queries n_docs)
         ++ zip_with EvPredict (_get_loader d exs) cs,
         Ok preds) /\
      length preds = length queries /\
      (top_n < 1 -> preds = replicate (length queries) []) /\
      ((forall query,
           query ∈ queries -> (closest_docs d query n_docs).1 = []) ->
       process_batch d queries candidates top_n n_docs rc []
       = (rank_event queries n_docs :: (EvTokenizeText <$> queries),
          Ok (replicate (length queries) [])))) /\
  forall query cands,
    exists exs cs ps,
      examples_of d [query] n_docs = Ok exs /\
      length cs = length (_get_loader d exs) /\
      process d query cands top_n n_docs rc []
      = (EvClosestDocs query n_docs
         :: (EvFetchText <$> flat_docids_of d [query] n_docs)
         ++ [EvTokenizeText query]
         ++ (EvTokenizeText <$> flat_splits_of d [query] n_docs)
         ++ zip_with EvPredict (_get_loader d exs) cs,
         Ok ps) /\
      (top_n < 1 -> ps = []) /\
      ((closest_docs d query n_docs).1 = [] ->
       process d query cands top_n n_docs rc []
       = ([EvClosestDocs query n_docs; EvTokenizeText query], Ok [])).
Proof.
  intros _ Hq Hreader Hranker Hcands.
  assert (forall queries candidates,
             queries <> [] -> candidates_ok queries candidates ->
             exists exs cs preds,
               examples_of d queries n_docs = Ok exs /\
               length cs = length (_get_loader d exs) /\
               process_batch d queries candidates top_n n_docs rc []
               = (front_trace d queries n_docs
                  ++ zip_with EvPredict (_get_loader d exs) cs, Ok preds) /\
               length preds = length queries /\
               (top_n < 1 -> preds = replicate (length queries) []) /\
               ((forall query,
                    query ∈ queries -> (closest_docs d query n_docs).1 = []) ->
                process_batch d queries candidates top_n n_docs rc []
                = (rank_event queries n_docs :: (EvTokenizeText <$> queries),
                   Ok (replicate (length queries) []))))
    as Hbatch.
  { clear queries candidates Hq Hcands. intros queries candidates Hq Hcands.
    destruct (process_batch_total d queries candidates top_n n_docs rc
                Hq Hreader Hranker Hcands)
      as (t & c & preds & Hrun & Hpb & HF).
    apply collect_Ok in Hrun
        as [_ (exs & cs & items & Hexs & Hcs & Hoff & _ & -> & Hc)].
    exists exs, cs, preds. split; [done|].
    split; [by apply rmap_length in Hcs|]. split; [done|].
    rewrite Hc in HF. unfold locals_of in HF.
    cbn [all_docids all_doc_scores q_tokens s_tokens queues] in HF.
    split.
    { apply Forall2_length in HF. by rewrite <- HF, queues_of_length. }
    split.
    { intros Hn. rewrite queues_of_no_room in HF by done.
      apply rmap_Forall2 in HF. rewrite arrange_all_nil in HF.
      by injection HF as <-. }
    intros Hnone.
    destruct (no_ranked_documents _ _ _ _ Hnone Hexs) as (Hflat & Hsplits & ->).
    apply rmap_length in Hcs as Hlen.
    change (_get_loader d []) with (@nil (list Example)) in *.
    destruct cs; [|done]. simpl in Hoff. injection Hoff as <-.
    rewrite queues_of_nil in HF. apply rmap_Forall2 in HF.
    rewrite arrange_all_nil in HF. injection HF as <-.
    rewrite Hpb. unfold front_trace. rewrite Hflat, Hsplits. simpl.
    by rewrite !app_nil_r. }
  split.
  { destruct (Hbatch queries candidates Hq Hcands)
      as (exs & cs & preds & Hexs & Hlen & Hpb & Hrest).
    exists exs, cs, preds. split; [done|]. split; [done|]. split; [|done].
    rewrite Hpb. unfold front_trace. simpl. by rewrite <- !app_assoc. }
  intros query cands.
  destruct (Hbatch [query] (if truthy cands then Some [cands] else None))
    as (exs & cs & preds & Hexs & Hlen & Hpb & Hlp & Hempty & Hnone);
    [done|apply candidates_ok_single|].
  destruct preds as [|ps [|? ?]]; [done| |done].
  exists exs, cs, ps. split; [done|]. split; [done|].
  split.
  { rewrite (process_run _ _ _ _ _ _ _ _ _ Hpb). unfold front_trace. simpl.
    by rewrite <- !app_assoc. }
  split.
  { intros Hn. specialize (Hempty Hn). by injection Hempty as ->. }
  intros Hq0.
  assert (forall query', query' ∈ [query] ->
                         (closest_docs d query' n_docs).1 = []) as Hall.
  { by intros ? ->%list_elem_of_singleton. }
  specialize (Hnone Hall). simpl in Hnone.
  by rewrite (process_run _ _ _ _ _ _ _ _ _ Hnone).
Qed.

(** C7, as stated, fails.  With [top_n = 0] and [n_docs = 0] the small
    pipeline raises nothing: it calls the ranker with [k = 0], which
    returns no document, tokenizes its two queries and returns an empty
    list for each.  With [top_n = 0] and [n_docs = 5] it raises nothing
    either: it calls the ranker with [k = 5], fetches its two documents,
    runs the tokenizer on the two queries and the four passages and the
    reader on three batches, twelve calls in all, and returns an empty
    list for each query. *)
Lemma sizes_not_validated_counterexample :
  process_batch (demo WordTagging (fun _ => false)) demo_queries None 0 0
    false []
  = ([EvBatchClosestDocs demo_queries 0; EvTokenizeText demo_question;
      EvTokenizeText (of_string "x")], Ok [[]; []]) /\
  process (demo WordTagging (fun _ => false)) demo_question None 0 0 false []
  = ([EvClosestDocs demo_question 0; EvTokenizeText demo_question], Ok []) /\
  (process_batch (demo WordTagging (fun _ => false)) demo_queries None 0 5
     false []).2 = Ok [[]; []] /\
  head (process_batch (demo WordTagging (fun _ => false)) demo_queries None
          0 5 false []).1 = Some (EvBatchClosestDocs demo_queries 5) /\
  length (fetch_calls
            (process_batch (demo WordTagging (fun _ => false)) demo_queries
               None 0 5 false []).1) = 2%nat /\
  length (tokenize_calls
            (process_batch (demo WordTagging (fun _ => false)) demo_queries
               None 0 5 false []).1) = 6%nat /\
  length (process_batch (demo WordTagging (fun _ => false)) demo_queries
            None 0 5 false []).1 = 12%nat.
Proof. repeat split; vm_compute; reflexivity. Qed.

(** The small pipeline with [top_n = 0]. *)
Lemma sizes_not_validated_witness :
  exists exs cs,
    process_batch (demo WordTagging (fun _ => false)) demo_queries None 0 5
      false []
    = (rank_event demo_queries 5
       :: (EvFetchText
             <$> flat_docids_of (demo WordTagging (fun _ => false))
                   demo_queries 5)
       ++ (EvTokenizeText <$> demo_queries)
       ++ (EvTokenizeText
             <$> flat_splits_of (demo WordTagging (fun _ => false))
                   demo_queries 5)
       ++ zip_with EvPredict
            (_get_loader (demo WordTagging (fun _ => false)) exs) cs,
       Ok [[]; []]).
Proof.
  destruct (sizes_not_validated (demo WordTagging (fun _ => false))
              demo_queries None 0 5 false)
    as [(exs & cs & preds & _ & _ & Hpb & _ & Hempty & _) _].
  - left. lia.
  - discriminate.
  - apply demo_reader_contract.
  - apply demo_ranker_contract.
  - apply candidates_ok_None.
  - exists exs, cs. rewrite Hpb, Hempty by lia. reflexivity.
Defined.

Lemma query_items_none (q : nat) (items : list Item) :
  Forall (fun it => (item_key it).1.1 <> q) items -> query_items q items = [].
Proof.
  induction 1 as [|it items Hit _ IH]; [done|].
  unfold query_items. rewrite filter_cons_False by done. exact IH.
Qed.

(** C8: when the reader finds no span in any example of a query, that is,
    when every row of that query in the batches the run gives to the reader
    comes back without a score, no item is offered to the queue of that
    query, and [process_batch] returns, with the empty list for that
    query. *)
Theorem empty_results_give_empty_list (d : DrQA) (queries : list str)
    (candidates : option (list (option (list str)))) (top_n n_docs : Z)
    (rc : bool) (q : nat) :
  (q < length queries)%nat ->
  reader_contract d -> ranker_contract d ->
  candidates_ok queries candidates ->
  (forall batch cands i ex,
      EvPredict batch cands
        ∈ (process_batch d queries candidates top_n n_docs rc []).1 ->
      batch !! i = Some ex -> (ex_id ex).1.1 = q ->
      r_score (predict d batch cands) !! i = Some []) ->
  exists t c preds items,
    collect d queries candidates top_n n_docs [] = (t, Ok c) /\
    process_batch d queries candidates top_n n_docs rc [] = (t, Ok preds) /\
    offered (result_handles c) = Ok items /\
    query_items q items = [] /\
    queues c !! q = Some [] /\
    preds !! q = Some [].
Proof.
  intros Hlt Hreader Hranker Hcands Hempty.
  assert (queries <> []) as Hq by (intros ->; simpl in Hlt; lia).
  destruct (process_batch_total d queries candidates top_n n_docs rc
              Hq Hreader Hranker Hcands) as (t & c & preds & Hrun & Hpb & HF).
  rewrite Hpb in Hempty. cbn [fst] in Hempty.
  exists t, c, preds.
  apply collect_Ok in Hrun as Hc.
  destruct Hc as [_ (exs & cs & items & Hex & Hcs & Hoff & Hr & Ht & Hc)].
  exists items. split; [done|]. split; [done|].
  rewrite Hc in HF |- *. unfold locals_of in *.
  cbn [all_docids all_doc_scores q_tokens s_tokens queues result_handles] in *.
  split; [done|].
  assert (query_items q items = []) as Hnone.
  { apply query_items_none. apply Forall_forall. intros it Hit Hqidx.
    destruct (item_call _ _ _ _ _ _ _ _ Hcs Hoff Hit)
      as (b & c' & i & ex & Hcall & Hi & Hid & Hrow).
    rewrite <- Hid in Hqidx.
    assert (EvPredict b c' ∈ t) as Hin.
    { rewrite Ht. apply elem_of_app. by right. }
    rewrite (row_item_None _ _ _ (Hempty b c' i ex Hin Hi Hqidx)) in Hrow.
    done. }
  split; [done|].
  assert (queues_of top_n (length queries) items !! q = Some []) as Hqueue.
  { rewrite queues_of_lookup by done. by rewrite Hnone. }
  split; [done|].
  destruct (Forall2_lookup_l _ _ _ _ _ HF Hqueue) as (ps & Hps & Harr).
  rewrite arrange_queue_nil in Harr. by injection Harr as <-.
Qed.

(** The small pipeline with a reader that finds nothing for its second
    query. *)
Lemma empty_results_give_empty_list_witness :
  exists t preds,
    process_batch (demo WordTagging (fun q => Nat.eqb q 1)) demo_queries None
      2 5 true [] = (t, Ok preds) /\
    preds !! 1%nat = Some [].
Proof.
  destruct (empty_results_give_empty_list
              (demo WordTagging (fun q => Nat.eqb q 1)) demo_queries None
              2 5 true 1)
    as (t & c & preds & items & _ & Hpb & _ & _ & _ & Hps).
  - unfold demo_queries. simpl length. lia.
  - apply demo_reader_contract.
  - apply demo_ranker_contract.
  - apply candidates_ok_None.
  - intros batch cands i ex _ Hex Hq.
    cbn [predict demo demo_predict r_score].
    rewrite list_lookup_fmap, Hex. cbn [fmap option_fmap option_map].
    unfold demo_row. rewrite Hq. reflexivity.
  - exists t, preds. split; [exact Hpb|exact Hps].
Defined.

(** C10: a row of the reader offers at most one item, made of the first
    score, start and end of the row and of the key of its example; the keys
    of the items offered in a batch are distinct, so in the queue of a
    query, and in the list of predictions made from it, every key occurs at
    most once. *)
Theorem one_span_per_row (d : DrQA) (queries : list str)
    (candidates : option (list (option (list str)))) (top_n n_docs : Z)
    (t : list Event) (c : Locals) :
  collect d queries candidates top_n n_docs [] = (t, Ok c) ->
  (forall res ex_ids i it,
      row_item res ex_ids i = Ok (Some it) ->
      exists scores starts ends,
        r_score res !! i = Some (item_score it :: scores) /\
        ex_ids !! i = Some (item_key it) /\
        r_s res !! i = Some (item_start it :: starts) /\
        r_e res !! i = Some (item_end it :: ends)) /\
  exists items,
    offered (result_handles c) = Ok items /\
    (item_key <$> items)
      `sublist_of` (ex_id <$> concat (_get_loader d (examples c))) /\
    NoDup (item_key <$> items) /\
    queues c = queues_of top_n (length queries) items /\
    forall q queue,
      queues c !! q = Some queue ->
      Forall (fun it => (item_key it).1.1 = q) queue /\
      NoDup (item_key <$> rev (drain queue)) /\
      forall rc ps,
        arrange_queue d rc (all_docids c) (all_doc_scores c) (q_tokens c)
          (s_tokens c) queue = Ok ps ->
        Forall2 (fun it p =>
                   make_prediction d rc (all_docids c) (all_doc_scores c)
                     (q_tokens c) (s_tokens c) it = Ok p)
                (rev (drain queue)) ps.
Proof.
  intros Hrun. split.
  { intros res ex_ids i it Hrow. by apply row_item_Some. }
  apply collect_Ok in Hrun
      as [_ (exs & cs & items & Hex & Hcs & Hoff & Hr & _ & ->)].
  unfold locals_of.
  cbn [all_docids all_doc_scores q_tokens s_tokens queues result_handles
         examples].
  exists items. split; [done|].
  destruct (offered_origin d candidates _ _ _ _
              (zip_with_handles _ _ _ _ _ Hcs) Hoff) as [Hsub _].
  destruct (collected_items _ _ _ _ _ _ _ Hex Hcs Hoff) as [Hnd _].
  split; [done|]. split; [done|]. split; [done|].
  intros q queue Hqueue.
  assert (q < length queries)%nat as Hlt.
  { apply lookup_lt_Some in Hqueue. by rewrite queues_of_length in Hqueue. }
  rewrite queues_of_lookup in Hqueue by done. injection Hqueue as <-.
  split; [apply queue_question|]. split.
  - rewrite drain_all, rev_reverse, reverse_Permutation.
    by apply queue_keys_NoDup, query_items_keys_NoDup.
  - intros rc ps Harr. by apply arrange_queue_Ok.
Qed.

(** The small pipeline: the keys of the items it offers are distinct. *)
Lemma one_span_per_row_witness :
  exists t c items,
    collect (demo WordTagging (fun _ => false)) demo_queries None 2 5 []
    = (t, Ok c) /\
    offered (result_handles c) = Ok items /\
    NoDup (item_key <$> items).
Proof.
  destruct (collect_total (demo WordTagging (fun _ => false)) demo_queries
              None 2 5) as (t & c & Hrun).
  - discriminate.
  - apply demo_reader_contract.
  - apply candidates_ok_None.
  - destruct (one_span_per_row _ _ _ _ _ _ _ Hrun)
      as (_ & items & Hoff & _ & Hnd & _).
    exists t, c, items. split; [exact Hrun|]. split; [exact Hoff|exact Hnd].
Defined.

(** * Further properties *)

(** ** The groups of [_split_doc] *)

Lemma total_app (g1 g2 : list str) : total (g1 ++ g2) = total g1 + total g2.
Proof. induction g1 as [|p g1 IH]; simpl; [done|]. rewrite IH. lia. Qed.

Lemma total_nonneg (g : list str) : 0 <= total g.
Proof. induction g as [|p g IH]; simpl; [done|]. unfold len. lia. Qed.

Ltac list_lia := unfold str in *; lia.

Lemma greedy_snoc_closed (G : group_length) (gs : list (list str))
    (c : list str) (p : str) :
  greedy G (gs ++ [c]) -> exceeds (total c + len p) G = true ->
  greedy G ((gs ++ [c]) ++ [[p]]).
Proof.
  intros Hg Hex i g g' Hi Hi'.
  destruct (decide (S i < length (gs ++ [c]))%nat) as [Hlt|Hge].
  - rewrite lookup_app_l in Hi by list_lia. rewrite lookup_app_l in Hi' by done.
    by apply (Hg i).
  - assert (S i = length (gs ++ [c])) as Hlast.
    { apply lookup_lt_Some in Hi'. rewrite length_app in Hi'. simpl in Hi'.
      list_lia. }
    rewrite lookup_app_r in Hi' by list_lia.
    rewrite Hlast, Nat.sub_diag in Hi'. injection Hi' as <-.
    rewrite length_app in Hlast. simpl in Hlast.
    assert (i = length gs) as -> by list_lia.
    rewrite lookup_app_l in Hi by (rewrite length_app; simpl; lia).
    rewrite lookup_app_r, Nat.sub_diag in Hi by list_lia. by injection Hi as <-.
Qed.

Lemma greedy_last_grows (G : group_length) (gs : list (list str))
    (c : list str) (p : str) :
  c <> [] -> greedy G (gs ++ [c]) -> greedy G (gs ++ [c ++ [p]]).
Proof.
  intros Hc Hg i g g' Hi Hi'.
  assert (S i < length (gs ++ [c ++ [p]]))%nat as Hlt
      by by eapply lookup_lt_Some.
  rewrite length_app in Hlt. simpl in Hlt.
  rewrite lookup_app_l in Hi by list_lia.
  destruct (decide (S i < length gs)%nat) as [Hin|Hlast].
  - rewrite lookup_app_l in Hi' by done.
    apply (Hg i); by rewrite lookup_app_l by list_lia.
  - assert (S i = length gs) as Heq by list_lia.
    rewrite lookup_app_r, Heq, Nat.sub_diag in Hi' by list_lia.
    injection Hi' as <-.
    replace (hd [] (c ++ [p])) with (hd [] c) by by destruct c.
    apply (Hg i); [by rewrite lookup_app_l by list_lia|].
    by rewrite lookup_app_r, Heq, Nat.sub_diag by list_lia.
Qed.

Lemma greedy_single (G : group_length) (c : list str) : greedy G [c].
Proof. intros i g g' Hi Hi'. by destruct i. Qed.

Lemma split_inv_init (G : group_length) : split_inv G (SplitState [] 0 []) [].
Proof.
  exists []. simpl.
  split; [done|]. split; [done|]. split; [done|]. split; [constructor|].
  split; [constructor|]. split; [left; lia|]. split; [done|].
  apply greedy_single.
Qed.

(** One paragraph more: the buffer is closed when the paragraph would take
    it over the threshold, and the paragraph starts or joins the buffer. *)
Lemma split_step_inv (G : group_length) (st : split_state) (ps : list str)
    (piece : str) :
  split_inv G st ps ->
  split_inv G (split_step G st piece)
    (ps ++ filter (fun p => p ≠ []) [strip piece]).
Proof.
  intros (gs & Hy & Hps & Hlen & Hgs & Hne & Hfit & Hnil & Hgr).
  unfold split_step.
  destruct (len (strip piece) =? 0) eqn:E.
  { apply len_nil_iff in E. rewrite E.
    rewrite filter_cons_False by (intros H; by apply H).
    rewrite filter_nil, app_nil_r. by exists gs. }
  assert (strip piece <> []) as Hp
      by (intros H; apply len_nil_iff in H; congruence).
  rewrite filter_cons_True by done. rewrite filter_nil.
  destruct ((0 <? len (curr st)) && exceeds (curr_len st + len (strip piece)) G)
    eqn:Eflush.
  - apply andb_true_iff in Eflush as [Hcurr Hex].
    assert (curr st <> []) as Hc.
    { intros H. rewrite H in Hcurr. done. }
    exists (gs ++ [curr st]). simpl. rewrite Hlen in Hex.
    split; [by rewrite Hy, fmap_app|].
    split; [by rewrite concat_app, <- Hps, <- !app_assoc; simpl;
              rewrite app_nil_r|].
    split; [lia|].
    split.
    { apply Forall_app. split; [done|]. constructor; [|done].
      split; [done|]. split; [done|]. destruct Hfit as [Hone|Hfit]; [|auto].
      left. destruct (curr st) as [|? [|? ?]]; simpl in *; [done|done|lia]. }
    split; [by repeat constructor|]. split; [left; simpl; lia|].
    split; [done|]. by apply greedy_snoc_closed.
  - exists gs. simpl.
    split; [done|]. split; [by rewrite app_assoc, Hps|].
    split; [rewrite total_app; simpl; lia|]. split; [done|].
    split; [apply Forall_app; by repeat constructor|].
    destruct (curr st) as [|c cs] eqn:Ec.
    + rewrite (Hnil eq_refl) in *. simpl.
      split; [left; lia|]. split; [by intros ?|]. apply greedy_single.
    + split.
      { right. rewrite total_app. simpl total at 2.
        apply andb_false_iff in Eflush as [Hcurr|Hex].
        - unfold len in Hcurr. simpl in Hcurr.
          apply Z.ltb_ge in Hcurr. lia.
        - rewrite Hlen in Hex. by rewrite Z.add_0_r. }
      split; [by intros ?|]. by apply greedy_last_grows.
Qed.

Lemma split_fold_inv (G : group_length) (pieces : list str)
    (st : split_state) (ps : list str) :
  split_inv G st ps ->
  split_inv G (fold_left (split_step G) pieces st)
    (ps ++ filter (fun p => p ≠ []) (strip <$> pieces)).
Proof.
  revert st ps. induction pieces as [|piece pieces IH]; intros st ps Hinv;
    cbn [fold_left].
  - by rewrite fmap_nil, filter_nil, app_nil_r.
  - rewrite fmap_cons.
    change (strip piece :: (strip <$> pieces))
      with ([strip piece] ++ (strip <$> pieces)).
    rewrite filter_app, app_assoc.
    by apply IH, split_step_inv.
Qed.

(** The chunks of a document are the joins of groups of consecutive
    paragraphs; the groups respect the threshold and are closed only when
    they must. *)
Lemma split_doc_grouping (G : group_length) (doc : str) :
  exists groups,
    _split_doc G doc = join [SP] <$> groups /\
    concat groups = paragraphs doc /\
    Forall (group_ok G) groups /\
    greedy G groups.
Proof.
  rewrite split_doc_pending.
  destruct (split_fold_inv G (regex_split_newlines doc) _ [] (split_inv_init G))
    as (gs & Hy & Hps & Hlen & Hgs & Hne & Hfit & Hnil & Hgr).
  simpl in Hps. fold (paragraphs doc) in Hps.
  set (st := fold_left _ _ _) in *. unfold pending.
  destruct (curr st) as [|c cs] eqn:Ec.
  - rewrite (Hnil eq_refl) in *. exists []. rewrite Hy.
    split; [done|]. split; [done|]. split; [constructor|].
    intros i g g' Hi. by destruct i.
  - exists (gs ++ [c :: cs]). rewrite Hy, fmap_app. split; [done|].
    split; [by rewrite concat_app; simpl; rewrite app_nil_r|].
    split; [|done]. apply Forall_app. split; [done|]. constructor; [|done].
    split; [done|]. split; [done|]. destruct Hfit as [Hone|Hfit]; [|auto].
    left. destruct cs; simpl in *; [done|lia].
Qed.

(** ** Joined and stripped text *)

Lemma join_cons (sep x y : str) (l : list str) :
  join sep (x :: y :: l) = x ++ sep ++ join sep (y :: l).
Proof. done. Qed.

Lemma join_app (sep : str) (l1 l2 : list str) :
  l1 <> [] -> l2 <> [] ->
  join sep (l1 ++ l2) = join sep l1 ++ sep ++ join sep l2.
Proof.
  intros H1 H2. induction l1 as [|x [|y l1] IH]; [done| |].
  - destruct l2; [done|]. done.
  - change ((x :: y :: l1) ++ l2) with (x :: y :: (l1 ++ l2)).
    rewrite !join_cons. change (y :: l1 ++ l2) with ((y :: l1) ++ l2).
    rewrite IH by done. by rewrite <- !app_assoc.
Qed.

Lemma join_concat (sep : str) (groups : list (list str)) :
  Forall (fun g => g <> []) groups ->
  join sep (join sep <$> groups) = join sep (concat groups).
Proof.
  induction 1 as [|g groups Hg Hgs IH]; [done|].
  destruct groups as [|g' groups].
  - cbn [concat]. by rewrite app_nil_r.
  - rewrite !fmap_cons, join_cons, <- fmap_cons, IH.
    change (concat (g :: g' :: groups)) with (g ++ concat (g' :: groups)).
    rewrite (join_app sep g (concat (g' :: groups))); [done|done|].
    apply Forall_cons in Hgs as [Hg' _]. by destruct g'.
Qed.

Lemma lstrip_length (s : str) : (length (lstrip s) <= length s)%nat.
Proof.
  induction s as [|c s IH]; simpl; [lia|]. destruct (isspace c); simpl; lia.
Qed.

Lemma lstrip_head (c : char) (s : str) :
  lstrip (c :: s) = c :: s <-> isspace c = false.
Proof.
  simpl. destruct (isspace c); split; try done. intros H.
  pose proof (lstrip_length s) as Hlen. rewrite H in Hlen. simpl in Hlen. lia.
Qed.

Lemma lstrip_idem (s : str) : lstrip (lstrip s) = lstrip s.
Proof.
  induction s as [|c s IH]; [done|]. simpl. destruct (isspace c) eqn:E; [done|].
  by apply lstrip_head.
Qed.

Lemma lstrip_suffix (s : str) : exists pre, s = pre ++ lstrip s.
Proof.
  induction s as [|c s [pre IH]]; [by exists []|]. simpl.
  destruct (isspace c).
  - exists (c :: pre). simpl. by rewrite <- IH.
  - by exists [].
Qed.

Lemma strip_stripped (s : str) : stripped (strip s).
Proof.
  unfold stripped, strip, rstrip. set (t := lstrip s).
  rewrite rev_involutive, lstrip_idem. split; [|done].
  destruct (lstrip_suffix (rev t)) as [pre Hpre].
  destruct (rev (lstrip (rev t))) as [|c r] eqn:Eu; [done|].
  apply lstrip_head.
  assert (t = (c :: r) ++ rev pre) as Ht.
  { rewrite <- Eu, <- rev_app_distr, <- Hpre. by rewrite rev_involutive. }
  pose proof (lstrip_idem s) as Hidem. fold t in Hidem. rewrite Ht in Hidem.
  by apply lstrip_head in Hidem.
Qed.

Lemma stripped_strip (s : str) : stripped s -> strip s = s.
Proof.
  intros [Hl Hr]. unfold strip, rstrip. by rewrite Hl, Hr, rev_involutive.
Qed.

Lemma stripped_app (x sep J : str) :
  x <> [] -> stripped x -> J <> [] -> stripped J -> stripped (x ++ sep ++ J).
Proof.
  intros Hx [Hxl Hxr] HJ [HJl HJr]. split.
  - destruct x as [|c x]; [done|]. apply lstrip_head. by apply lstrip_head in Hxl.
  - rewrite !rev_app_distr.
    destruct (rev J) as [|d r] eqn:EJ.
    { apply (f_equal (@rev _)) in EJ. rewrite rev_involutive in EJ. done. }
    rewrite <- !app_assoc. apply lstrip_head. by apply lstrip_head in HJr.
Qed.

Lemma stripped_join (l : list str) :
  l <> [] -> Forall (fun p => p <> [] /\ stripped p) l ->
  join [SP] l <> [] /\ stripped (join [SP] l).
Proof.
  intros Hl Hall. induction Hall as [|x l [Hx Hxs] Hall IH]; [done|].
  destruct l as [|y l]; [done|].
  destruct IH as [HJ HJs]; [done|].
  rewrite join_cons. split; [by destruct x|]. by apply stripped_app.
Qed.

Lemma paragraphs_stripped (doc : str) :
  Forall (fun p => p <> [] /\ stripped p) (paragraphs doc).
Proof.
  apply Forall_forall. intros p Hp. unfold paragraphs in Hp.
  apply list_elem_of_filter in Hp as [Hne Hp].
  apply list_elem_of_fmap in Hp as (piece & -> & _).
  split; [done|]. apply strip_stripped.
Qed.

(** The chunks of a document are the joins, with one space, of groups of
    consecutive paragraphs: the groups taken in order make up the
    paragraphs of the document; no group is empty; a group of several
    paragraphs has at most [GROUP_LENGTH] characters in all, the joining
    spaces not counted; and a group is closed only when the next paragraph
    would take it over [GROUP_LENGTH].  The chunks joined with spaces are
    the paragraphs joined with spaces. *)
Theorem split_doc_groups (G : group_length) (doc : str) :
  exists groups,
    _split_doc G doc = join [SP] <$> groups /\
    concat groups = paragraphs doc /\
    Forall (group_ok G) groups /\
    greedy G groups /\
    join [SP] (_split_doc G doc) = join [SP] (paragraphs doc).
Proof.
  destruct (split_doc_grouping G doc) as (groups & Hsplit & Hcat & Hok & Hgr).
  exists groups. repeat (split; [done|]).
  rewrite Hsplit, <- Hcat. apply join_concat.
  eapply Forall_impl; [exact Hok|]. by intros g [Hg _].
Qed.

(** With an infinite [GROUP_LENGTH] a document that has a paragraph is
    read as one chunk, its paragraphs joined with spaces, and a document
    without paragraph gives no chunk. *)
Theorem split_doc_infinite_threshold (doc : str) :
  _split_doc Infty doc =
    match paragraphs doc with
    | [] => []
    | ps => [join [SP] ps]
    end.
Proof.
  destruct (split_doc_grouping Infty doc) as (groups & -> & <- & Hok & Hgr).
  destruct groups as [|g [|g' groups]].
  - done.
  - apply Forall_cons in Hok as [[Hg _] _]. simpl. rewrite app_nil_r.
    by destruct g.
  - by specialize (Hgr 0%nat g g' eq_refl eq_refl).
Qed.

(** No chunk is empty, and no chunk starts or ends with whitespace:
    stripping a chunk leaves it as it is. *)
Theorem split_doc_chunks_stripped (G : group_length) (doc : str) :
  Forall (fun chunk => chunk <> [] /\ strip chunk = chunk) (_split_doc G doc).
Proof.
  destruct (split_doc_grouping G doc) as (groups & -> & Hcat & Hok & _).
  apply Forall_fmap, Forall_forall. intros g Hg. simpl.
  pose proof (proj1 (Forall_forall _ _) Hok g Hg) as (Hne & _ & _).
  destruct (stripped_join g Hne) as [HJ Hs]; [|by split; [|apply stripped_strip]].
  apply Forall_forall. intros p Hp.
  apply (proj1 (Forall_forall _ _) (paragraphs_stripped doc)).
  rewrite <- Hcat. apply elem_of_concat. by exists g.
Qed.

(** ** The text of the chunks *)

Lemma nonspace_app (s1 s2 : str) :
  nonspace (s1 ++ s2) = nonspace s1 ++ nonspace s2.
Proof. apply filter_app. Qed.

Lemma nonspace_rev (s : str) : nonspace (rev s) = rev (nonspace s).
Proof. rewrite !rev_reverse. apply filter_reverse. Qed.

Lemma nonspace_cons_space (c : char) (s : str) :
  isspace c = true -> nonspace (c :: s) = nonspace s.
Proof.
  intros H. unfold nonspace. apply filter_cons_False. by rewrite H.
Qed.

Lemma nonspace_cons_other (c : char) (s : str) :
  isspace c = false -> nonspace (c :: s) = c :: nonspace s.
Proof. intros H. unfold nonspace. by apply filter_cons_True. Qed.

Lemma nonspace_lstrip (s : str) : nonspace (lstrip s) = nonspace s.
Proof.
  induction s as [|c s IH]; [done|]. simpl.
  destruct (isspace c) eqn:E; [|done]. by rewrite nonspace_cons_space.
Qed.

Lemma nonspace_strip (s : str) : nonspace (strip s) = nonspace s.
Proof.
  unfold strip, rstrip.
  by rewrite nonspace_rev, nonspace_lstrip, nonspace_rev, rev_involutive,
    nonspace_lstrip.
Qed.

Lemma nonspace_regex_split_go (doc acc : str) (in_run : bool) :
  nonspace (concat (regex_split_go doc acc in_run)) = nonspace (rev acc ++ doc).
Proof.
  revert acc in_run. induction doc as [|c doc IH]; intros acc in_run.
  - simpl. by rewrite !app_nil_r.
  - cbn [regex_split_go]. destruct (c =? NL)%N eqn:E.
    + apply N.eqb_eq in E. subst c.
      rewrite nonspace_app, (nonspace_cons_space NL) by done.
      destruct in_run.
      * by rewrite IH, nonspace_app.
      * cbn [concat]. rewrite nonspace_app, IH. done.
    + rewrite IH. simpl. by rewrite <- app_assoc.
Qed.

Lemma nonspace_join (l : list str) :
  nonspace (join [SP] l) = nonspace (concat l).
Proof.
  induction l as [|x [|y l] IH]; [done| |].
  - simpl. by rewrite app_nil_r.
  - rewrite join_cons. cbn [concat].
    rewrite !nonspace_app, IH. cbn [concat]. rewrite nonspace_app.
    by rewrite (nonspace_cons_space SP).
Qed.

Lemma nonspace_concat_fmap {A} (f g : A -> str) (l : list A) :
  (forall x, nonspace (f x) = nonspace (g x)) ->
  nonspace (concat (f <$> l)) = nonspace (concat (g <$> l)).
Proof.
  intros H. induction l as [|x l IH]; [done|].
  rewrite !fmap_cons. cbn [concat]. by rewrite !nonspace_app, IH, H.
Qed.

Lemma concat_filter_nonempty {A} (l : list (list A))
    `{!forall p : list A, Decision (p ≠ [])} :
  concat (filter (fun p => p ≠ []) l) = concat l.
Proof.
  induction l as [|x l IH]; [done|]. destruct x as [|a x].
  - rewrite filter_cons_False by (intros Hne; by apply Hne). done.
  - rewrite filter_cons_True by done. cbn [concat]. by rewrite IH.
Qed.

Lemma nonspace_paragraphs (doc : str) :
  nonspace (concat (paragraphs doc)) = nonspace doc.
Proof.
  unfold paragraphs, str. rewrite concat_filter_nonempty. fold str.
  rewrite (nonspace_concat_fmap strip (fun s => s)) by apply nonspace_strip.
  rewrite list_fmap_id. unfold regex_split_newlines.
  by rewrite nonspace_regex_split_go.
Qed.

Lemma elem_of_lstrip (c : char) (s : str) : c ∈ lstrip s -> c ∈ s.
Proof.
  destruct (lstrip_suffix s) as [pre Hpre]. intros H. rewrite Hpre.
  apply elem_of_app. by right.
Qed.

Lemma elem_of_rev {A} (x : A) (l : list A) : x ∈ rev l <-> x ∈ l.
Proof. rewrite rev_reverse. apply elem_of_reverse. Qed.

Lemma elem_of_strip (c : char) (s : str) : c ∈ strip s -> c ∈ s.
Proof.
  unfold strip, rstrip. intros H.
  by apply elem_of_rev, elem_of_lstrip, elem_of_rev, elem_of_lstrip in H.
Qed.

Lemma regex_split_go_no_newline (doc acc : str) (in_run : bool) :
  NL ∉ acc -> Forall (fun piece => NL ∉ piece) (regex_split_go doc acc in_run).
Proof.
  revert acc in_run. induction doc as [|c doc IH]; intros acc in_run Hacc.
  - constructor; [|done]. by rewrite elem_of_rev.
  - cbn [regex_split_go]. destruct (c =? NL)%N eqn:E.
    + destruct in_run; [by apply IH|].
      constructor; [by rewrite elem_of_rev|]. apply IH. by intros ?%elem_of_nil.
    + apply IH. apply N.eqb_neq in E. intros [Hc|H]%elem_of_cons; [|done].
      by apply E.
Qed.

Lemma elem_of_join (c : char) (sep : str) (l : list str) :
  c ∈ join sep l -> c ∈ sep \/ exists p, p ∈ l /\ c ∈ p.
Proof.
  induction l as [|x [|y l] IH]; [by intros ?%elem_of_nil| |].
  - simpl. intros H. right. exists x. split; [by left|done].
  - rewrite join_cons, !elem_of_app. intros [H|[H|H]].
    + right. exists x. split; [by left|done].
    + by left.
    + destruct (IH H) as [?|(p & Hp & Hc)]; [by left|].
      right. exists p. split; [by right|done].
Qed.

(** Splitting loses no text: the characters of the chunks that are not
    whitespace are those of the document, in the same order; and no chunk
    holds a newline. *)
Theorem split_doc_keeps_text (G : group_length) (doc : str) :
  nonspace (concat (_split_doc G doc)) = nonspace doc /\
  Forall (fun chunk => NL ∉ chunk) (_split_doc G doc).
Proof.
  destruct (split_doc_grouping G doc) as (groups & -> & Hcat & _). split.
  - rewrite (nonspace_concat_fmap (join [SP]) (@concat char))
      by apply nonspace_join.
    rewrite <- (nonspace_paragraphs doc), <- Hcat.
    clear Hcat. induction groups as [|g groups IH]; [done|].
    rewrite fmap_cons. cbn [concat]. by rewrite concat_app, !nonspace_app, IH.
  - apply Forall_fmap, Forall_forall. intros g Hg. simpl. intros Hnl.
    apply elem_of_join in Hnl as [Hnl|(p & Hp & Hnl)].
    + by apply list_elem_of_singleton in Hnl.
    + assert (p ∈ paragraphs doc) as Hpar.
      { rewrite <- Hcat. apply elem_of_concat. by exists g. }
      unfold paragraphs in Hpar.
      apply list_elem_of_filter in Hpar as [_ Hpar].
      apply list_elem_of_fmap in Hpar as (piece & -> & Hpiece).
      apply elem_of_strip in Hnl.
      pose proof (regex_split_go_no_newline doc [] false) as Hall.
      rewrite Forall_forall in Hall. eapply Hall; [|exact Hpiece|exact Hnl].
      by intros ?%elem_of_nil.
Qed.

(** ** The index of the documents *)

Lemma index_docids_NoDup (l : list str) (did : str) (didx : nat) :
  NoDup l -> index_docids l !! did = Some didx <-> l !! didx = Some did.
Proof.
  induction l as [|x l IH] using rev_ind; intros Hnd.
  - unfold index_docids. simpl. by rewrite lookup_empty.
  - apply NoDup_app in Hnd as (Hnd & Hx & _).
    rewrite index_docids_snoc.
    destruct (decide (x = did)) as [->|Hne].
    + rewrite lookup_insert_eq. split.
      * intros [= <-]. by rewrite lookup_app_r, Nat.sub_diag by lia.
      * intros Hl. destruct (decide (didx < length l)%nat) as [Hlt|Hge].
        -- rewrite lookup_app_l in Hl by done.
           apply list_elem_of_lookup_2 in Hl. exfalso.
           apply (Hx did Hl). by apply list_elem_of_singleton.
        -- apply lookup_lt_Some in Hl as Hlt. rewrite length_app in Hlt.
           simpl in Hlt. f_equal. lia.
    + rewrite lookup_insert_ne by done. rewrite (IH Hnd). split.
      * intros Hl. by apply lookup_app_l_Some.
      * intros Hl. apply lookup_app_Some in Hl as [Hl|[_ Hl]]; [done|].
        apply list_elem_of_lookup_2, list_elem_of_singleton in Hl. congruence.
Qed.

(** ** The keys of the examples *)

Lemma rmap_omap_elem_of {A B} (f : A -> result (option B)) (l : list A)
    (os : list (option B)) (y : B) :
  rmap f l = Ok os ->
  y ∈ omap id os <-> exists x, x ∈ l /\ f x = Ok (Some y).
Proof.
  intros H. apply rmap_Forall2 in H. rewrite list_elem_of_omap. split.
  - intros (o & Ho & Hid). simpl in Hid. subst o.
    apply list_elem_of_lookup in Ho as [i Hi].
    destruct (Forall2_lookup_r _ _ _ _ _ H Hi) as (x & Hx & Hf).
    exists x. split; [by eapply list_elem_of_lookup_2|done].
  - intros (x & Hx & Hf). apply list_elem_of_lookup in Hx as [i Hi].
    destruct (Forall2_lookup_l _ _ _ _ _ H Hi) as (o & Ho & Hf').
    exists o. split; [by eapply list_elem_of_lookup_2|].
    rewrite Hf in Hf'. by injection Hf' as <-.
Qed.

Lemma rmap_concat_elem_of {A B} (f : A -> result (list B)) (l : list A)
    (ls : list (list B)) (y : B) :
  rmap f l = Ok ls ->
  y ∈ concat ls <-> exists x ys, x ∈ l /\ f x = Ok ys /\ y ∈ ys.
Proof.
  intros H. apply rmap_Forall2 in H. rewrite elem_of_concat. split.
  - intros (ys & Hys & Hy). apply list_elem_of_lookup in Hys as [i Hi].
    destruct (Forall2_lookup_r _ _ _ _ _ H Hi) as (x & Hx & Hf).
    exists x, ys. split; [by eapply list_elem_of_lookup_2|done].
  - intros (x & ys & Hx & Hf & Hy). apply list_elem_of_lookup in Hx as [i Hi].
    destruct (Forall2_lookup_l _ _ _ _ _ H Hi) as (ys' & Hys & Hf').
    exists ys'. split; [by eapply list_elem_of_lookup_2|].
    rewrite Hf in Hf'. by injection Hf' as <-.
Qed.

Lemma examples_of_doc_elem_of (d : DrQA) did2didx didx2sidx q_tokens s_tokens
    (qidx : nat) (rd : nat * str) (exs : list Example) (ex : Example) :
  examples_of_doc d did2didx didx2sidx q_tokens s_tokens qidx rd = Ok exs ->
  ex ∈ exs <->
  exists didx range sidx q s,
    did2didx !! rd.2 = Some didx /\ didx2sidx !! didx = Some range /\
    owns range sidx /\
    q_tokens !! qidx = Some q /\ s_tokens !! sidx = Some s /\
    make_example d (qidx, rd.1, sidx) q s = Some ex.
Proof.
  unfold examples_of_doc.
  destruct (did2didx !! rd.2) as [didx|] eqn:Hdidx; simpl; [|done].
  destruct (didx2sidx !! didx) as [range|] eqn:Hrange; simpl; [|done].
  destruct (rmap _ _) as [os|] eqn:E; simpl; [|done]. intros [= <-].
  rewrite (rmap_omap_elem_of _ _ _ _ E). split.
  - intros (sidx & Hs & Hrow). apply elem_of_seq in Hs.
    destruct (q_tokens !! qidx) as [q|] eqn:Hq; simpl in Hrow; [|done].
    destruct (s_tokens !! sidx) as [s|] eqn:Hst; simpl in Hrow; [|done].
    injection Hrow as Hrow. exists didx, range, sidx, q, s.
    split; [done|]. split; [done|]. split; [unfold owns; lia|done].
  - intros (didx' & range' & sidx & q & s & [= <-] & Hrange' & Hown & Hq & Hs
            & Hm).
    rewrite Hrange in Hrange'. injection Hrange' as <-.
    exists sidx. split; [apply elem_of_seq; unfold owns in Hown; lia|].
    by rewrite Hq, Hs; simpl; rewrite Hm.
Qed.

Lemma examples_of_query_elem_of (d : DrQA) all_docids did2didx didx2sidx
    q_tokens s_tokens (qidx : nat) (exs : list Example) (ex : Example) :
  examples_of_query d all_docids did2didx didx2sidx q_tokens s_tokens qidx
  = Ok exs ->
  ex ∈ exs <->
  exists docids r did didx range sidx q s,
    all_docids !! qidx = Some docids /\ docids !! r = Some did /\
    did2didx !! did = Some didx /\ didx2sidx !! didx = Some range /\
    owns range sidx /\
    q_tokens !! qidx = Some q /\ s_tokens !! sidx = Some s /\
    make_example d (qidx, r, sidx) q s = Some ex.
Proof.
  unfold examples_of_query.
  destruct (all_docids !! qidx) as [docids|] eqn:Hd; simpl; [|done].
  destruct (rmap _ _) as [ls|] eqn:E; simpl; [|done]. intros [= <-].
  rewrite (rmap_concat_elem_of _ _ _ _ E). split.
  - intros (rd & ys & Hrd & Hf & Hex).
    apply list_elem_of_lookup in Hrd as [i Hi].
    apply enumerate_lookup in Hi as [Hi1 Hi2].
    apply (examples_of_doc_elem_of _ _ _ _ _ _ _ _ ex) in Hf.
    apply Hf in Hex as (didx & range & sidx & q & s & ? & ? & ? & ? & ? & ?).
    exists docids, rd.1, rd.2, didx, range, sidx, q, s.
    split; [done|]. split; [by rewrite Hi1|done].
  - intros (docids' & r & did & didx & range & sidx & q & s & [= <-] & Hr & Hdid
            & Hrange & Hown & Hq & Hs & Hm).
    assert ((r, did) ∈ enumerate docids) as Hin.
    { apply list_elem_of_lookup. exists r. by apply enumerate_lookup. }
    apply list_elem_of_lookup in Hin as Hin'. destruct Hin' as [i Hi].
    destruct (Forall2_lookup_l _ _ _ _ _ (proj1 (rmap_Forall2 _ _ _) E) Hi)
      as (ys & _ & Hf).
    exists (r, did), ys. split; [done|]. split; [done|].
    apply (examples_of_doc_elem_of _ _ _ _ _ _ _ _ ex) in Hf. apply Hf.
    by exists didx, range, sidx, q, s.
Qed.

Lemma build_examples_elem_of (d : DrQA) queries all_docids did2didx didx2sidx
    q_tokens s_tokens (exs : list Example) (ex : Example) :
  build_examples d queries all_docids did2didx didx2sidx q_tokens s_tokens
  = Ok exs ->
  ex ∈ exs <->
  exists qidx docids r did didx range sidx q s,
    (qidx < length queries)%nat /\
    all_docids !! qidx = Some docids /\ docids !! r = Some did /\
    did2didx !! did = Some didx /\ didx2sidx !! didx = Some range /\
    owns range sidx /\
    q_tokens !! qidx = Some q /\ s_tokens !! sidx = Some s /\
    make_example d (qidx, r, sidx) q s = Some ex.
Proof.
  unfold build_examples.
  destruct (rmap _ _) as [ls|] eqn:E; simpl; [|done]. intros [= <-].
  rewrite (rmap_concat_elem_of _ _ _ _ E). split.
  - intros (qidx & ys & Hq & Hf & Hex). apply elem_of_seq in Hq.
    apply (examples_of_query_elem_of _ _ _ _ _ _ _ _ ex) in Hf.
    apply Hf in Hex
        as (docids & r & did & didx & range & sidx & q & s & Hrest).
    exists qidx, docids, r, did, didx, range, sidx, q, s.
    split; [lia|done].
  - intros (qidx & docids & r & did & didx & range & sidx & q & s & Hlt
            & Hrest).
    assert (qidx ∈ seq 0 (length queries)) as Hin
        by (apply elem_of_seq; lia).
    apply list_elem_of_lookup in Hin as Hin'. destruct Hin' as [i Hi].
    destruct (Forall2_lookup_l _ _ _ _ _ (proj1 (rmap_Forall2 _ _ _) E) Hi)
      as (ys & _ & Hf).
    exists qidx, ys. split; [done|]. split; [done|].
    apply (examples_of_query_elem_of _ _ _ _ _ _ _ _ ex) in Hf. apply Hf.
    by exists docids, r, did, didx, range, sidx, q, s.
Qed.

Lemma docids_of_lookup_iff (d : DrQA) (queries : list str) (n_docs : Z)
    (q : nat) (docids : list str) :
  docids_of d queries n_docs !! q = Some docids <->
  exists query,
    queries !! q = Some query /\ docids = (closest_docs d query n_docs).1.
Proof.
  unfold docids_of, ranked_of. rewrite !list_lookup_fmap.
  destruct (queries !! q) as [query|]; simpl.
  - split; [intros [= <-]; by exists query|by intros (? & [= <-] & ->)].
  - split; [done|by intros (? & ? & _)].
Qed.

(** The range of a document holds its chunks, in order. *)
Lemma didx2sidx_of_chunk (d : DrQA) (queries : list str) (n_docs : Z)
    (didx : nat) (did : str) (range : nat * nat) (s : nat) :
  flat_docids_of d queries n_docs !! didx = Some did ->
  didx2sidx_of d queries n_docs !! didx = Some range ->
  owns range s ->
  flat_splits_of d queries n_docs !! s
  = _split_doc (GROUP_LENGTH d) (get_doc_text d did) !! (s - range.1)%nat
  /\ (s < length (flat_splits_of d queries n_docs))%nat.
Proof.
  intros Hdid Hrange Hown. unfold owns in Hown.
  pose proof (split_docs_fold d (doc_texts_of d queries n_docs) ([], [])
                eq_refl) as (Hcons & _ & _ & _ & Hchunk).
  fold (split_docs d (doc_texts_of d queries n_docs)) in Hcons, Hchunk.
  fold (didx2sidx_of d queries n_docs) in Hcons, Hchunk.
  fold (flat_splits_of d queries n_docs) in Hcons, Hchunk.
  specialize (Hchunk didx (get_doc_text d did) range).
  simpl in Hchunk. rewrite <- Hchunk.
  - destruct (consecutive_lookup _ _ _ _ _ Hcons Hrange) as (_ & _ & Hend).
    split; [|lia].
    rewrite lookup_take_lt by lia. rewrite lookup_drop. f_equal. lia.
  - unfold doc_texts_of. by rewrite list_lookup_fmap, Hdid.
  - done.
Qed.

(** The examples built for a batch are those of its queries, of their
    ranked documents and of the passages of these documents. *)
Lemma examples_of_elem_of (d : DrQA) (queries : list str) (n_docs : Z)
    (exs : list Example) (ex : Example) :
  examples_of d queries n_docs = Ok exs ->
  ex ∈ exs <->
  example_at d queries n_docs (ex_id ex).1.1 (ex_id ex).1.2 (ex_id ex).2 ex.
Proof.
  intros Hexs.
  pose proof (flatten_docids_NoDup (docids_of d queries n_docs)) as Hnd.
  fold (flat_docids_of d queries n_docs) in Hnd.
  unfold examples_of in Hexs.
  apply (build_examples_elem_of _ _ _ _ _ _ _ _ ex) in Hexs.
  rewrite Hexs. clear Hexs. split.
  - intros (qidx & docids & r & did & didx & range & sidx & q & s & Hlt & Hd
            & Hr & Hdidx & Hrange & Hown & Hq & Hs & Hm).
    apply docids_of_lookup_iff in Hd as (query & Hquery & ->).
    apply index_docids_NoDup in Hdidx; [|done].
    unfold q_tokens_of in Hq. rewrite list_lookup_fmap, Hquery in Hq.
    injection Hq as <-.
    unfold s_tokens_of in Hs. rewrite list_lookup_fmap in Hs.
    destruct (flat_splits_of d queries n_docs !! sidx) as [passage|] eqn:Hp;
      [|done].
    injection Hs as <-.
    destruct (make_example_Some _ _ _ _ _ Hm) as (-> & _ & _). simpl.
    exists query, did, didx, range, passage.
    repeat (split; [done|]).
    destruct (didx2sidx_of_chunk _ _ _ _ _ _ _ Hdidx Hrange Hown) as [<- _].
    done.
  - intros (query & did & didx & range & passage & Hquery & Hr & Hdidx & Hrange
            & Hown & Hp & _ & Hm).
    exists (ex_id ex).1.1, (closest_docs d query n_docs).1, (ex_id ex).1.2,
      did, didx, range, (ex_id ex).2, (tokenize d query), (tokenize d passage).
    split; [by eapply lookup_lt_Some|].
    split; [apply docids_of_lookup_iff; by exists query|].
    split; [done|]. split; [by apply index_docids_NoDup|].
    split; [done|]. split; [done|].
    split; [unfold q_tokens_of; by rewrite list_lookup_fmap, Hquery|].
    split; [unfold s_tokens_of; by rewrite list_lookup_fmap, Hp|].
    exact Hm.
Qed.

(** The example builder returns, and it builds one example for every
    triple of a query, the rank of one of its documents and a passage of
    that document, provided the query and the passage both have tokens:
    the keys of the examples are distinct; an example with key [(q, r, s)]
    is made of the tokens of query [q] and of passage [s], which is a chunk
    of the document of rank [r] of [q]; and every such example is among
    those built. *)
Theorem examples_cover_ranked_passages (d : DrQA) (queries : list str)
    (n_docs : Z) :
  exists exs,
    examples_of d queries n_docs = Ok exs /\
    NoDup (ex_id <$> exs) /\
    (forall ex, ex ∈ exs ->
       example_at d queries n_docs (ex_id ex).1.1 (ex_id ex).1.2 (ex_id ex).2
         ex) /\
    (forall q r s ex, example_at d queries n_docs q r s ex -> ex ∈ exs).
Proof.
  destruct (examples_of_total d queries n_docs) as [exs Hexs]. exists exs.
  split; [done|]. split; [by apply examples_of_ok in Hexs as [? _]|]. split.
  - intros ex Hin. by apply (examples_of_elem_of _ _ _ _ _ Hexs).
  - intros q r s ex Hat. apply (examples_of_elem_of _ _ _ _ _ Hexs).
    destruct Hat as (query & did & didx & range & passage & H1 & H2 & H3 & H4
                     & H5 & H6 & H7 & Hm).
    destruct (make_example_Some _ _ _ _ _ Hm) as (-> & _ & _). simpl.
    by exists query, did, didx, range, passage.
Qed.

(** [did2didx] maps a document identifier to the position it has in
    [flat_docids], and to nothing else: the two are inverse of each other.
    Every document ranked for a query has a position, so the lookup
    [did2didx[did]] of the example builder cannot fail, and only ranked
    documents have one. *)
Theorem did2didx_inverts_flat_docids (all_docids : list (list str)) :
  let flat_docids := flatten_docids all_docids in
  let did2didx := index_docids flat_docids in
  (forall did didx,
      did2didx !! did = Some didx <-> flat_docids !! didx = Some did) /\
  (forall docids did,
      docids ∈ all_docids -> did ∈ docids ->
      exists didx, did2didx !! did = Some didx /\
                   (didx < length flat_docids)%nat) /\
  (forall did didx,
      did2didx !! did = Some didx ->
      exists docids, docids ∈ all_docids /\ did ∈ docids).
Proof.
  intros flat_docids did2didx. split; [|split].
  - intros did didx. apply index_docids_NoDup, flatten_docids_NoDup.
  - intros docids did Hd Hin. apply index_docids_lookup.
    apply flatten_docids_elem_of. by exists docids.
  - intros did didx Hl.
    apply index_docids_NoDup in Hl; [|apply flatten_docids_NoDup].
    apply list_elem_of_lookup_2 in Hl. by apply flatten_docids_elem_of in Hl.
Qed.

(** ** The exceptions of a run *)

Lemma make_batch_cands_raise candidates s_tokens (ex_ids : list Key) e :
  make_batch_cands candidates s_tokens ex_ids = Raise e -> e = IndexError.
Proof.
  unfold make_batch_cands. intros H.
  apply rmap_raise in H as (id & _ & H).
  destruct (s_tokens !! id.2); simpl in H; [|by injection H].
  destruct (truthy candidates); simpl in H; [|done].
  destruct (default [] candidates !! id.1.1); simpl in H; [done|by injection H].
Qed.

Lemma batch_cands_of_raise (d : DrQA) candidates s_tokens
    (batch : list Example) e :
  batch_cands_of d candidates s_tokens batch = Raise e -> e = IndexError.
Proof.
  unfold batch_cands_of. destruct (_ || _); [|done].
  destruct (make_batch_cands _ _ _) eqn:E; simpl; [done|].
  intros [= <-]. by eapply make_batch_cands_raise.
Qed.

Lemma collect_back_raise (d : DrQA) queries candidates (top_n n_docs : Z)
    t0 t e :
  collect_back d queries candidates top_n n_docs t0 = (t, Raise e) ->
  e = IndexError.
Proof.
  unfold collect_back. unfold bind at 1. unfold lift at 1.
  destruct (examples_of_total d queries n_docs) as [exs ->].
  unfold bind at 1.
  destruct (mapM_read_batch d candidates (s_tokens_of d queries n_docs)
              (_get_loader d exs) t0) as (evs & r & -> & _ & Hr).
  destruct r as [hs|e'].
  - unfold bind at 1. unfold lift at 1. rewrite aggregate_offered.
    destruct (offered hs) as [items|e''] eqn:Hoff; simpl.
    + destruct (in_range _ _); [done|]. by intros [= _ <-].
    + intros [= _ <-]. by eapply offered_raise.
  - intros [= _ <-]. destruct Hr as (b & _ & Hb).
    by eapply batch_cands_of_raise.
Qed.

Lemma collect_raise (d : DrQA) queries candidates (top_n n_docs : Z) t e :
  collect d queries candidates top_n n_docs [] = (t, Raise e) ->
  (queries = [] /\ e = ValueError) \/ (queries <> [] /\ e = IndexError).
Proof.
  destruct queries as [|q queries].
  - rewrite collect_empty. intros [= _ <-]. by left.
  - rewrite collect_front by done. intros H. right. split; [done|].
    by eapply collect_back_raise.
Qed.

Lemma make_prediction_raise (d : DrQA) rc all_docids all_doc_scores
    q_tokens s_tokens (it : Item) e :
  make_prediction d rc all_docids all_doc_scores q_tokens s_tokens it = Raise e
  -> e = IndexError.
Proof.
  destruct it as [[[score [[qidx rel_didx] sidx]] s] e0].
  unfold make_prediction. simpl.
  destruct (reader_model d);
    repeat match goal with
      | |- context [or_raise _ ?o] =>
          destruct o; simpl; [|by intros [= <-]]
      end;
    destruct rc;
    repeat match goal with
      | |- context [or_raise _ ?o] =>
          destruct o; simpl; [|by intros [= <-]]
      end;
    done.
Qed.

Lemma arrange_queue_raise (d : DrQA) rc all_docids all_doc_scores
    q_tokens s_tokens (queue : heap) e :
  arrange_queue d rc all_docids all_doc_scores q_tokens s_tokens queue
  = Raise e -> e = IndexError.
Proof.
  unfold arrange_queue. destruct (rmap _ _) as [ps|e'] eqn:E; simpl; [done|].
  intros [= <-]. apply rmap_raise in E as (it & _ & E).
  by eapply make_prediction_raise.
Qed.

(** A run of [process_batch] is a run of [collect] followed by the final
    loop. *)
Lemma process_batch_inv (d : DrQA) queries candidates (top_n n_docs : Z)
    (rc : bool) t r :
  process_batch d queries candidates top_n n_docs rc [] = (t, r) ->
  (exists c,
      collect d queries candidates top_n n_docs [] = (t, Ok c) /\
      r = rmap (arrange_queue d rc (all_docids c) (all_doc_scores c)
                  (q_tokens c) (s_tokens c)) (queues c)) \/
  (exists e,
      collect d queries candidates top_n n_docs [] = (t, Raise e) /\
      r = Raise e).
Proof.
  destruct (collect d queries candidates top_n n_docs []) as [t' [c|e]] eqn:E.
  - rewrite (process_batch_run _ _ _ _ _ _ _ _ E). intros [= <- <-].
    left. by exists c.
  - rewrite (process_batch_raise _ _ _ _ _ _ _ _ E). intros [= <- <-].
    right. by exists e.
Qed.

Lemma process_batch_Ok_inv (d : DrQA) queries candidates (top_n n_docs : Z)
    (rc : bool) t preds :
  process_batch d queries candidates top_n n_docs rc [] = (t, Ok preds) ->
  exists c,
    collect d queries candidates top_n n_docs [] = (t, Ok c) /\
    queries <> [] /\ collected d queries candidates top_n n_docs t c /\
    Forall2 (fun queue ps =>
               arrange_queue d rc (all_docids c) (all_doc_scores c)
                 (q_tokens c) (s_tokens c) queue = Ok ps)
            (queues c) preds /\
    length preds = length queries.
Proof.
  intros H. apply process_batch_inv in H as [(c & Hc & Hr)|(e & _ & ?)];
    [|done].
  exists c. split; [done|].
  apply collect_Ok in Hc as Hcol. destruct Hcol as [Hne Hcol].
  split; [done|]. split; [done|]. symmetry in Hr.
  split; [by apply rmap_Forall2|].
  apply rmap_length in Hr. rewrite Hr.
  destruct Hcol as (exs & cs & items & _ & _ & _ & _ & _ & ->). simpl.
  apply queues_of_length.
Qed.

Lemma process_batch_raise_kind (d : DrQA) queries candidates
    (top_n n_docs : Z) (rc : bool) t e :
  process_batch d queries candidates top_n n_docs rc [] = (t, Raise e) ->
  (queries = [] /\ e = ValueError) \/ (queries <> [] /\ e = IndexError).
Proof.
  intros H. apply process_batch_inv in H as [(c & Hc & Hr)|(e' & Hc & [= ->])].
  - right. apply collect_Ok in Hc as [Hne _]. split; [done|].
    symmetry in Hr. apply rmap_raise in Hr as (queue & _ & Hq).
    by eapply arrange_queue_raise.
  - by eapply collect_raise.
Qed.

(** [process_batch] raises [ValueError] on an empty batch, and only
    there; any other exception raised by its own lookups is an
    [IndexError], never a [KeyError]; and when it returns, the batch was
    not empty and there is one list per query. *)
Theorem process_batch_exceptions (d : DrQA) (queries : list str)
    (candidates : option (list (option (list str)))) (top_n n_docs : Z)
    (rc : bool) :
  match (process_batch d queries candidates top_n n_docs rc []).2 with
  | Ok preds => queries <> [] /\ length preds = length queries
  | Raise e =>
      (queries = [] /\ e = ValueError) \/ (queries <> [] /\ e = IndexError)
  end.
Proof.
  destruct (process_batch d queries candidates top_n n_docs rc [])
    as [t [preds|e]] eqn:E; simpl.
  - by apply process_batch_Ok_inv in E as (c & _ & ? & _ & _ & ?).
  - by eapply process_batch_raise_kind.
Qed.

Lemma process_batch_front (d : DrQA) queries candidates (top_n n_docs : Z)
    (rc : bool) :
  exists evs,
    (process_batch d queries candidates top_n n_docs rc []).1
    = front_trace d queries n_docs ++ evs /\
    Forall is_predict evs.
Proof.
  rewrite process_batch_trace. destruct queries as [|q queries].
  - rewrite collect_empty. exists []. split; [|done].
    unfold front_trace, flat_docids_of, docids_of, ranked_of, flatten_docids,
      flat_splits_of, doc_texts_of, flat_docids_of, docids_of, ranked_of,
      flatten_docids.
    simpl. rewrite elements_empty. done.
  - rewrite collect_front by done.
    destruct (collect_back_trace d (q :: queries) candidates top_n n_docs
                (front_trace d (q :: queries) n_docs)) as (evs & r & -> & Hev).
    by exists evs.
Qed.

(** Whatever the inputs, and whether the run returns or raises, the calls
    come in the order of the stages: the ranker once, then the document
    store for every distinct document, then the tokenizer for the queries
    and for the passages, and only then the reader.  When the run returns,
    the reader was called once for every batch of the loader. *)
Theorem calls_follow_the_stages (d : DrQA) (queries : list str)
    (candidates : option (list (option (list str)))) (top_n n_docs : Z)
    (rc : bool) :
  exists evs,
    (process_batch d queries candidates top_n n_docs rc []).1
    = rank_event queries n_docs
      :: (EvFetchText <$> flat_docids_of d queries n_docs)
      ++ (EvTokenizeText <$> queries)
      ++ (EvTokenizeText <$> flat_splits_of d queries n_docs)
      ++ evs /\
    Forall is_predict evs /\
    (forall preds,
        (process_batch d queries candidates top_n n_docs rc []).2 = Ok preds ->
        exists exs cs,
          examples_of d queries n_docs = Ok exs /\
          length cs = length (_get_loader d exs) /\
          evs = zip_with EvPredict (_get_loader d exs) cs).
Proof.
  destruct (process_batch_front d queries candidates top_n n_docs rc)
    as (evs & Ht & Hev).
  exists evs. split; [|split; [done|]].
  - rewrite Ht. unfold front_trace. simpl. by rewrite <- !app_assoc.
  - intros preds Hp.
    destruct (process_batch d queries candidates top_n n_docs rc [])
      as [t r] eqn:E. cbn [fst snd] in Ht, Hp. subst r.
    apply process_batch_Ok_inv in E
        as (c & _ & _ & (exs & cs & items & Hexs & Hcs & _ & _ & Ht' & _) & _).
    exists exs, cs. split; [done|]. split; [by apply rmap_length in Hcs|].
    apply (app_inv_head (front_trace d queries n_docs)). by rewrite <- Ht, <- Ht'.
Qed.

(** [process] is [process_batch] on the batch of its one query: the calls
    are the same, the ranker being asked in its single form; when the batch
    returns it returns one list, which [process] returns, so
    [predictions[0]] never fails; and when the batch raises, [process]
    raises the same exception, an [IndexError]. *)
Theorem process_is_a_batch_of_one (d : DrQA) (query : str)
    (cands : option (list str)) (top_n n_docs : Z) (rc : bool) :
  let run :=
    process_batch d [query] (if truthy cands then Some [cands] else None)
      top_n n_docs rc [] in
  let single := process d query cands top_n n_docs rc [] in
  single.1 = run.1 /\
  head single.1 = Some (EvClosestDocs query n_docs) /\
  match run.2 with
  | Ok preds => exists ps, preds = [ps] /\ single.2 = Ok ps
  | Raise e => e = IndexError /\ single.2 = Raise e
  end.
Proof.
  intros run single.
  destruct (process_batch_front d [query]
              (if truthy cands then Some [cands] else None) top_n n_docs rc)
    as (evs & Ht & _).
  fold run in Ht. subst single. unfold process. fold run.
  destruct run as [t [preds|e]] eqn:E; simpl in Ht.
  - subst run. apply process_batch_Ok_inv in E as Hinv.
    destruct Hinv as (_ & _ & _ & _ & _ & Hlen).
    destruct preds as [|ps [|? ?]]; [done| |done].
    rewrite (bind_ok _ _ _ _ _ E). simpl. split; [done|].
    split; [by rewrite Ht|]. by exists ps.
  - subst run. rewrite (bind_raise _ _ _ _ _ E). simpl. split; [done|].
    split; [by rewrite Ht|]. split; [|done].
    by apply process_batch_raise_kind in E as [[? _]|[_ ?]].
Qed.

(** The list of a query is as long as it can be: it has [top_n]
    predictions, or one for every row of the query that the reader scored
    when there are fewer; in the latter case every such row has a
    prediction with its score. *)
Theorem prediction_lists_are_full (d : DrQA) (queries : list str)
    (candidates : option (list (option (list str)))) (top_n n_docs : Z)
    (rc : bool) (t : list Event) (preds : list (list Prediction)) :
  process_batch d queries candidates top_n n_docs rc [] = (t, Ok preds) ->
  exists c items,
    collect d queries candidates top_n n_docs [] = (t, Ok c) /\
    offered (result_handles c) = Ok items /\
    forall q ps,
      preds !! q = Some ps ->
      length ps = Nat.min (Z.to_nat top_n) (length (query_items q items)) /\
      (forall it, it ∈ query_items q items ->
         length ps = Z.to_nat top_n \/
         exists p, p ∈ ps /\ span_score p = item_score it).
Proof.
  intros H. apply process_batch_Ok_inv in H
      as (c & Hc & Hne & (exs & cs & items & _ & _ & Hoff & _ & _ & ->) & HF
          & Hlen).
  eexists; exists items. split; [exact Hc|]. split; [done|].
  cbn [locals_of queues all_docids all_doc_scores q_tokens s_tokens] in HF.
  intros q ps Hq.
  destruct (Forall2_lookup_r _ _ _ _ _ HF Hq) as (queue & Hqueue & Harr).
  assert (q < length queries)%nat as Hlt.
  { apply lookup_lt_Some in Hq. lia. }
  rewrite queues_of_lookup in Hqueue by done. injection Hqueue as <-.
  apply arrange_queue_length in Harr as Hl. rewrite Hl, queue_length.
  split; [done|]. intros it Hit.
  destruct (decide (Z.to_nat top_n <= length (query_items q items))%nat)
    as [Hfull|Hroom]; [left; lia|right].
  destruct (top_of_fold top_n (query_items q items))
    as (_ & Hsize & dropped & Hperm & _).
  assert (dropped = []) as ->.
  { apply Permutation_length in Hperm. rewrite length_app in Hperm.
    rewrite queue_length in Hperm. destruct dropped; [done|]. simpl in Hperm.
    lia. }
  rewrite app_nil_r in Hperm. rewrite Hperm in Hit.
  apply arrange_queue_Ok in Harr. rewrite drain_all in Harr.
  assert (it ∈ rev (fold_left (offer top_n) (query_items q items) [])) as Hin.
  { rewrite rev_reverse. by apply elem_of_reverse. }
  apply list_elem_of_lookup in Hin as [i Hi].
  destruct (Forall2_lookup_l _ _ _ _ _ Harr Hi) as (p & Hp & Hm).
  exists p. split; [by eapply list_elem_of_lookup_2|].
  by eapply make_prediction_score.
Qed.

(** The small pipeline on its two queries. *)
Lemma prediction_lists_are_full_witness :
  exists t preds c items,
    process_batch (demo WordTagging (fun _ => false)) demo_queries None 2 5
      true [] = (t, Ok preds) /\
    collect (demo WordTagging (fun _ => false)) demo_queries None 2 5 []
    = (t, Ok c) /\
    offered (result_handles c) = Ok items.
Proof.
  destruct (process_batch_total (demo WordTagging (fun _ => false))
              demo_queries None 2 5 true)
    as (t & c & preds & _ & Hrun & _).
  - discriminate.
  - apply demo_reader_contract.
  - apply demo_ranker_contract.
  - apply candidates_ok_None.
  - destruct (prediction_lists_are_full _ _ _ _ _ _ _ _ Hrun)
      as (c' & items & Hc & Hoff & _).
    exists t, preds, c', items. split; [exact Hrun|]. split; [exact Hc|exact Hoff].
Defined.

(** ** Where a prediction comes from *)


(** The items of a list of predictions: the queue of the question, from
    the greatest item to the smallest. *)
Lemma prediction_item (d : DrQA) (queries : list str) candidates
    (top_n n_docs : Z) (rc : bool) t preds (q : nat) ps p :
  process_batch d queries candidates top_n n_docs rc [] = (t, Ok preds) ->
  preds !! q = Some ps -> p ∈ ps ->
  exists exs cs items it,
    examples_of d queries n_docs = Ok exs /\
    rmap (batch_cands_of d candidates (s_tokens_of d queries n_docs))
         (_get_loader d exs) = Ok cs /\
    offered (zip_with (handle_of d) (_get_loader d exs) cs) = Ok items /\
    it ∈ items /\ (item_key it).1.1 = q /\
    make_prediction d rc (docids_of d queries n_docs)
      (doc_scores_of d queries n_docs) (q_tokens_of d queries)
      (s_tokens_of d queries n_docs) it = Ok p.
Proof.
  intros H Hq Hp. apply process_batch_Ok_inv in H
      as (c & Hc & Hne & (exs & cs & items & Hexs & Hcs & Hoff & _ & _ & ->)
          & HF & Hlen).
  cbn [locals_of queues all_docids all_doc_scores q_tokens s_tokens] in HF.
  destruct (Forall2_lookup_r _ _ _ _ _ HF Hq) as (queue & Hqueue & Harr).
  assert (q < length queries)%nat as Hlt.
  { apply lookup_lt_Some in Hq. lia. }
  rewrite queues_of_lookup in Hqueue by done. injection Hqueue as <-.
  apply arrange_queue_Ok in Harr. rewrite drain_all in Harr.
  apply list_elem_of_lookup in Hp as [i Hi].
  destruct (Forall2_lookup_r _ _ _ _ _ Harr Hi) as (it & Hit & Hm).
  apply list_elem_of_lookup_2 in Hit. rewrite rev_reverse in Hit.
  apply elem_of_reverse, queue_elem_of, query_items_elem_of in Hit
      as [Hkey Hit].
  by exists exs, cs, items, it.
Qed.



Lemma split_doc_nil_iff (G : group_length) (doc : str) :
  _split_doc G doc = [] <-> paragraphs doc = [].
Proof.
  destruct (split_doc_grouping G doc) as (groups & -> & <- & Hok & _). split.
  - intros H. apply fmap_nil_inv in H. by subst.
  - intros H. destruct groups as [|g groups]; [done|].
    apply Forall_cons in Hok as [[Hg _] _]. by destruct g.
Qed.

(** A query that has no token, or whose ranked documents have no
    paragraph (in particular a query for which the ranker returns nothing),
    gets an empty list. *)
Theorem query_without_passages (d : DrQA) (queries : list str)
    (candidates : option (list (option (list str)))) (top_n n_docs : Z)
    (rc : bool) (t : list Event) (preds : list (list Prediction))
    (q : nat) (query : str) :
  process_batch d queries candidates top_n n_docs rc [] = (t, Ok preds) ->
  queries !! q = Some query ->
  tokenize d query = [] \/
  (forall did, did ∈ (closest_docs d query n_docs).1 ->
               paragraphs (get_doc_text d did) = []) ->
  preds !! q = Some [].
Proof.
  intros H Hquery Hcase.
  assert (exists ps, preds !! q = Some ps) as [ps Hq].
  { apply lookup_lt_is_Some.
    apply process_batch_Ok_inv in H as (_ & _ & _ & _ & _ & ->).
    by eapply lookup_lt_Some. }
  rewrite Hq. f_equal. destruct ps as [|p ps]; [done|]. exfalso.
  destruct (prediction_item _ _ _ _ _ _ _ _ _ _ p H Hq)
    as (exs & cs & items & it & Hexs & Hcs & Hoff & Hit & Hkey & Hm);
    [by left|].
  destruct (collected_items _ _ _ _ _ _ _ Hexs Hcs Hoff) as [_ Horig].
  rewrite Forall_forall in Horig.
  destruct (Horig it Hit) as (b & c & i & ex & Hex & _ & Hid & _).
  apply (examples_of_elem_of _ _ _ _ _ Hexs) in Hex.
  rewrite Hid, Hkey in Hex.
  destruct Hex as (query' & did & didx & range & passage & Hquery' & Hr & _ & _
                   & _ & _ & Hchunk & Hmk).
  rewrite Hquery in Hquery'. injection Hquery' as <-.
  destruct Hcase as [Hnone|Hblank].
  - rewrite Hnone in Hmk. unfold make_example in Hmk.
    by destruct (reader_model d).
  - apply list_elem_of_lookup_2 in Hr. apply Hblank in Hr.
    apply (split_doc_nil_iff (GROUP_LENGTH d)) in Hr. by rewrite Hr in Hchunk.
Qed.

(** The small pipeline with a second query made of one space. *)
Lemma query_without_passages_witness :
  exists t preds,
    process_batch (demo WordTagging (fun _ => false)) [demo_question; [SP]]
      None 2 5 true [] = (t, Ok preds) /\
    preds !! 1%nat = Some [].
Proof.
  destruct (process_batch_total (demo WordTagging (fun _ => false))
              [demo_question; [SP]] None 2 5 true)
    as (t & c & preds & _ & Hrun & _).
  - discriminate.
  - apply demo_reader_contract.
  - apply demo_ranker_contract.
  - apply candidates_ok_None.
  - exists t, preds. split; [exact Hrun|].
    apply (query_without_passages _ _ _ _ _ _ _ _ 1%nat [SP] Hrun eq_refl).
    left. reflexivity.
Defined.

(** ** The restrictions given to the reader *)

Lemma batch_cands_of_Ok (d : DrQA) candidates s_tokens
    (batch : list Example) c :
  batch_cands_of d candidates s_tokens batch = Ok c ->
  cands_ok d candidates s_tokens batch c.
Proof.
  unfold batch_cands_of, cands_ok.
  destruct (truthy candidates || fixed_candidates d); [|by intros [= <-]].
  destruct (make_batch_cands _ _ _) as [bcs|] eqn:E; simpl; [|done].
  intros [= <-]. exists bcs. split; [done|].
  unfold make_batch_cands in E. apply rmap_Forall2 in E.
  apply Forall2_fmap_l in E. eapply Forall2_impl; [exact E|].
  intros ex bc. simpl.
  destruct (s_tokens !! (ex_id ex).2) as [input|]; simpl; [|done].
  destruct (truthy candidates); simpl.
  - destruct (default [] candidates !! (ex_id ex).1.1); simpl; [|done].
    by intros [= <-].
  - by intros [= <-].
Qed.

Lemma mapM_read_batch_events (d : DrQA) candidates s_tokens
    (batches : list (list Example)) t :
  exists evs r,
    mapM (read_batch d candidates s_tokens) batches t = (t ++ evs, r) /\
    Forall (fun ev =>
              exists b c, ev = EvPredict b c /\ b ∈ batches /\
                          batch_cands_of d candidates s_tokens b = Ok c) evs.
Proof.
  revert t. induction batches as [|b batches IH]; intros t.
  - exists [], (Ok []). by rewrite app_nil_r.
  - cbn [mapM]. unfold bind at 1. rewrite read_batch_run.
    destruct (batch_cands_of d candidates s_tokens b) as [c|e] eqn:Hb.
    + destruct (IH (t ++ [EvPredict b c])) as (evs & r & Hrun & Hev).
      unfold bind at 1. rewrite Hrun.
      exists (EvPredict b c :: evs).
      exists (match r with Ok ys => Ok (handle_of d b c :: ys)
                         | Raise e => Raise e end).
      split.
      * rewrite <- app_assoc. by destruct r.
      * constructor; [exists b, c; split; [done|]; split; [by left|done]|].
        eapply Forall_impl; [exact Hev|].
        intros ev (b' & c' & ? & ? & ?). exists b', c'.
        split; [done|]. split; [by right|done].
    + exists [], (Raise e). by rewrite app_nil_r.
Qed.

Lemma front_trace_no_predict (d : DrQA) (queries : list str) (n_docs : Z)
    (b : list Example) c :
  EvPredict b c ∉ front_trace d queries n_docs.
Proof.
  unfold front_trace. intros H.
  apply elem_of_cons in H as [H|H]; [by destruct queries as [|? [|? ?]]|].
  rewrite !elem_of_app in H.
  destruct H as [H|[H|H]]; by apply list_elem_of_fmap in H as (? & ? & _).
Qed.

Lemma collect_back_events (d : DrQA) queries candidates (top_n n_docs : Z)
    t0 :
  exists exs evs,
    examples_of d queries n_docs = Ok exs /\
    (collect_back d queries candidates top_n n_docs t0).1 = t0 ++ evs /\
    Forall (fun ev =>
              exists b c, ev = EvPredict b c /\ b ∈ _get_loader d exs /\
                          batch_cands_of d candidates
                            (s_tokens_of d queries n_docs) b = Ok c) evs.
Proof.
  destruct (examples_of_total d queries n_docs) as [exs Hexs].
  unfold collect_back. unfold bind at 1. unfold lift at 1. rewrite Hexs.
  unfold bind at 1.
  destruct (mapM_read_batch_events d candidates (s_tokens_of d queries n_docs)
              (_get_loader d exs) t0) as (evs & r & -> & Hev).
  exists exs, evs. split; [done|]. split; [|done].
  destruct r as [hs|e]; [|done].
  unfold bind at 1. unfold lift at 1. by destruct (aggregate _ _ _).
Qed.

(** Every call to the reader is for a batch of the loader.  Without
    candidates and without fixed candidates the reader is given no
    restriction; otherwise it is given one restriction per row, with the
    tokens of the row's passage and, when candidates are given, the
    candidates of the row's question. *)
Theorem reader_call_arguments (d : DrQA) (queries : list str)
    (candidates : option (list (option (list str)))) (top_n n_docs : Z)
    (rc : bool) (batch : list Example) (c : option (list BatchCand)) :
  EvPredict batch c
    ∈ (process_batch d queries candidates top_n n_docs rc []).1 ->
  exists exs,
    examples_of d queries n_docs = Ok exs /\
    batch ∈ _get_loader d exs /\
    cands_ok d candidates (tokenize d <$> flat_splits_of d queries n_docs)
      batch c.
Proof.
  rewrite process_batch_trace. destruct queries as [|q queries].
  - rewrite collect_empty. simpl. intros H.
    by apply list_elem_of_singleton in H.
  - rewrite collect_front by done.
    destruct (collect_back_events d (q :: queries) candidates top_n n_docs
                (front_trace d (q :: queries) n_docs))
      as (exs & evs & Hexs & -> & Hev).
    intros H. apply elem_of_app in H as [H|H];
      [by apply front_trace_no_predict in H|].
    rewrite Forall_forall in Hev.
    destruct (Hev _ H) as (b & c' & [= <- <-] & Hb & Hc).
    exists exs. split; [done|]. split; [done|].
    by apply batch_cands_of_Ok in Hc.
Qed.

(** The last reader call of the small pipeline, run without candidates. *)
Lemma reader_call_arguments_witness :
  exists (b : list Example) (c : option (list BatchCand)) exs,
    examples_of (demo WordTagging (fun _ => false)) demo_queries 5 = Ok exs /\
    b ∈ _get_loader (demo WordTagging (fun _ => false)) exs /\
    c = None.
Proof.
  assert (exists b c t,
             (process_batch (demo WordTagging (fun _ => false)) demo_queries
                None 2 5 true []).1 = t ++ [EvPredict b c]) as Hr.
  { vm_compute.
    match goal with
    | |- exists b c t, ?l = _ =>
        match eval cbv in (last l) with
        | Some (EvPredict ?b ?c) =>
            exists b, c, (removelast l); reflexivity
        end
    end. }
  destruct Hr as (b & c & t & Ht).
  destruct (reader_call_arguments (demo WordTagging (fun _ => false))
              demo_queries None 2 5 true b c) as (exs & Hexs & Hb & Hc).
  - rewrite Ht. apply elem_of_app. right. apply list_elem_of_here.
  - exists b, c, exs. split; [exact Hexs|]. split; [exact Hb|exact Hc].
Defined.

(** A candidate list shorter than the batch makes the run fail: when an
    example belongs to a question that has no entry in [candidates],
    [process_batch] raises [IndexError]. *)
Theorem short_candidates_raise (d : DrQA) (queries : list str)
    (cl : list (option (list str))) (top_n n_docs : Z) (rc : bool)
    (exs : list Example) (i : nat) (ex : Example) :
  cl <> [] ->
  examples_of d queries n_docs = Ok exs -> exs !! i = Some ex ->
  (length cl <= (ex_id ex).1.1)%nat ->
  (process_batch d queries (Some cl) top_n n_docs rc []).2 = Raise IndexError.
Proof.
  intros Hcl Hexs Hi Hshort.
  assert (truthy (Some cl) = true) as Htr by by destruct cl.
  apply list_elem_of_lookup_2 in Hi.
  destruct (process_batch d queries (Some cl) top_n n_docs rc [])
    as [t [preds|e]] eqn:E; simpl.
  - exfalso. apply process_batch_Ok_inv in E
        as (c & _ & _ & (exs' & cs & items & Hexs' & Hcs & _) & _).
    rewrite Hexs in Hexs'. injection Hexs' as <-.
    rewrite <- (get_loader_perm d exs) in Hi.
    apply elem_of_concat in Hi as (b & Hb & Hex).
    apply rmap_Forall2 in Hcs. apply list_elem_of_lookup in Hb as [j Hj].
    destruct (Forall2_lookup_l _ _ _ _ _ Hcs Hj) as (c' & _ & Hc).
    apply batch_cands_of_Ok in Hc. unfold cands_ok in Hc.
    rewrite Htr in Hc. simpl in Hc. destruct Hc as (bcs & _ & HF).
    apply list_elem_of_lookup in Hex as [k Hk].
    destruct (Forall2_lookup_l _ _ _ _ _ HF Hk) as (bc & _ & _ & Hl).
    apply lookup_lt_Some in Hl. lia.
  - f_equal. apply process_batch_raise_kind in E as [[-> _]|[_ ->]]; [|done].
    apply examples_of_ok in Hexs as [_ Hall]. rewrite Forall_forall in Hall.
    destruct (Hall ex Hi) as [Hlt _]. simpl in Hlt. lia.
Qed.

(** The small pipeline with two queries and one candidate list. *)
Lemma short_candidates_raise_witness :
  (process_batch (demo WordTagging (fun _ => false)) demo_queries
     (Some [None]) 2 5 true []).2 = Raise IndexError.
Proof.
  assert (exists exs ex,
             examples_of (demo WordTagging (fun _ => false)) demo_queries 5
             = Ok exs /\ exs !! 5%nat = Some ex /\ (ex_id ex).1.1 = 1%nat)
    as (exs & ex & Hexs & Hex & Hq).
  { vm_compute. do 2 eexists. split; [reflexivity|]. split; reflexivity. }
  apply (short_candidates_raise _ _ [None] _ _ _ exs 5%nat ex).
  - discriminate.
  - exact Hexs.
  - exact Hex.
  - rewrite Hq. simpl. lia.
Defined.

(** ** The context of a transformer prediction *)

Lemma join_take_drop (sep : str) (l : list str) (n : nat) :
  (0 < n < length l)%nat ->
  join sep l = join sep (take n l) ++ sep ++ join sep (drop n l).
Proof.
  intros Hn. rewrite <- (take_drop n l) at 1. apply join_app.
  - intros H. apply (f_equal length) in H. rewrite length_take in H.
    simpl in H. lia.
  - intros H. apply (f_equal length) in H. rewrite length_drop in H.
    simpl in H. lia.
Qed.

Lemma join_take_prefix (sep : str) (l : list str) (n : nat) :
  exists rest, join sep l = join sep (take n l) ++ rest.
Proof.
  destruct (decide (0 < n < length l)%nat) as [Hn|Hn].
  - eexists. by apply join_take_drop.
  - destruct (decide (n = 0)%nat) as [->|Hn0].
    + exists (join sep l). by rewrite take_0.
    + exists []. rewrite take_ge by lia. by rewrite app_nil_r.
Qed.

(** The text between the offsets of two prefixes of the words: the words
    between them, after the space that joins them to the first prefix. *)
Lemma context_slice (ws : list str) (a b : nat) :
  (a < b <= length ws)%nat ->
  let X := join [SP] (take a ws) in
  let Y := join [SP] (take b ws) in
  take (length Y - length X) (drop (length X) (join [SP] ws))
  = (if a is O then [] else [SP]) ++ join [SP] (take (b - a) (drop a ws)).
Proof.
  intros Hab X Y.
  destruct (join_take_prefix [SP] ws b) as [rest Hrest]. fold Y in Hrest.
  assert (Y = X ++ (if a is O then [] else [SP])
                ++ join [SP] (take (b - a) (drop a ws))) as HY.
  { subst X Y. destruct a as [|a].
    - rewrite take_0, drop_0, Nat.sub_0_r. done.
    - rewrite (join_take_drop [SP] (take b ws) (S a))
        by (rewrite length_take; lia).
      rewrite take_take, Nat.min_l by lia.
      rewrite skipn_firstn_comm. done. }
  rewrite Hrest, HY, <- !app_assoc, drop_app_length.
  rewrite !length_app. rewrite Nat.add_comm, Nat.add_sub.
  rewrite app_assoc, <- length_app. by rewrite take_app_length.
Qed.

Lemma clip_nonneg {A} (l : list A) (i : Z) :
  0 <= i <= len l -> clip l i = Z.to_nat i.
Proof.
  intros Hi. unfold clip, len in *.
  destruct (0 <=? i) eqn:E; [lia|]. apply Z.leb_gt in E. lia.
Qed.

(** In the transformer variant the context of a prediction is the
    passage's tokens joined with spaces, and its offsets are the lengths of
    the joined tokens before the span and up to its end.  When the decoded
    span lies in the passage, the text between the offsets is the span
    when the span starts the passage, and otherwise the span after the
    space that precedes it. *)
Theorem transformer_context_offsets (d : DrQA)
    (all_docids : list (list str)) (all_doc_scores : list (list Score))
    (q_tokens s_tokens : list Tokens) (score : Score) (qidx rel_didx sidx : nat)
    (s e : Z) (q toks : Tokens) (p : Prediction) :
  reader_model d = Transformer ->
  q_tokens !! qidx = Some q -> s_tokens !! sidx = Some toks ->
  make_prediction d true all_docids all_doc_scores q_tokens s_tokens
    (score, (qidx, rel_didx, sidx), s, e) = Ok p ->
  local_index q s <= local_index q e < len toks ->
  exists ctx,
    context p = Some ctx /\
    ctx_text ctx = join [SP] (words toks) /\
    ctx_start ctx = len (join [SP] (py_prefix (words toks) (local_index q s)))
    /\
    py_slice (ctx_text ctx) (ctx_start ctx) (ctx_end ctx)
    = (if local_index q s =? 0 then [] else [SP]) ++ span p.
Proof.
  intros Hmodel Hq Ht Hm Hse. unfold make_prediction in Hm.
  rewrite Hmodel, Hq, Ht in Hm. simpl in Hm.
  destruct (all_docids !! qidx) as [docids|]; simpl in Hm; [|done].
  destruct (docids !! rel_didx) as [did|]; simpl in Hm; [|done].
  destruct (all_doc_scores !! qidx) as [dscores|]; simpl in Hm; [|done].
  destruct (dscores !! rel_didx) as [dscore|]; simpl in Hm; [|done].
  injection Hm as <-. eexists. split; [done|]. cbn [ctx_text ctx_start ctx_end span].
  split; [done|]. split; [done|].
  pose proof (local_index_nonneg q s) as Hs0.
  set (a := local_index q s) in *. set (b := local_index q e) in *.
  set (ws := words toks).
  assert (len ws = len toks) as Hlen
      by (unfold len, ws, words; by rewrite length_fmap).
  unfold py_prefix, py_slice.
  rewrite !(clip_nonneg ws) by lia.
  pose proof (context_slice ws (Z.to_nat a) (Z.to_nat (b + 1))) as Hctx.
  simpl in Hctx.
  destruct (join_take_prefix [SP] ws (Z.to_nat a)) as [r1 Hr1].
  destruct (join_take_prefix [SP] ws (Z.to_nat (b + 1))) as [r2 Hr2].
  apply (f_equal length) in Hr1, Hr2. rewrite length_app in Hr1, Hr2.
  rewrite !clip_nonneg.
  - unfold len. rewrite !Nat2Z.id.
    rewrite Hctx by (unfold len in *; lia).
    destruct (a =? 0) eqn:Ea.
    + apply Z.eqb_eq in Ea. by rewrite Ea.
    + apply Z.eqb_neq in Ea. destruct (Z.to_nat a) eqn:Eta; [lia|done].
  - unfold len. lia.
  - unfold len. lia.
Qed.

(** A span of two words in the middle of a passage of four. *)
Lemma transformer_context_offsets_witness :
  exists ctx,
    ctx_text ctx = of_string "William Shakespeare wrote Hamlet." /\
    py_slice (ctx_text ctx) (ctx_start ctx) (ctx_end ctx)
    = of_string " Shakespeare wrote".
Proof.
  destruct (transformer_context_offsets
              (demo Transformer (fun _ => false))
              [[of_string "d1"]] [[9]]
              [demo_tokenize demo_question]
              [demo_tokenize (of_string "William Shakespeare wrote Hamlet.")]
              4 0%nat 0%nat 0%nat 6 7
              (demo_tokenize demo_question)
              (demo_tokenize (of_string "William Shakespeare wrote Hamlet."))
              (mkPrediction (of_string "d1") (of_string "Shakespeare wrote")
                 9 4
                 (Some (mkContext
                          (of_string "William Shakespeare wrote Hamlet.")
                          7 25))))
    as (ctx & Hc & Htext & _ & Hslice).
  - reflexivity.
  - reflexivity.
  - reflexivity.
  - vm_compute. reflexivity.
  - vm_compute. split; [discriminate|reflexivity].
  - exists ctx. split; [rewrite Htext; vm_compute; reflexivity|].
    rewrite Hslice. vm_compute. reflexivity.
Defined.

(** ** The order of a list of predictions *)






